(** * COZ: zero-allocation stackless coroutines

    A shallow embedding of [include/coz/coroutine.hpp] and of the generator
    example ([example/generator.hpp], [example/generator_demo.cpp]).

    - [unsigned] program counters are [Z] with the wrap-around at [2^32]
      written out; [std::size_t] quantities are [N].
    - The coroutine instance is a record of its persistent fields; every
      entry point ([start], [resume], [destroy]) passes the record explicitly
      and returns a [result].
    - The body of a coroutine is what the macros [COZ_BEG] ... [COZ_END]
      expand to: a [switch] over the resume ordinal wrapped in a [try].  The
      control skeleton (sequence, branch, loop and the COZ macros) is a small
      statement type; user computations inside it are Rocq functions. *)

From Stdlib Require Import ZArith NArith List Bool Lia Permutation.
Import ListNotations.

Set Warnings "-register-all".
Open Scope Z_scope.

(** ** Program-counter arithmetic *)

(** Value of an [unsigned] after an operation on it. *)
Definition unsigned_wrap (z : Z) : Z := z mod 2 ^ 32.

(** [enum : unsigned { SENTINEL = ~0u }]. *)
Definition SENTINEL : Z := unsigned_wrap (Z.lnot 0).

(** ** Frame Layout Solver *)

Module Layout.

(** [struct size_align { std::size_t size; std::size_t align; }]. *)
Record size_align := mk_size_align { size : N; align : N }.

(** [size_align{}]: both members value-initialised. *)
Definition size_align_zero : size_align := mk_size_align 0 0.

(** [unite(a, b)]: member-wise [std::max]. *)
Definition unite (a b : size_align) : size_align :=
  mk_size_align (N.max (size a) (size b)) (N.max (align a) (align b)).

Definition size_align_eqb (a b : size_align) : bool :=
  (size a =? size b)%N && (align a =? align b)%N.

(** [smp_state<N, C>]: the ordinal of an observation and its constant. *)
Record smp_state := mk_smp_state { index : nat; value : size_align }.

(** The observations stored so far in one domain.  [smp_store_state<Domain,
    N, C>] defines [observe(smp_bump<Domain, N>)]; ordinals are handed out
    consecutively from 0, so the position in the list is the ordinal. *)
Definition smp_domain := list size_align.

(** [smp_load_state<Domain, Tick, N>]: walk the ordinals upwards while
    [observe] is defined, and return the state just below the first
    unobserved one.  [last] is the state at [N - 1]. *)
Fixpoint smp_load_state_from (obs : smp_domain) (N : nat) (last : smp_state)
  : smp_state :=
  match obs with
  | [] => last
  | c :: rest => smp_load_state_from rest (S N) (mk_smp_state N c)
  end.

(** With nothing observed at ordinal 0 the instantiation is ill-formed
    ([N - 1] on [N = 0]); otherwise the highest observation. *)
Definition smp_load_state (d : smp_domain) : option smp_state :=
  match d with
  | [] => None
  | c :: rest => Some (smp_load_state_from rest 1 (mk_smp_state 0 c))
  end.

(** [smp_init_state<Domain, C>]: store [C] at ordinal 0. *)
Definition smp_init_state (c : size_align) : smp_domain := [c].

(** [get_size_align<Domain, Tick>]. *)
Definition get_size_align (d : smp_domain) : option size_align :=
  option_map value (smp_load_state d).

(** [update_size_align_impl<Val, Domain, Tick>]: store
    [unite(Val, curr::value)] at ordinal [curr::index + 1]. *)
Definition update_size_align_impl (val : size_align) (d : smp_domain)
  : smp_domain :=
  match smp_load_state d with
  | None => d
  | Some curr => firstn (S (index curr)) d ++ [unite val (value curr)]
  end.

(** The registrations of one coroutine body, left to right, after the
    [smp_init_state<_coz_state, size_align{}>] at the head of
    [operator()]. *)
Definition register_all (regs : list size_align) : smp_domain :=
  fold_left (fun d val => update_size_align_impl val d) regs
            (smp_init_state size_align_zero).

(** The query at [_coz_suspend]: [get_size_align<_coz_state, SENTINEL>]. *)
Definition frame_of (regs : list size_align) : option size_align :=
  get_size_align (register_all regs).

(** The union the registrations build up from [x], one [unite] each. *)
Definition running (regs : list size_align) (x : size_align) : size_align :=
  fold_left (fun acc val => unite val acc) regs x.

(** Member-wise maximum over a list of observations. *)
Definition max_over (regs : list size_align) : size_align :=
  mk_size_align (fold_right N.max 0%N (map size regs))
                (fold_right N.max 0%N (map align regs)).

(** [body<mem, State>] has the member [char m_mem_tmp[mem.size]] unless the
    specialisation [body<size_align{}, State>] is selected. *)
Definition body_has_mem_tmp (mem : size_align) : bool :=
  negb (size_align_eqb mem size_align_zero).

(** Bytes of scratch storage in the instance. *)
Definition body_mem_tmp_bytes (mem : size_align) : N :=
  if body_has_mem_tmp mem then size mem else 0%N.

(** [a] needs no more room and no stricter alignment than [b] offers. *)
Definition fits (a b : size_align) : Prop :=
  (size a <= size b)%N /\ (align a <= align b)%N.

End Layout.

(** ** The coroutine instance and the execution engine *)

Section Engine.

(** [St]: the state closure [_coz_state] (captured arguments and declared
    locals).  [P]: the promise.  [V]: values passed to [COZ_YIELD] and
    [COZ_RETURN].  [E]: error values carried by exceptions.  [A]: awaiters
    (after [await_transform]).  [R]: what [await_resume] returns. *)
Variables St P V E A R : Type.

(** The *Promise* interface.  A hook that may throw returns [inr e].  A
    promise defines [return_void], [return_value] or both; a missing one is
    [None].  [unhandled_exception] runs inside the engine's [catch (...)]
    with the error in flight; [Some e] is what it throws to the caller
    ([throw;] rethrows the same error). *)
Record promise_hooks := {
  finalize : P -> P;
  yield_value : V -> P -> P + E;
  return_void : option (P -> P + E);
  return_value : option (V -> P -> P + E);
  unhandled_exception : E -> P -> P * option E
}.

(** What [await_suspend] gives back: nothing, or a [bool]. *)
Inductive suspend_ret := SuspendVoid | SuspendBool (b : bool).

(** The *Awaiter* interface.  [await_suspend] is handed a
    [coroutine_handle] to the suspending coroutine; what it can read through
    it is the resume ordinal ([coroutine_handle<>::done()]), the second
    argument here. *)
Record awaiter_hooks := {
  await_ready : A -> bool;
  await_suspend : A -> Z -> suspend_ret;
  await_resume : A -> R + E
}.

Variable PH : promise_hooks.
Variable AH : awaiter_hooks.

(** Calls the engine makes, in order; kept to count them. *)
Inductive event :=
| EvBody                         (* user code of the body ran *)
| EvCtorTmp                      (* placement-new into [_coz_mem_tmp] *)
| EvDtorTmp                      (* destructor of the scratch occupant *)
| EvAwaitReady
| EvAwaitSuspend
| EvAwaitResume
| EvYieldValue (v : V)
| EvReturnVoid
| EvReturnValue (v : V)
| EvHandler (h : Z) (e : E)      (* a clause after [COZ_CATCH] of region [h] caught [e] *)
| EvDtorState                    (* [m_state->~State()] *)
| EvFinalize
| EvUnhandled (e : E).

(** The occupant of the scratch frame [_coz_mem_tmp]. *)
Inductive tmp := TmpValue (v : V) | TmpAwaiter (a : A).

(** [coroutine<Promise, Params, State>]: [coro_state] ([m_next], [m_eh]),
    the promise, the state closure and the scratch frame.  [trace] is the
    record of calls made so far. *)
Record coroutine := mk_coroutine {
  m_next : Z;
  m_eh : Z;
  promise : P;
  m_state : St;
  m_mem_tmp : option tmp;
  trace : list event
}.

Definition set_next (n : Z) (c : coroutine) : coroutine :=
  mk_coroutine n (m_eh c) (promise c) (m_state c) (m_mem_tmp c) (trace c).

Definition set_eh (h : Z) (c : coroutine) : coroutine :=
  mk_coroutine (m_next c) h (promise c) (m_state c) (m_mem_tmp c) (trace c).

Definition set_promise (p : P) (c : coroutine) : coroutine :=
  mk_coroutine (m_next c) (m_eh c) p (m_state c) (m_mem_tmp c) (trace c).

Definition set_state (s : St) (c : coroutine) : coroutine :=
  mk_coroutine (m_next c) (m_eh c) (promise c) s (m_mem_tmp c) (trace c).

Definition set_tmp (t : option tmp) (c : coroutine) : coroutine :=
  mk_coroutine (m_next c) (m_eh c) (promise c) (m_state c) t (trace c).

Definition emit (ev : event) (c : coroutine) : coroutine :=
  mk_coroutine (m_next c) (m_eh c) (promise c) (m_state c) (m_mem_tmp c)
               (trace c ++ [ev]).

(** [new (_coz_mem_tmp) T{...}] and [static_cast<T*>(_coz_mem_tmp)->~T()]. *)
Definition ctor_tmp (t : tmp) (c : coroutine) : coroutine :=
  emit EvCtorTmp (set_tmp (Some t) c).

Definition dtor_tmp (c : coroutine) : coroutine :=
  emit EvDtorTmp (set_tmp None c).

(** The operand of [COZ_RETURN(...)]: nothing, an expression of type
    [void], or an expression with a value. *)
Inductive return_operand :=
| RetEmpty
| RetVoid (f : St -> St + E)
| RetValue (f : St -> V).

(** The body between [COZ_BEG] and [COZ_END] after preprocessing.  [ip] and
    [eh] are the values of [z_COZ_NEW_IP] the macro drew; [sa] is
    [size_align_of<T>] for the one type [T] ([_coz_tmp_t], [_coz_awt_t])
    that the suspension point registers with the solver, builds in the
    scratch frame by placement-new and destroys there.
    The clauses after [COZ_CATCH] are a function from the error to the
    handler selected for it ([None]: no clause matches). *)
Inductive stmt :=
| Skip                                   (* [;] *)
| Do (f : St -> St + E)                  (* a statement of the user: its
                                            effect on the state closure, or
                                            the error it throws *)
| Seq (s1 s2 : stmt)                     (* [s1 s2] *)
| If (c : St -> bool) (s1 s2 : stmt)     (* [if (c) s1 else s2] *)
| While (c : St -> bool) (b : stmt)      (* [for (; c; ) b] *)
| COZ_YIELD (ip eh : Z) (sa : Layout.size_align) (expr : St -> V)
| COZ_YIELD_LITE (ip eh : Z) (expr : St -> V)
| COZ_AWAIT_APPLY (ip eh : Z) (sa : Layout.size_align) (expr : St -> A)
                  (f : R -> St -> St + E)
                                         (* [f(co_await expr)]; also
                                            [COZ_AWAIT] and [COZ_AWAIT_SET],
                                            which differ in [f] only *)
| COZ_RETURN (r : return_operand)
| COZ_TRY (curr_eh prev_eh : Z) (b : stmt) (clauses : E -> option stmt).
                                         (* [COZ_TRY b COZ_CATCH ...] *)

(** How control leaves a statement. *)
Inductive outcome :=
| Next               (* ran to its end *)
| Seeking            (* the [case] label dispatched to is not in it *)
| Suspend            (* [goto _coz_suspend] *)
| Finalize           (* [goto _coz_finalize] *)
| Raise (e : E)      (* an exception leaves it *)
| Fatal              (* assertion failure or undefined behaviour *)
| OutOfFuel.

(** Either the statement is entered from its top, or the [switch] is
    looking for [case t]; [ex] is the exception carrier [_coz_ex]. *)
Inductive mode := Run | Seek (t : Z) (ex : option E).

(** [p->return_void()] followed by what the macros put after it,
    [goto _coz_finalize].  A body that needs a hook its promise lacks does
    not compile, except through [implicit_return], which asserts; both are
    [Fatal] here. *)
Definition call_return_void (c : coroutine) : outcome * coroutine :=
  match return_void PH with
  | None => (Fatal, c)
  | Some rv =>
      match rv (promise c) with
      | inl p => (Finalize, set_promise p (emit EvReturnVoid c))
      | inr e => (Raise e, emit EvReturnVoid c)
      end
  end.

(** [p->return_value(v)], likewise. *)
Definition call_return_value (v : V) (c : coroutine) : outcome * coroutine :=
  match return_value PH with
  | None => (Fatal, c)
  | Some rv =>
      match rv v (promise c) with
      | inl p => (Finalize, set_promise p (emit (EvReturnValue v) c))
      | inr e => (Raise e, emit (EvReturnValue v) c)
      end
  end.

(** [explicit_return(p, void_t)] and [explicit_return(p, T&& value)]: the
    operand after [z_COZ_DEVOID] is [void_t] ([None]) when the expression
    was of type [void], else its value. *)
Definition explicit_return (operand : option V) (c : coroutine)
  : outcome * coroutine :=
  match operand with
  | None => call_return_void c
  | Some v => call_return_value v c
  end.

(** [COZ_RETURN(...)]: [m_next = SENTINEL], then [z_COZ_RETURN0] for an
    empty operand and [z_COZ_RETURN1] otherwise, then
    [goto _coz_finalize]. *)
Definition coz_return (r : return_operand) (c : coroutine)
  : outcome * coroutine :=
  let c1 := set_next SENTINEL c in
  match r with
  | RetEmpty => call_return_void c1
  | RetVoid f =>
      match f (m_state c1) with
      | inl s => explicit_return None (set_state s c1)
      | inr e => (Raise e, c1)
      end
  | RetValue f => explicit_return (Some (f (m_state c1))) c1
  end.

(** [suspend(p, coro)]: a [void] [await_suspend] counts as [true]. *)
Definition suspend (a : A) (coro : coroutine) : bool :=
  match await_suspend AH a (m_next coro) with
  | SuspendVoid => true
  | SuspendBool b => b
  end.

(** [try_suspend(p, ctx, ip)]. *)
Definition try_suspend (a : A) (ip : Z) (c : coroutine) : bool * coroutine :=
  let c1 := emit EvAwaitReady c in
  if await_ready AH a then (false, c1)
  else
    let c2 := set_next ip c1 in
    (suspend a c2, emit EvAwaitSuspend c2).

(** The code at [case _coz_ip:] of an await: [f(auto_reset{p}->await_resume())];
    the [auto_reset] temporary destroys the occupant when the full
    expression ends, also when it ends by an exception. *)
Definition await_resume_at (f : R -> St -> St + E) (c : coroutine)
  : outcome * coroutine :=
  match m_mem_tmp c with
  | Some (TmpAwaiter a) =>
      let c1 := emit EvAwaitResume c in
      match await_resume AH a with
      | inr e => (Raise e, dtor_tmp c1)
      | inl r =>
          match f r (m_state c1) with
          | inl s => (Next, dtor_tmp (set_state s c1))
          | inr e => (Raise e, dtor_tmp c1)
          end
      end
  | _ => (Fatal, c)
  end.

(** [for (; c; )] around a body [step], at most [n] rounds. *)
Fixpoint while_loop (cond : St -> bool)
  (step : coroutine -> outcome * coroutine) (n : nat) (c : coroutine)
  : outcome * coroutine :=
  match n with
  | O => (OutOfFuel, c)
  | S n' =>
      let c1 := emit EvBody c in
      if cond (m_state c1) then
        match step c1 with
        | (Next, c2) => while_loop cond step n' c2
        | oc => oc
        end
      else (Next, c1)
  end.

Definition is_seeking (o : outcome) : bool :=
  match o with Seeking => true | _ => false end.

(** Execution of the expanded body.  [fuel] bounds the rounds of each loop. *)
Fixpoint exec (s : stmt) (fuel : nat) (m : mode) (c : coroutine)
  {struct s} : outcome * coroutine :=
  match s with
  | Skip =>
      match m with Run => (Next, c) | Seek _ _ => (Seeking, c) end
  | Do f =>
      match m with
      | Run =>
          let c1 := emit EvBody c in
          match f (m_state c1) with
          | inl s' => (Next, set_state s' c1)
          | inr e => (Raise e, c1)
          end
      | Seek _ _ => (Seeking, c)
      end
  | Seq s1 s2 =>
      match exec s1 fuel m c with
      | (Next, c1) => exec s2 fuel Run c1
      | (Seeking, c1) => exec s2 fuel m c1
      | oc => oc
      end
  | If cond s1 s2 =>
      match m with
      | Run =>
          let c1 := emit EvBody c in
          if cond (m_state c1) then exec s1 fuel Run c1
          else exec s2 fuel Run c1
      | Seek _ _ =>
          match exec s1 fuel m c with
          | (Seeking, c1) => exec s2 fuel m c1
          | oc => oc
          end
      end
  | While cond b =>
      match m with
      | Run => while_loop cond (exec b fuel Run) fuel c
      | Seek _ _ =>
          match exec b fuel m c with
          | (Next, c1) => while_loop cond (exec b fuel Run) fuel c1
          | oc => oc
          end
      end
  | COZ_YIELD ip eh _ expr =>
      match m with
      | Run =>
          let v := expr (m_state c) in
          let c1 := emit (EvYieldValue v) (ctor_tmp (TmpValue v) c) in
          match yield_value PH v (promise c1) with
          | inl p => (Suspend, set_next ip (set_promise p c1))
          | inr e => (Raise e, c1)
          end
      | Seek t _ =>
          if t =? ip then (Next, dtor_tmp c)
          else if t =? eh then (Finalize, dtor_tmp c)
          else (Seeking, c)
      end
  | COZ_YIELD_LITE ip eh expr =>
      match m with
      | Run =>
          let v := expr (m_state c) in
          let c1 := emit (EvYieldValue v) c in
          match yield_value PH v (promise c1) with
          | inl p => (Suspend, set_next ip (set_promise p c1))
          | inr e => (Raise e, c1)
          end
      | Seek t _ =>
          if t =? ip then (Next, c)
          else if t =? eh then (Finalize, c)
          else (Seeking, c)
      end
  | COZ_AWAIT_APPLY ip eh _ expr f =>
      match m with
      | Run =>
          let a := expr (m_state c) in
          match try_suspend a ip (ctor_tmp (TmpAwaiter a) c) with
          | (true, c1) => (Suspend, c1)
          | (false, c1) => await_resume_at f c1
          end
      | Seek t _ =>
          if t =? ip then await_resume_at f c
          else if t =? eh then (Finalize, dtor_tmp c)
          else (Seeking, c)
      end
  | COZ_RETURN r =>
      match m with
      | Run => coz_return r c
      | Seek _ _ => (Seeking, c)
      end
  | COZ_TRY curr_eh prev_eh b clauses =>
      match m with
      | Run => exec b fuel Run (set_eh curr_eh c)
      | Seek t ex =>
          match exec b fuel m c with
          | (Seeking, c1) =>
              if t =? curr_eh then
                match ex with
                | None => (Fatal, c1)
                | Some e =>
                    let c2 := set_eh prev_eh c1 in
                    match clauses e with
                    | None => (Raise e, c2)
                    | Some hd => exec hd fuel Run (emit (EvHandler curr_eh e) c2)
                    end
                end
              else (Seeking, c1)
          | oc => oc
          end
      end
  end.

(** [finalizer::~finalizer()]: destroy the state closure, then
    [m_promise->finalize()]. *)
Definition finalizer (c : coroutine) : coroutine :=
  emit EvFinalize
    (set_promise (finalize PH (promise c)) (emit EvDtorState c)).

(** [implicit_return(_coz_ctx)]: [return_void()] when the promise has it,
    else [assert(!"missing return statement")]. *)
Definition implicit_return (c : coroutine) : outcome * coroutine :=
  call_return_void c.

(** The tail of the [switch] written by [COZ_END], reached when the body
    runs off its end. *)
Definition coz_end (c : coroutine) : outcome * coroutine :=
  implicit_return (set_next SENTINEL c).

(** [switch (_coz_ctx->m_next) { case 0: ... }] including the label
    [_coz_finalize] at its end.  [case 0] is the top of the body; any other
    value is looked for among the labels the macros planted; with no
    matching label the [switch] is skipped. *)
Definition coz_dispatch (body : stmt) (fuel : nat) (ex : option E)
  (c : coroutine) : outcome * coroutine :=
  if m_next c =? 0 then exec body fuel Run c
  else exec body fuel (Seek (m_next c) ex) c.

Definition coz_switch (body : stmt) (fuel : nat) (ex : option E)
  (c : coroutine) : outcome * coroutine :=
  let oc := coz_dispatch body fuel ex c in
  match oc with
  | (Next, c1) =>
      match coz_end c1 with
      | (Finalize, c2) => (Finalize, finalizer c2)
      | oc' => oc'
      end
  | (Finalize, c1) => (Finalize, finalizer c1)
  | _ => oc
  end.

(** What a call into the coroutine gives its caller. *)
Inductive result :=
| Returned (c : coroutine)         (* the call returned *)
| Threw (e : E) (c : coroutine)    (* the call threw [e] *)
| Aborted                          (* assertion failure or undefined behaviour *)
| Diverged.                        (* the fuel ran out *)

(** The [catch (...)] clause written by [COZ_END], when no handler is
    registered: [finalizer fin{this, _coz_ctx}; unhandled_exception();].
    [fin] is destroyed when the scope is left, after the hook. *)
Definition coz_unhandled (e : E) (c : coroutine) : result :=
  let c1 := emit (EvUnhandled e) c in
  let (p, thrown) := unhandled_exception PH e (promise c1) in
  let c2 := finalizer (set_promise p c1) in
  match thrown with
  | None => Returned c2
  | Some e' => Threw e' c2
  end.

(** [_coz_state::operator()]: the [_coz_retry] loop.  [n] bounds the number
    of passes through [_coz_retry]. *)
Fixpoint coz_retry (body : stmt) (fuel : nat) (n : nat) (ex : option E)
  (c : coroutine) : result :=
  match n with
  | O => Diverged
  | S n' =>
      match coz_switch body fuel ex c with
      | (Raise e, c1) =>
          let c2 := set_next (m_eh c1) c1 in
          if negb (m_next c2 =? SENTINEL)
          then coz_retry body fuel n' (Some e) c2
          else coz_unhandled e c2
      | (Fatal, _) => Aborted
      | (OutOfFuel, _) => Diverged
      | (_, c1) => Returned c1
      end
  end.

(** [body::invoke(ctx)]. *)
Definition invoke (body : stmt) (fuel : nat) (c : coroutine) : result :=
  coz_retry body fuel fuel None c.

(** [coroutine(Init&& init)]: [coro_state] takes its default member
    initialisers, the promise is built from the initialiser.  The state
    closure is raw storage until [start]; [raw] is what it holds. *)
Definition coroutine_ctor (p : P) (raw : St) : coroutine :=
  mk_coroutine SENTINEL SENTINEL p raw None [].

(** [coroutine::done()] and [coroutine_handle<>::done()]. *)
Definition done (c : coroutine) : bool := m_next c =? SENTINEL.

(** The state [start] hands to the body once the constructor of the state
    closure has returned: [params] is the closure that
    [m_state.emplace(...)] built, and [m_next = 0]. *)
Definition start_entry (params : St) (c : coroutine) : coroutine :=
  set_next 0 (set_state params c).

(** [coroutine::start(Params&&)] from the point where the state closure
    stands built. *)
Definition start (body : stmt) (fuel : nat) (params : St) (c : coroutine)
  : result :=
  invoke body fuel (start_entry params c).

(** [coroutine::start(Params&&)] with the constructor of the state closure
    in it: [m_state.emplace(std::move(params))] comes first, outside the
    [try] block of the body.  When the constructor throws, [start] throws
    with nothing else done: [m_next] is not written, the body is not
    entered, no hook and no finalizer is called. *)
Definition start_emplace {Params : Type} (state_ctor : Params -> St + E)
  (body : stmt) (fuel : nat) (params : Params) (c : coroutine) : result :=
  match state_ctor params with
  | inl st => start body fuel st c
  | inr e => Threw e c
  end.

(** [coroutine::resume()]. *)
Definition resume (body : stmt) (fuel : nat) (c : coroutine) : result :=
  invoke body fuel c.

(** [coroutine::destroy()]: [assert(m_next != SENTINEL); ++m_next;] then
    the body. *)
Definition destroy (body : stmt) (fuel : nat) (c : coroutine) : result :=
  if m_next c =? SENTINEL then Aborted
  else invoke body fuel (set_next (unsigned_wrap (m_next c + 1)) c).

(** *** Shape of an expanded body *)

(** The [case] labels a statement holds, in source order.  The handlers
    after [COZ_CATCH] hold none: control may not be transferred into a
    handler. *)
Fixpoint labels (s : stmt) : list Z :=
  match s with
  | Skip | Do _ | COZ_RETURN _ => []
  | Seq s1 s2 | If _ s1 s2 => labels s1 ++ labels s2
  | While _ b => labels b
  | COZ_YIELD ip eh _ _ | COZ_YIELD_LITE ip eh _
  | COZ_AWAIT_APPLY ip eh _ _ _ => [ip; eh]
  | COZ_TRY curr_eh _ b _ => labels b ++ [curr_eh]
  end.

(** Kinds of suspension point, by what sits in the scratch frame. *)
Inductive susp_kind := KYield | KYieldLite | KAwait.

(** The suspension points of a statement: kind, resume ordinal, cleanup
    ordinal. *)
Fixpoint susp_points (s : stmt) : list (susp_kind * Z * Z) :=
  match s with
  | Skip | Do _ | COZ_RETURN _ => []
  | Seq s1 s2 | If _ s1 s2 => susp_points s1 ++ susp_points s2
  | While _ b => susp_points b
  | COZ_YIELD ip eh _ _ => [(KYield, ip, eh)]
  | COZ_YIELD_LITE ip eh _ => [(KYieldLite, ip, eh)]
  | COZ_AWAIT_APPLY ip eh _ _ _ => [(KAwait, ip, eh)]
  | COZ_TRY _ _ b _ => susp_points b
  end.

(** The ordinals of the guarded regions of a statement. *)
Fixpoint try_labels (s : stmt) : list Z :=
  match s with
  | Skip | Do _ | COZ_RETURN _ | COZ_YIELD _ _ _ _ | COZ_YIELD_LITE _ _ _
  | COZ_AWAIT_APPLY _ _ _ _ _ => []
  | Seq s1 s2 | If _ s1 s2 => try_labels s1 ++ try_labels s2
  | While _ b => try_labels b
  | COZ_TRY curr_eh _ b _ => try_labels b ++ [curr_eh]
  end.

(** The [update_size_align] instantiations of a body, in source order:
    one per [COZ_YIELD] and per await, none for [COZ_YIELD_LITE]. *)
Fixpoint registrations (s : stmt) : list Layout.size_align :=
  match s with
  | Skip | Do _ | COZ_RETURN _ | COZ_YIELD_LITE _ _ _ => []
  | Seq s1 s2 | If _ s1 s2 => registrations s1 ++ registrations s2
  | While _ b => registrations b
  | COZ_YIELD _ _ sa _ | COZ_AWAIT_APPLY _ _ sa _ _ => [sa]
  | COZ_TRY _ _ b _ => registrations b
  end.

(** The objects a body builds in the scratch frame: for every
    [COZ_YIELD] and every await, the resume ordinal of the point and
    [size_align_of] of the type it builds there.  [COZ_YIELD_LITE] builds
    none. *)
Fixpoint placements (s : stmt) : list (Z * Layout.size_align) :=
  match s with
  | Skip | Do _ | COZ_RETURN _ | COZ_YIELD_LITE _ _ _ => []
  | Seq s1 s2 | If _ s1 s2 => placements s1 ++ placements s2
  | While _ b => placements b
  | COZ_YIELD ip _ sa _ | COZ_AWAIT_APPLY ip _ sa _ _ => [(ip, sa)]
  | COZ_TRY _ _ b _ => placements b
  end.

(** The operands of the [COZ_RETURN] statements of a body, those in the
    handlers included. *)
Fixpoint returns_in (s : stmt) (r : return_operand) : Prop :=
  match s with
  | Skip | Do _ | COZ_YIELD _ _ _ _ | COZ_YIELD_LITE _ _ _
  | COZ_AWAIT_APPLY _ _ _ _ _ => False
  | Seq s1 s2 | If _ s1 s2 => returns_in s1 r \/ returns_in s2 r
  | While _ b => returns_in b r
  | COZ_RETURN r' => r' = r
  | COZ_TRY _ _ b clauses =>
      returns_in b r \/
      exists e, match clauses e with
                | Some hd => returns_in hd r
                | None => False
                end
  end.

(** The template argument of [body<..., State>] in [coroutine]:
    [decltype(std::declval<State>()(nullptr, nullptr))::value]. *)
Definition frame_layout (s : stmt) : option Layout.size_align :=
  Layout.frame_of (registrations s).

(** The guarded regions of a statement: handler ordinal, saved ordinal and
    the clauses after [COZ_CATCH]. *)
Fixpoint regions (s : stmt) : list (Z * Z * (E -> option stmt)) :=
  match s with
  | Skip | Do _ | COZ_RETURN _ | COZ_YIELD _ _ _ _ | COZ_YIELD_LITE _ _ _
  | COZ_AWAIT_APPLY _ _ _ _ _ => []
  | Seq s1 s2 | If _ s1 s2 => regions s1 ++ regions s2
  | While _ b => regions b
  | COZ_TRY curr_eh prev_eh b clauses =>
      regions b ++ [(curr_eh, prev_eh, clauses)]
  end.

(** What the cleanup label of a suspension point does before
    [goto _coz_finalize]. *)
Definition cleanup (k : susp_kind) (c : coroutine) : coroutine :=
  match k with
  | KYieldLite => c
  | KYield | KAwait => dtor_tmp c
  end.

(** Number of events of one sort in a trace. *)
Definition count_ev (f : event -> bool) (l : list event) : nat :=
  length (filter f l).

Definition is_finalize (ev : event) : bool :=
  match ev with EvFinalize => true | _ => false end.

Definition is_unhandled (ev : event) : bool :=
  match ev with EvUnhandled _ => true | _ => false end.

Definition is_body (ev : event) : bool :=
  match ev with EvBody => true | _ => false end.

Definition is_handler (ev : event) : bool :=
  match ev with EvHandler _ _ => true | _ => false end.

Definition is_await_ready (ev : event) : bool :=
  match ev with EvAwaitReady => true | _ => false end.

Definition is_await_suspend (ev : event) : bool :=
  match ev with EvAwaitSuspend => true | _ => false end.

Definition is_return_hook (ev : event) : bool :=
  match ev with EvReturnVoid | EvReturnValue _ => true | _ => false end.

Definition is_next (o : outcome) : bool :=
  match o with Next => true | _ => false end.

(** The trace of [c'] continues the trace of [c]. *)
Definition extends (c c' : coroutine) : Prop :=
  exists evs, trace c' = trace c ++ evs.

(** The handler ordinals [m_eh] can hold while a body runs. *)
Definition valid_eh (body : stmt) (h : Z) : Prop :=
  h = SENTINEL \/ In h (try_labels body).

(** No loop, in the body or in a handler. *)
Fixpoint loop_free (s : stmt) : Prop :=
  match s with
  | While _ _ => False
  | Seq s1 s2 | If _ s1 s2 => loop_free s1 /\ loop_free s2
  | COZ_TRY _ _ b clauses =>
      loop_free b /\
      forall e, match clauses e with Some hd => loop_free hd | None => True end
  | _ => True
  end.

Definition is_suspend (o : outcome) : bool :=
  match o with Suspend => true | _ => false end.

(** Two instances agree on everything but the resume ordinal and the
    trace. *)
Definition same_frame (c1 c2 : coroutine) : Prop :=
  m_eh c1 = m_eh c2 /\ promise c1 = promise c2 /\
  m_state c1 = m_state c2 /\ m_mem_tmp c1 = m_mem_tmp c2.

(** Code that may stand in a handler: no COZ macro that plants a label. *)
Fixpoint plain (s : stmt) : Prop :=
  match s with
  | Skip | Do _ | COZ_RETURN _ => True
  | Seq s1 s2 | If _ s1 s2 => plain s1 /\ plain s2
  | While _ b => plain b
  | _ => False
  end.

(** Value of [__COUNTER__ - _coz_start] after the statement, when it was
    [n] before it. *)
Fixpoint counter_after (s : stmt) (n : Z) : Z :=
  match s with
  | Skip | Do _ | COZ_RETURN _ => n
  | Seq s1 s2 | If _ s1 s2 => counter_after s2 (counter_after s1 n)
  | While _ b => counter_after b n
  | COZ_YIELD _ _ _ _ | COZ_YIELD_LITE _ _ _ | COZ_AWAIT_APPLY _ _ _ _ _ =>
      n + 2
  | COZ_TRY _ _ b _ => counter_after b (n + 1)
  end.

(** The ordinals in [s] are the ones the preprocessor hands out when the
    next [z_COZ_NEW_IP] is [n] and the enclosing [_coz_curr_eh] is [cur]:
    a suspension point draws its resume ordinal and then its cleanup
    ordinal; [COZ_TRY] draws its handler ordinal and keeps the enclosing one
    as [_coz_prev_eh]. *)
Fixpoint numbered (s : stmt) (n cur : Z) : Prop :=
  match s with
  | Skip | Do _ | COZ_RETURN _ => True
  | Seq s1 s2 | If _ s1 s2 =>
      numbered s1 n cur /\ numbered s2 (counter_after s1 n) cur
  | While _ b => numbered b n cur
  | COZ_YIELD ip eh _ _ | COZ_YIELD_LITE ip eh _
  | COZ_AWAIT_APPLY ip eh _ _ _ => ip = n /\ eh = n + 1
  | COZ_TRY curr_eh prev_eh b clauses =>
      curr_eh = n /\ prev_eh = cur /\ numbered b (n + 1) curr_eh /\
      forall e hd, clauses e = Some hd -> plain hd
  end.

(** A body as [COZ_BEG] ... [COZ_END] produce it: the first ordinal drawn
    is 1, the outermost [_coz_curr_eh] is [SENTINEL], and the ordinals stay
    below the sentinel. *)
Definition coz_body (s : stmt) : Prop :=
  numbered s 1 SENTINEL /\ counter_after s 1 <= SENTINEL.

(** What every way out of a body without suspension points satisfies:
    it is not a suspension, [_coz_finalize] is reached with the resume
    ordinal already at the sentinel, and [m_eh] is an ordinal of [H]. *)
Definition completes (H : Z -> Prop) (o : outcome) (c : coroutine) : Prop :=
  is_suspend o = false /\ (o = Finalize -> m_next c = SENTINEL) /\ H (m_eh c).

(** *** Observations on traces and states *)

(** The events of the way out: the finalizer and the unhandled-exception
    hook. *)
Definition is_exit (ev : event) : bool :=
  match ev with
  | EvDtorState | EvFinalize | EvUnhandled _ => true
  | _ => false
  end.

(** [c'] continues [c] by events of the body only. *)
Definition quietly (c c' : coroutine) : Prop :=
  exists evs, trace c' = trace c ++ evs /\ count_ev is_exit evs = 0%nat.

(** The events end with the finalizer, which ran once. *)
Definition finalized_last (evs : list event) : Prop :=
  exists pre, evs = pre ++ [EvDtorState; EvFinalize] /\
              count_ev is_finalize pre = 0%nat.

(** What a call that came back added to the trace of [c]: nothing of the
    way out, or events that end with the one run of the finalizer, with
    [unhandled_exception] called at most once before it; a call that threw
    went through [unhandled_exception]. *)
Definition exits_once (c : coroutine) (r : result) : Prop :=
  match r with
  | Returned c' =>
      exists evs, trace c' = trace c ++ evs /\
        (count_ev is_exit evs = 0%nat \/
         (finalized_last evs /\ (count_ev is_unhandled evs <= 1)%nat))
  | Threw _ c' =>
      exists evs, trace c' = trace c ++ evs /\
        finalized_last evs /\ count_ev is_unhandled evs = 1%nat
  | _ => True
  end.

(** The scratch frame holds what a suspension point of kind [k] leaves in
    it. *)
Definition occupant_of (k : susp_kind) (t : option tmp) : Prop :=
  match k, t with
  | KYieldLite, _ => True
  | KYield, Some (TmpValue _) => True
  | KAwait, Some (TmpAwaiter _) => True
  | _, _ => False
  end.

(** The coroutine waits at a suspension point of [body]. *)
Definition suspended_at (body : stmt) (c : coroutine) : Prop :=
  exists k ip eh,
    In (k, ip, eh) (susp_points body) /\ m_next c = ip /\
    occupant_of k (m_mem_tmp c).

(** Between calls: done, or waiting at a suspension point; the handler
    ordinal names a region of the body or is the sentinel. *)
Definition quiescent (body : stmt) (c : coroutine) : Prop :=
  valid_eh body (m_eh c) /\ (m_next c = SENTINEL \/ suspended_at body c).

(** The cleanup ordinals of a statement. *)
Definition cleanup_labels (s : stmt) : list Z := map snd (susp_points s).

(** The call came back to its caller, by returning or by throwing. *)
Definition comes_back (r : result) (c : coroutine) : Prop :=
  r = Returned c \/ exists e, r = Threw e c.

(** The states an instance goes through when it is started once and then
    resumed any number of times, while whoever completes an awaited
    operation may write into the awaiter that sits in the scratch frame. *)
Inductive reachable (body : stmt) : coroutine -> Prop :=
| reach_start (fuel : nat) (params : St) (p : P) (raw : St) (c : coroutine) :
    comes_back (start body fuel params (coroutine_ctor p raw)) c ->
    reachable body c
| reach_resume (fuel : nat) (c c' : coroutine) :
    reachable body c -> comes_back (resume body fuel c) c' ->
    reachable body c'
| reach_completion (c : coroutine) (a a' : A) :
    reachable body c -> m_mem_tmp c = Some (TmpAwaiter a) ->
    reachable body (set_tmp (Some (TmpAwaiter a')) c).

(** The states an instance goes through from its construction on: it is
    started, and started again once it is done ([start] builds the state
    closure anew); it is resumed any number of times; whoever completes an
    awaited operation may write into the awaiter in the scratch frame.
    The number counts the calls of [start] that entered the body, that is,
    those whose constructor of the state closure returned. *)
Inductive lifetime {Params : Type} (state_ctor : Params -> St + E)
  (body : stmt) : nat -> coroutine -> Prop :=
| life_ctor (p : P) (raw : St) :
    lifetime state_ctor body 0 (coroutine_ctor p raw)
| life_start (fuel : nat) (params : Params) (st : St) (n : nat)
    (c c' : coroutine) :
    lifetime state_ctor body n c -> done c = true ->
    state_ctor params = inl st ->
    comes_back (start_emplace state_ctor body fuel params c) c' ->
    lifetime state_ctor body (S n) c'
| life_start_threw (fuel : nat) (params : Params) (e : E) (n : nat)
    (c c' : coroutine) :
    lifetime state_ctor body n c -> done c = true ->
    state_ctor params = inr e ->
    comes_back (start_emplace state_ctor body fuel params c) c' ->
    lifetime state_ctor body n c'
| life_resume (fuel : nat) (n : nat) (c c' : coroutine) :
    lifetime state_ctor body n c -> comes_back (resume body fuel c) c' ->
    lifetime state_ctor body n c'
| life_completion (n : nat) (c : coroutine) (a a' : A) :
    lifetime state_ctor body n c -> m_mem_tmp c = Some (TmpAwaiter a) ->
    lifetime state_ctor body n (set_tmp (Some (TmpAwaiter a')) c).

(** How a call that left the instance done reached the finalizer, told by
    the last hook it called: [return_value] with the value of the operand
    of a [COZ_RETURN] of the body, [return_void], or
    [unhandled_exception]; the promise is what that hook left,
    finalized. *)
Definition completed_by (body : stmt) (last : event) (c' : coroutine)
  : Prop :=
  match last with
  | EvReturnValue v =>
      exists fv rv p q,
        returns_in body (RetValue fv) /\ v = fv (m_state c') /\
        return_value PH = Some rv /\ rv v p = inl q /\
        promise c' = finalize PH q
  | EvReturnVoid =>
      exists rv p q,
        return_void PH = Some rv /\ rv p = inl q /\
        promise c' = finalize PH q
  | EvUnhandled e =>
      exists p, promise c' = finalize PH (fst (unhandled_exception PH e p))
  | _ => False
  end.

(** How a call may enter the body: at its top, at the resume ordinal of a
    suspension point, or (after an error) at a handler. *)
Definition entry_ok (body : stmt) (c : coroutine) : Prop :=
  m_next c = 0 \/
  (exists k eh, In (k, m_next c, eh) (susp_points body)) \/
  In (m_next c) (try_labels body).

(** *** The scratch frame over time *)

Definition is_ctor_tmp (ev : event) : bool :=
  match ev with EvCtorTmp => true | _ => false end.

Definition is_dtor_tmp (ev : event) : bool :=
  match ev with EvDtorTmp => true | _ => false end.

(** Number of objects alive in the scratch frame. *)
Definition live (c : coroutine) : nat :=
  match m_mem_tmp c with Some _ => 1 | None => 0 end.

(** Every temporary built in the scratch frame so far has been destroyed
    once, but for the one alive in it. *)
Definition balanced (c : coroutine) : Prop :=
  count_ev is_ctor_tmp (trace c)
  = (count_ev is_dtor_tmp (trace c) + live c)%nat.

(** What a suspension point of each kind leaves in the scratch frame. *)
Definition occupied (k : susp_kind) (c : coroutine) : Prop :=
  match k with
  | KYieldLite => m_mem_tmp c = None
  | KYield | KAwait => m_mem_tmp c <> None
  end.

(** [yield_value] of the promise does not throw. *)
Definition yield_value_returns : Prop :=
  forall v p, exists p', yield_value PH v p = inl p'.

(** The scratch frame where a statement is entered ... *)
Definition tmp_before (s : stmt) (m : mode) (c : coroutine) : Prop :=
  match m with
  | Run => m_mem_tmp c = None
  | Seek t _ =>
      ~ In t (cleanup_labels s) /\
      (In t (try_labels s) -> m_mem_tmp c = None) /\
      (forall k ip eh, In (k, ip, eh) (susp_points s) -> t = ip ->
                       occupied k c)
  end.

(** ... and where it is left. *)
Definition tmp_after (s : stmt) (c : coroutine) (o : outcome)
  (c' : coroutine) : Prop :=
  match o with
  | Suspend =>
      exists k ip eh,
        In (k, ip, eh) (susp_points s) /\ m_next c' = ip /\ occupied k c'
  | Seeking => c' = c
  | Fatal | OutOfFuel => True
  | Next | Finalize | Raise _ => m_mem_tmp c' = None
  end.

(** The scratch frame between calls. *)
Definition tmp_at_rest (body : stmt) (c : coroutine) : Prop :=
  balanced c /\
  ((m_next c = SENTINEL /\ m_mem_tmp c = None) \/
   exists k ip eh,
     In (k, ip, eh) (susp_points body) /\ m_next c = ip /\ occupied k c).

(** The scratch frame where a call enters the body: empty at the top and
    at a handler, occupied as the suspension point left it at a resume
    ordinal. *)
Definition tmp_entry (body : stmt) (c : coroutine) : Prop :=
  (m_next c = 0 /\ m_mem_tmp c = None) \/
  (exists k eh, In (k, m_next c, eh) (susp_points body) /\ occupied k c) \/
  (In (m_next c) (try_labels body) /\ m_mem_tmp c = None).

(** What a call added to the trace of [c], and where it left the
    coroutine: suspended with nothing of the way out run, or done with the
    finalizer run once. *)
Definition settled (body : stmt) (c c' : coroutine) : Prop :=
  valid_eh body (m_eh c') /\
  exists evs,
    trace c' = trace c ++ evs /\
    ((suspended_at body c' /\ count_ev is_exit evs = 0%nat) \/
     (m_next c' = SENTINEL /\ count_ev is_finalize evs = 1%nat)).

(** The values handed to [yield_value] so far, in order. *)
Definition yielded (ev : event) : list V :=
  match ev with EvYieldValue v => [v] | _ => [] end.

Definition yields_of (tr : list event) : list V := flat_map yielded tr.

(** *** The body with its suspension points falling through *)

(** The expanded body read without [goto _coz_suspend]: a suspension
    point stores its resume ordinal and control goes on at [case _coz_ip:]
    at once, in the same call.  Everything else is as in [exec]. *)
Fixpoint seq_exec (s : stmt) (fuel : nat) (m : mode) (c : coroutine)
  {struct s} : outcome * coroutine :=
  match s with
  | Skip =>
      match m with Run => (Next, c) | Seek _ _ => (Seeking, c) end
  | Do f =>
      match m with
      | Run =>
          let c1 := emit EvBody c in
          match f (m_state c1) with
          | inl s' => (Next, set_state s' c1)
          | inr e => (Raise e, c1)
          end
      | Seek _ _ => (Seeking, c)
      end
  | Seq s1 s2 =>
      match seq_exec s1 fuel m c with
      | (Next, c1) => seq_exec s2 fuel Run c1
      | (Seeking, c1) => seq_exec s2 fuel m c1
      | oc => oc
      end
  | If cond s1 s2 =>
      match m with
      | Run =>
          let c1 := emit EvBody c in
          if cond (m_state c1) then seq_exec s1 fuel Run c1
          else seq_exec s2 fuel Run c1
      | Seek _ _ =>
          match seq_exec s1 fuel m c with
          | (Seeking, c1) => seq_exec s2 fuel m c1
          | oc => oc
          end
      end
  | While cond b =>
      match m with
      | Run => while_loop cond (seq_exec b fuel Run) fuel c
      | Seek _ _ =>
          match seq_exec b fuel m c with
          | (Next, c1) => while_loop cond (seq_exec b fuel Run) fuel c1
          | oc => oc
          end
      end
  | COZ_YIELD ip eh _ expr =>
      match m with
      | Run =>
          let v := expr (m_state c) in
          let c1 := emit (EvYieldValue v) (ctor_tmp (TmpValue v) c) in
          match yield_value PH v (promise c1) with
          | inl p => (Next, dtor_tmp (set_next ip (set_promise p c1)))
          | inr e => (Raise e, c1)
          end
      | Seek t _ =>
          if t =? ip then (Next, dtor_tmp c)
          else if t =? eh then (Finalize, dtor_tmp c)
          else (Seeking, c)
      end
  | COZ_YIELD_LITE ip eh expr =>
      match m with
      | Run =>
          let v := expr (m_state c) in
          let c1 := emit (EvYieldValue v) c in
          match yield_value PH v (promise c1) with
          | inl p => (Next, set_next ip (set_promise p c1))
          | inr e => (Raise e, c1)
          end
      | Seek t _ =>
          if t =? ip then (Next, c)
          else if t =? eh then (Finalize, c)
          else (Seeking, c)
      end
  | COZ_AWAIT_APPLY ip eh _ expr f =>
      match m with
      | Run =>
          let a := expr (m_state c) in
          await_resume_at f (snd (try_suspend a ip (ctor_tmp (TmpAwaiter a) c)))
      | Seek t _ =>
          if t =? ip then await_resume_at f c
          else if t =? eh then (Finalize, dtor_tmp c)
          else (Seeking, c)
      end
  | COZ_RETURN r =>
      match m with
      | Run => coz_return r c
      | Seek _ _ => (Seeking, c)
      end
  | COZ_TRY curr_eh prev_eh b clauses =>
      match m with
      | Run => seq_exec b fuel Run (set_eh curr_eh c)
      | Seek t ex =>
          match seq_exec b fuel m c with
          | (Seeking, c1) =>
              if t =? curr_eh then
                match ex with
                | None => (Fatal, c1)
                | Some e =>
                    let c2 := set_eh prev_eh c1 in
                    match clauses e with
                    | None => (Raise e, c2)
                    | Some hd =>
                        seq_exec hd fuel Run (emit (EvHandler curr_eh e) c2)
                    end
                end
              else (Seeking, c1)
          | oc => oc
          end
      end
  end.

(** The [switch], the [_coz_retry] loop and an invocation over
    [seq_exec]. *)
Definition seq_dispatch (body : stmt) (fuel : nat) (ex : option E)
  (c : coroutine) : outcome * coroutine :=
  if m_next c =? 0 then seq_exec body fuel Run c
  else seq_exec body fuel (Seek (m_next c) ex) c.

Definition seq_switch (body : stmt) (fuel : nat) (ex : option E)
  (c : coroutine) : outcome * coroutine :=
  let oc := seq_dispatch body fuel ex c in
  match oc with
  | (Next, c1) =>
      match coz_end c1 with
      | (Finalize, c2) => (Finalize, finalizer c2)
      | oc' => oc'
      end
  | (Finalize, c1) => (Finalize, finalizer c1)
  | _ => oc
  end.

Fixpoint seq_retry (body : stmt) (fuel : nat) (n : nat) (ex : option E)
  (c : coroutine) : result :=
  match n with
  | O => Diverged
  | S n' =>
      match seq_switch body fuel ex c with
      | (Raise e, c1) =>
          let c2 := set_next (m_eh c1) c1 in
          if negb (m_next c2 =? SENTINEL)
          then seq_retry body fuel n' (Some e) c2
          else coz_unhandled e c2
      | (Fatal, _) => Aborted
      | (OutOfFuel, _) => Diverged
      | (_, c1) => Returned c1
      end
  end.

(** A caller that resumes the coroutine until it is done, at most [k]
    times, starting from what the first call gave. *)
Fixpoint complete (body : stmt) (fuel : nat) (k : nat) (r : result)
  : result :=
  match r with
  | Returned c =>
      if done c then r
      else
        match k with
        | O => Diverged
        | S k' => complete body fuel k' (resume body fuel c)
        end
  | _ => r
  end.

(** The call ended at a suspension point. *)
Definition suspended (r : result) : bool :=
  match r with
  | Returned c => negb (done c)
  | _ => false
  end.

(** Induction over a statement that also reaches into the handlers. *)
Section StmtInduction.

Variable Q : stmt -> Prop.
Hypothesis HSkip : Q Skip.
Hypothesis HDo : forall f, Q (Do f).
Hypothesis HSeq : forall s1 s2, Q s1 -> Q s2 -> Q (Seq s1 s2).
Hypothesis HIf : forall c s1 s2, Q s1 -> Q s2 -> Q (If c s1 s2).
Hypothesis HWhile : forall c b, Q b -> Q (While c b).
Hypothesis HYield : forall ip eh sa expr, Q (COZ_YIELD ip eh sa expr).
Hypothesis HLite : forall ip eh expr, Q (COZ_YIELD_LITE ip eh expr).
Hypothesis HAwait : forall ip eh sa expr f, Q (COZ_AWAIT_APPLY ip eh sa expr f).
Hypothesis HReturn : forall r, Q (COZ_RETURN r).
Hypothesis HTry : forall h p b cl,
  Q b -> (forall e hd, cl e = Some hd -> Q hd) -> Q (COZ_TRY h p b cl).

Fixpoint stmt_induction (s : stmt) : Q s :=
  match s with
  | Skip => HSkip
  | Do f => HDo f
  | Seq s1 s2 => HSeq s1 s2 (stmt_induction s1) (stmt_induction s2)
  | If c s1 s2 => HIf c s1 s2 (stmt_induction s1) (stmt_induction s2)
  | While c b => HWhile c b (stmt_induction b)
  | COZ_YIELD ip eh sa expr => HYield ip eh sa expr
  | COZ_YIELD_LITE ip eh expr => HLite ip eh expr
  | COZ_AWAIT_APPLY ip eh sa expr f => HAwait ip eh sa expr f
  | COZ_RETURN r => HReturn r
  | COZ_TRY h p b cl =>
      HTry h p b cl (stmt_induction b)
        (fun e =>
           match cl e as o return (forall hd, o = Some hd -> Q hd) with
           | Some hd' => fun hd H =>
               match H in (_ = y)
                     return (match y with Some z => Q z | None => True end)
               with eq_refl => stmt_induction hd' end
           | None => fun hd H =>
               match H in (_ = y)
                     return (match y with Some z => Q z | None => True end)
               with eq_refl => I end
           end)
  end.

End StmtInduction.

End Engine.

Arguments Build_promise_hooks {P V E}.
Arguments finalize {P V E}.
Arguments yield_value {P V E}.
Arguments return_void {P V E}.
Arguments return_value {P V E}.
Arguments unhandled_exception {P V E}.
Arguments Build_awaiter_hooks {E A R}.
Arguments await_ready {E A R}.
Arguments await_suspend {E A R}.
Arguments await_resume {E A R}.
Arguments EvBody {V E}.
Arguments EvCtorTmp {V E}.
Arguments EvDtorTmp {V E}.
Arguments EvAwaitReady {V E}.
Arguments EvAwaitSuspend {V E}.
Arguments EvAwaitResume {V E}.
Arguments EvYieldValue {V E}.
Arguments EvReturnVoid {V E}.
Arguments EvReturnValue {V E}.
Arguments EvHandler {V E}.
Arguments EvDtorState {V E}.
Arguments EvFinalize {V E}.
Arguments EvUnhandled {V E}.
Arguments TmpValue {V A}.
Arguments TmpAwaiter {V A}.
Arguments mk_coroutine {St P V E A}.
Arguments m_next {St P V E A}.
Arguments m_eh {St P V E A}.
Arguments promise {St P V E A}.
Arguments m_state {St P V E A}.
Arguments m_mem_tmp {St P V E A}.
Arguments trace {St P V E A}.
Arguments set_next {St P V E A}.
Arguments set_eh {St P V E A}.
Arguments set_promise {St P V E A}.
Arguments set_state {St P V E A}.
Arguments set_tmp {St P V E A}.
Arguments emit {St P V E A}.
Arguments ctor_tmp {St P V E A}.
Arguments dtor_tmp {St P V E A}.
Arguments RetEmpty {St V E}.
Arguments RetVoid {St V E}.
Arguments RetValue {St V E}.
Arguments Skip {St V E A R}.
Arguments Do {St V E A R}.
Arguments Seq {St V E A R}.
Arguments If {St V E A R}.
Arguments While {St V E A R}.
Arguments COZ_YIELD {St V E A R}.
Arguments COZ_YIELD_LITE {St V E A R}.
Arguments COZ_AWAIT_APPLY {St V E A R}.
Arguments COZ_RETURN {St V E A R}.
Arguments COZ_TRY {St V E A R}.
Arguments Next {E}.
Arguments Seeking {E}.
Arguments Suspend {E}.
Arguments Finalize {E}.
Arguments Raise {E}.
Arguments Fatal {E}.
Arguments OutOfFuel {E}.
Arguments Run {E}.
Arguments Seek {E}.
Arguments call_return_void {St P V E A}.
Arguments call_return_value {St P V E A}.
Arguments explicit_return {St P V E A}.
Arguments coz_return {St P V E A}.
Arguments suspend {St P V E A R}.
Arguments try_suspend {St P V E A R}.
Arguments await_resume_at {St P V E A R}.
Arguments while_loop {St P V E A}.
Arguments is_seeking {E}.
Arguments exec {St P V E A R}.
Arguments finalizer {St P V E A}.
Arguments implicit_return {St P V E A}.
Arguments coz_end {St P V E A}.
Arguments coz_dispatch {St P V E A R}.
Arguments coz_switch {St P V E A R}.
Arguments regions {St V E A R}.
Arguments cleanup {St P V E A}.
Arguments count_ev {V E}.
Arguments is_finalize {V E}.
Arguments is_unhandled {V E}.
Arguments is_body {V E}.
Arguments is_handler {V E}.
Arguments is_await_ready {V E}.
Arguments is_await_suspend {V E}.
Arguments is_return_hook {V E}.
Arguments is_suspend {E}.
Arguments valid_eh {St V E A R}.
Arguments loop_free {St V E A R}.
Arguments is_next {E}.
Arguments extends {St P V E A}.
Arguments same_frame {St P V E A}.
Arguments Returned {St P V E A}.
Arguments Threw {St P V E A}.
Arguments Aborted {St P V E A}.
Arguments Diverged {St P V E A}.
Arguments coz_unhandled {St P V E A}.
Arguments coz_retry {St P V E A R}.
Arguments invoke {St P V E A R}.
Arguments coroutine_ctor {St P V E A}.
Arguments done {St P V E A}.
Arguments start_entry {St P V E A}.
Arguments start {St P V E A R}.
Arguments resume {St P V E A R}.
Arguments destroy {St P V E A R}.
Arguments labels {St V E A R}.
Arguments susp_points {St V E A R}.
Arguments try_labels {St V E A R}.
Arguments registrations {St V E A R}.
Arguments frame_layout {St V E A R}.
Arguments plain {St V E A R}.
Arguments counter_after {St V E A R}.
Arguments numbered {St V E A R}.
Arguments coz_body {St V E A R}.
Arguments completes {St P V E A}.
Arguments stmt_induction {St V E A R}.
Arguments entry_ok {St P V E A R}.
Arguments start_emplace {St P V E A R} PH AH {Params}.
Arguments placements {St V E A R}.
Arguments returns_in {St V E A R}.
Arguments lifetime {St P V E A R} PH AH {Params}.
Arguments life_ctor {St P V E A R} PH AH {Params}.
Arguments life_start {St P V E A R} PH AH {Params}.
Arguments life_start_threw {St P V E A R} PH AH {Params}.
Arguments life_resume {St P V E A R} PH AH {Params}.
Arguments life_completion {St P V E A R} PH AH {Params}.
Arguments completed_by {St P V E A R}.
Arguments is_ctor_tmp {V E}.
Arguments is_dtor_tmp {V E}.
Arguments live {St P V E A}.
Arguments balanced {St P V E A}.
Arguments occupied {St P V E A}.
Arguments yield_value_returns {P V E}.
Arguments tmp_before {St P V E A R}.
Arguments tmp_after {St P V E A R}.
Arguments tmp_at_rest {St P V E A R}.
Arguments tmp_entry {St P V E A R}.
Arguments settled {St P V E A R}.
Arguments yielded {V E}.
Arguments yields_of {V E}.
Arguments seq_exec {St P V E A R}.
Arguments seq_dispatch {St P V E A R}.
Arguments seq_switch {St P V E A R}.
Arguments seq_retry {St P V E A R}.
Arguments complete {St P V E A R}.
Arguments suspended {St P V E A}.
Arguments is_exit {V E}.
Arguments quietly {St P V E A}.
Arguments finalized_last {V E}.
Arguments exits_once {St P V E A}.
Arguments occupant_of {V A}.
Arguments suspended_at {St P V E A R}.
Arguments quiescent {St P V E A R}.
Arguments cleanup_labels {St V E A R}.
Arguments comes_back {St P V E A}.
Arguments reachable {St P V E A R}.

(** ** The generator example *)

Module Generator.

(** [int]. *)
Definition INT_MIN : Z := - 2 ^ 31.
Definition INT_MAX : Z := 2 ^ 31 - 1.

(** Two's-complement value of an [int] computation. *)
Definition int_wrap (z : Z) : Z := (z + 2 ^ 31) mod 2 ^ 32 - 2 ^ 31.

(** [_coz_params] of [range]: the captured arguments [(i, e)]. *)
Record params := mk_params { i : Z; e : Z }.

(** [promise_type]: [std::optional<T> m_data], at [T = int]. *)
Record promise_type := mk_promise { m_data : option Z }.

(** An exception in flight; nothing in this example looks inside it. *)
Definition exn : Type := unit.

(** [range] awaits nothing. *)
Definition no_awaiter : Type := Empty_set.

Definition no_awaiters : awaiter_hooks exn no_awaiter unit :=
  Build_awaiter_hooks
    (fun a : Empty_set => match a with end)
    (fun (a : Empty_set) _ => match a with end)
    (fun a : Empty_set => match a with end).

(** The hooks shared by both revisions of the promise:
    [yield_value(u) { m_data.emplace(u); }], [return_void() {}],
    [unhandled_exception() { throw; }]. *)
Definition generator_hooks (fin : promise_type -> promise_type)
  : promise_hooks promise_type Z exn :=
  Build_promise_hooks fin
    (fun u _ => inl (mk_promise (Some u)))
    (Some (fun p => inl p))
    None
    (fun ex p => (p, Some ex)).

(** [generator_t<T>::promise_type] of [example/generator.hpp]:
    [finalize() {}]. *)
Definition promise_type_hooks : promise_hooks promise_type Z exn :=
  generator_hooks (fun p => p).

(** [generator_promise<T>] of the other revision of the header:
    [finalize() { m_data.reset(); }]. *)
Definition generator_promise_hooks : promise_hooks promise_type Z exn :=
  generator_hooks (fun _ => mk_promise None).

(** [size_align_of<lvref_wrapper<int>>]: [COZ_YIELD(i)] on an lvalue keeps
    a pointer in the scratch frame (LP64). *)
Definition lvref_int : Layout.size_align := Layout.mk_size_align 8 8.

(** [[
auto range(int i, int e) COZ_BEG(demo::generator<int>, (i, e)) {
    for (; i != e; ++i) {
        COZ_YIELD(i);
    }
}
COZ_END
]]
    The loop body has no [continue], so [++i] follows it in sequence. *)
Definition range : stmt params Z exn no_awaiter unit :=
  While (fun st => negb (i st =? e st))
    (Seq (COZ_YIELD 1 2 lvref_int (fun st => i st))
         (Do (fun st => inl (mk_params (int_wrap (i st + 1)) (e st))))).

Definition coro : Type := coroutine params promise_type Z exn no_awaiter.

(** The coroutine is suspended at its [COZ_YIELD] with [i] as the value
    on offer. *)
Definition at_yield (i e : Z) (c : coro) : Prop :=
  m_next c = 1 /\ m_state c = mk_params i e /\ m_data (promise c) = Some i.

(** [generator_impl(Params&&)] of [example/generator.hpp]: build the
    coroutine and start it. *)
Definition generator_impl_ctor (fuel : nat) (ps raw : params)
  : result params promise_type Z exn no_awaiter :=
  start promise_type_hooks no_awaiters range fuel ps
        (coroutine_ctor (mk_promise None) raw).

(** [generator_impl::begin()] of the other revision: the constructor only
    stores the parameters, and [begin] starts or resumes. *)
Definition generator_impl_begin (fuel : nat) (m_params : params) (m_coro : coro)
  : result params promise_type Z exn no_awaiter :=
  if done m_coro
  then start generator_promise_hooks no_awaiters range fuel m_params m_coro
  else resume generator_promise_hooks no_awaiters range fuel m_coro.

(** [for (const auto i : g) out << i;] over the iterator:
    [it == end] is [done()], [*it] is [*promise().m_data], [++it] is
    [resume()].  At most [n] rounds. *)
Fixpoint range_for (PH : promise_hooks promise_type Z exn) (n fuel : nat)
  (m_coro : coro) (out : list Z) : option (list Z * coro) :=
  match n with
  | O => None
  | S n' =>
      if done m_coro then Some (out, m_coro)
      else
        match m_data (promise m_coro) with
        | None => None
        | Some v =>
            match resume PH no_awaiters range fuel m_coro with
            | Returned c' => range_for PH n' fuel c' (out ++ [v])
            | _ => None
            end
        end
  end.

(** [for (const auto i : range(i, e))] with [example/generator.hpp]. *)
Definition consume (n fuel : nat) (ps raw : params)
  : option (list Z * coro) :=
  match generator_impl_ctor fuel ps raw with
  | Returned c => range_for promise_type_hooks n fuel c []
  | _ => None
  end.

(** The same loop with the other revision of the header. *)
Definition consume_lazy (n fuel : nat) (ps raw : params)
  : option (list Z * coro) :=
  match generator_impl_begin fuel ps (coroutine_ctor (mk_promise None) raw)
  with
  | Returned c => range_for generator_promise_hooks n fuel c []
  | _ => None
  end.

(** The state after the constructor and [k] calls of [resume()]. *)
Fixpoint after_resumes (fuel : nat) (ps raw : params) (k : nat)
  : option coro :=
  match k with
  | O =>
      match generator_impl_ctor fuel ps raw with
      | Returned c => Some c
      | _ => None
      end
  | S k' =>
      match after_resumes fuel ps raw k' with
      | Some c =>
          match resume promise_type_hooks no_awaiters range fuel c with
          | Returned c' => Some c'
          | _ => None
          end
      | None => None
      end
  end.

(** The reference: the same loop run sequentially, collecting [i] where the
    coroutine yields it. *)
Fixpoint range_loop (n : nat) (i e : Z) (out : list Z) : option (list Z) :=
  match n with
  | O => None
  | S n' =>
      if negb (i =? e) then range_loop n' (int_wrap (i + 1)) e (out ++ [i])
      else Some out
  end.

(** The integers [i], [i + 1], ..., [i + len - 1]. *)
Definition iota (i : Z) (len : nat) : list Z :=
  map (fun k => i + Z.of_nat k) (seq 0 len).

(** The loop over the iterator for a generator with any body. *)
Fixpoint iterate {St : Type} (PH : promise_hooks promise_type Z exn)
  (body : stmt St Z exn no_awaiter unit) (n fuel : nat)
  (m_coro : coroutine St promise_type Z exn no_awaiter) (out : list Z)
  : option (list Z * coroutine St promise_type Z exn no_awaiter) :=
  match n with
  | O => None
  | S n' =>
      if done m_coro then Some (out, m_coro)
      else
        match m_data (promise m_coro) with
        | None => None
        | Some v =>
            match resume PH no_awaiters body fuel m_coro with
            | Returned c' => iterate PH body n' fuel c' (out ++ [v])
            | _ => None
            end
        end
  end.

(** [~generator_impl()]: [if (!m_coro.done()) m_coro.destroy();]. *)
Definition generator_impl_dtor {St : Type}
  (PH : promise_hooks promise_type Z exn)
  (body : stmt St Z exn no_awaiter unit) (fuel : nat)
  (m_coro : coroutine St promise_type Z exn no_awaiter)
  : result St promise_type Z exn no_awaiter :=
  if negb (done m_coro) then destroy PH no_awaiters body fuel m_coro
  else Returned m_coro.

(** Where the loop over the iterator stands when it has collected [out]:
    the coroutine is done, or it waits with the next value on offer. *)
Definition offers {St : Type} (body : stmt St Z exn no_awaiter unit)
  (c : coroutine St promise_type Z exn no_awaiter) (out : list Z) : Prop :=
  (m_next c = SENTINEL /\ yields_of (trace c) = out) \/
  (suspended_at body c /\
   exists v, m_data (promise c) = Some v /\
             yields_of (trace c) = out ++ [v]).

(** What one call adds to the values yielded: one value, which the promise
    then holds, when the call suspends; nothing otherwise. *)
Definition one_yield {St : Type}
  (c : coroutine St promise_type Z exn no_awaiter) (o : outcome exn)
  (c' : coroutine St promise_type Z exn no_awaiter) : Prop :=
  if is_suspend o
  then exists v, yields_of (trace c') = yields_of (trace c) ++ [v] /\
                 m_data (promise c') = Some v
  else yields_of (trace c') = yields_of (trace c).

(** [range(0, 3)] after the constructor of [example/generator.hpp]:
    suspended at its [COZ_YIELD] with 0 on offer. *)
Definition first_of_three : coro :=
  mk_coroutine 1 SENTINEL (mk_promise (Some 0)) (mk_params 0 3)
               (Some (TmpValue 0)) [EvBody; EvCtorTmp; EvYieldValue 0].

End Generator.

(** ** Small coroutines used to exercise the engine *)

Module Demo.

(** A promise in the style of a task: a slot for the value handed to
    [yield_value] or [return_value], and a count of [finalize] calls. *)
Record task_promise := mk_task { slot : option Z; finals : nat }.

Definition task_hooks : promise_hooks task_promise Z Z :=
  Build_promise_hooks
    (fun p => mk_task (slot p) (S (finals p)))
    (fun v p => inl (mk_task (Some v) (finals p)))
    (Some (fun p => inl p))
    (Some (fun v p => inl (mk_task (Some v) (finals p))))
    (fun e p => (p, Some e)).

(** An awaiter whose answers are fixed when it is built. *)
Record fixed_awaiter := mk_awaiter {
  ready : bool;
  on_suspend : suspend_ret;
  resumed : Z
}.

Definition fixed_hooks : awaiter_hooks Z fixed_awaiter Z :=
  Build_awaiter_hooks
    (fun a => ready a)
    (fun a _ => on_suspend a)
    (fun a => inl (resumed a)).

(** [size_align_of<lvref_wrapper<T>>]: the operand of a [COZ_YIELD] or of
    an await that is an lvalue is kept by reference, so that what the
    scratch frame holds is one pointer (LP64). *)
Definition lvref_frame : Layout.size_align := Layout.mk_size_align 8 8.

Definition demo_stmt : Type := stmt Z Z Z fixed_awaiter Z.
Definition demo_coro : Type := coroutine Z task_promise Z Z fixed_awaiter.

Definition fresh : demo_coro := coroutine_ctor (mk_task None 0) 0.

(** [{ throw 7; }] *)
Definition thrower : demo_stmt := Do (fun _ => inr 7).

(** [[
COZ_TRY { COZ_YIELD(x); throw 7; } COZ_CATCH (int e) { x += e; }
]] *)
Definition guarded : demo_stmt :=
  COZ_TRY 1 SENTINEL
    (Seq (COZ_YIELD 2 3 lvref_frame (fun x => x)) (Do (fun _ => inr 7)))
    (fun e => Some (Do (fun x => inl (x + e)))).

(** [guarded] started with [x = 5] and suspended at its [COZ_YIELD]. *)
Definition guarded_suspended : demo_coro :=
  mk_coroutine 2 1 (mk_task (Some 5) 0) 5 (Some (TmpValue 5))
               [EvCtorTmp; EvYieldValue 5].

(** [guarded_suspended] resumed, at the point where [throw 7] leaves the
    body. *)
Definition guarded_raised : demo_coro :=
  mk_coroutine 2 1 (mk_task (Some 5) 0) 5 None
               [EvCtorTmp; EvYieldValue 5; EvDtorTmp; EvBody].

(** [[
COZ_TRY { } COZ_CATCH (int e) { x += 100; }
throw 7;
]] *)
Definition stale : demo_stmt :=
  Seq (COZ_TRY 1 SENTINEL Skip (fun e => Some (Do (fun x => inl (x + 100)))))
      (Do (fun _ => inr 7)).

(** [[
COZ_TRY {
    COZ_TRY { } COZ_CATCH (int e) { x += 1000; }
    throw 7;
} COZ_CATCH (int e) { x += e; }
]] *)
Definition nested : demo_stmt :=
  COZ_TRY 1 SENTINEL
    (Seq (COZ_TRY 2 1 Skip (fun e => Some (Do (fun x => inl (x + 1000)))))
         (Do (fun _ => inr 7)))
    (fun e => Some (Do (fun x => inl (x + e)))).

(** The same with [COZ_RETURN();] as the inner handler. *)
Definition nested_return : demo_stmt :=
  COZ_TRY 1 SENTINEL
    (Seq (COZ_TRY 2 1 Skip (fun e => Some (COZ_RETURN RetEmpty)))
         (Do (fun _ => inr 7)))
    (fun e => Some (Do (fun x => inl (x + e)))).

(** [{ x += 1; COZ_RETURN(x * 2); }] *)
Definition returner : demo_stmt :=
  Seq (Do (fun x => inl (x + 1))) (COZ_RETURN (RetValue (fun x => x * 2))).

(** [COZ_AWAIT_APPLY(x +=, a)] for a given awaiter [a], an lvalue. *)
Definition awaiting (a : fixed_awaiter) : demo_stmt :=
  COZ_AWAIT_APPLY 1 2 lvref_frame (fun _ => a) (fun r x => inl (x + r)).

(** [[
if (x > 0) { COZ_RETURN(x * 2); }
COZ_TRY { throw 7; } COZ_CATCH (int e) { COZ_RETURN(x + e); }
]] *)
Definition chooser : demo_stmt :=
  Seq (If (fun x => 0 <? x) (COZ_RETURN (RetValue (fun x => x * 2))) Skip)
      (COZ_TRY 1 SENTINEL (Do (fun _ => inr 7))
         (fun e => Some (COZ_RETURN (RetValue (fun x => x + e))))).

(** A constructor of the state closure that throws 99 on a negative
    parameter. *)
Definition checked_state (params : Z) : Z + Z :=
  if params <? 0 then inr 99 else inl params.

(** [{ x += 1; x += 2; }] *)
Definition straight : demo_stmt :=
  Seq (Do (fun x => inl (x + 1))) (Do (fun x => inl (x + 2))).

End Demo.

(** * Facts *)

Lemma SENTINEL_value : SENTINEL = 4294967295.
Proof. reflexivity. Qed.

(** ** Frame Layout Solver *)

Module LayoutFacts.
Import Layout.

Lemma unite_comm (a b : size_align) : unite a b = unite b a.
Proof. unfold unite; f_equal; apply N.max_comm. Qed.

Lemma unite_assoc (a b c : size_align) :
  unite a (unite b c) = unite (unite a b) c.
Proof. unfold unite; simpl; f_equal; apply N.max_assoc. Qed.

Lemma unite_idem (a : size_align) : unite a a = a.
Proof. destruct a; unfold unite; simpl; f_equal; apply N.max_id. Qed.

Lemma unite_absorb (a b : size_align) : unite a (unite a b) = unite a b.
Proof. now rewrite unite_assoc, unite_idem. Qed.

Lemma unite_zero_r (a : size_align) : unite a size_align_zero = a.
Proof. destruct a; unfold unite; simpl; f_equal; apply N.max_0_r. Qed.

(** The walk over the ordinals stops at the last stored observation. *)
Lemma load_from_last (d : smp_domain) (x : size_align) (n : nat)
  (st : smp_state) :
  smp_load_state_from (d ++ [x]) n st = mk_smp_state (n + length d) x.
Proof.
  revert n st; induction d as [|y d IH]; intros n st; simpl.
  - now rewrite Nat.add_0_r.
  - rewrite IH. f_equal. lia.
Qed.

Lemma load_last (d : smp_domain) (x : size_align) :
  smp_load_state (d ++ [x]) = Some (mk_smp_state (length d) x).
Proof.
  destruct d as [|y d]; simpl; [reflexivity|].
  now rewrite load_from_last.
Qed.

(** A registration appends one observation: the union with the newest. *)
Lemma update_snoc (val x : size_align) (d : smp_domain) :
  update_size_align_impl val (d ++ [x]) = (d ++ [x]) ++ [unite val x].
Proof.
  unfold update_size_align_impl. rewrite load_last. simpl index. simpl value.
  f_equal. replace (S (length d)) with (length (d ++ [x])).
  - apply firstn_all.
  - rewrite length_app; simpl; lia.
Qed.

Lemma register_from (regs : list size_align) :
  forall d x, exists d',
    fold_left (fun d val => update_size_align_impl val d) regs (d ++ [x])
    = d' ++ [running regs x].
Proof.
  induction regs as [|r regs IH]; intros d x; simpl.
  - now exists d.
  - rewrite update_snoc. apply IH.
Qed.

Lemma frame_of_running (regs : list size_align) :
  frame_of regs = Some (running regs size_align_zero).
Proof.
  unfold frame_of, register_all, smp_init_state, get_size_align.
  destruct (register_from regs [] size_align_zero) as [d' Hd'].
  simpl in Hd'. rewrite Hd', load_last. reflexivity.
Qed.

Lemma running_unite (regs : list size_align) (x : size_align) :
  running regs x = unite (max_over regs) x.
Proof.
  revert x; induction regs as [|r regs IH]; intros x; simpl.
  - unfold max_over, unite; destruct x; simpl. f_equal; lia.
  - unfold running in *. simpl. rewrite IH.
    unfold max_over, unite; simpl. f_equal; lia.
Qed.

Lemma max_over_perm (l l' : list size_align) :
  Permutation l l' -> max_over l = max_over l'.
Proof.
  induction 1 as [|x l l' _ IH|x y l|l l' l'' _ IH1 _ IH2].
  - reflexivity.
  - unfold max_over in *; simpl. injection IH as Hs Ha. now rewrite Hs, Ha.
  - unfold max_over; simpl. f_equal; lia.
  - congruence.
Qed.

Lemma max_over_app (l1 l2 : list size_align) :
  max_over (l1 ++ l2) = unite (max_over l1) (max_over l2).
Proof.
  induction l1 as [|x l1 IH]; simpl.
  - change (max_over []) with size_align_zero.
    now rewrite unite_comm, unite_zero_r.
  - change (max_over (x :: l1 ++ l2)) with (unite x (max_over (l1 ++ l2))).
    change (max_over (x :: l1)) with (unite x (max_over l1)).
    now rewrite IH, unite_assoc.
Qed.

Lemma max_over_cons (x : size_align) (l : list size_align) :
  max_over (x :: l) = unite x (max_over l).
Proof. reflexivity. Qed.

Lemma max_over_In (x : size_align) (l : list size_align) :
  In x l -> unite x (max_over l) = max_over l.
Proof.
  induction l as [|y l IH]; intros Hin; [contradiction|].
  rewrite max_over_cons. destruct Hin as [->|Hin].
  - apply unite_absorb.
  - rewrite unite_assoc, (unite_comm x y), <- unite_assoc. now rewrite IH.
Qed.

(** C8.  The frame the solver ends with is the member-wise maximum of
    (size, alignment) over every temporary registered in the body; the
    order of the registrations does not matter; and registering again
    something already registered (the same observation twice in a row, or
    once more anywhere later) leaves the union as it was. *)
Theorem frame_is_pairwise_maximum :
  (forall regs, frame_of regs = Some (max_over regs)) /\
  (forall regs regs', Permutation regs regs' -> frame_of regs = frame_of regs') /\
  (forall a b, unite a (unite a b) = unite a b) /\
  (forall x regs, frame_of (x :: x :: regs) = frame_of (x :: regs)) /\
  (forall x l1 l2, In x l1 -> frame_of (l1 ++ x :: l2) = frame_of (l1 ++ l2)).
Proof.
  assert (Hmax : forall regs, frame_of regs = Some (max_over regs)).
  { intros regs. rewrite frame_of_running, running_unite.
    now rewrite unite_zero_r. }
  split; [exact Hmax|].
  split; [intros regs regs' Hp; rewrite !Hmax; f_equal; now apply max_over_perm|].
  split; [exact unite_absorb|].
  split.
  - intros x regs. rewrite !Hmax, !max_over_cons. now rewrite unite_absorb.
  - intros x l1 l2 Hin. rewrite !Hmax. f_equal.
    rewrite !max_over_app, max_over_cons, unite_assoc.
    rewrite (unite_comm (max_over l1) x), (max_over_In x l1 Hin).
    reflexivity.
Qed.

(** The theorem at three temporaries of sizes 4, 16 and 8. *)
Lemma frame_is_pairwise_maximum_witness :
  frame_of [mk_size_align 4 4; mk_size_align 16 8; mk_size_align 8 16]
  = frame_of [mk_size_align 8 16; mk_size_align 4 4; mk_size_align 16 8]
  /\ frame_of [mk_size_align 4 4; mk_size_align 16 8; mk_size_align 4 4]
     = frame_of [mk_size_align 4 4; mk_size_align 16 8].
Proof.
  split.
  - apply (proj1 (proj2 frame_is_pairwise_maximum)).
    apply Permutation_sym.
    exact (Permutation_cons_append [mk_size_align 4 4; mk_size_align 16 8]
                                   (mk_size_align 8 16)).
  - apply (proj2 (proj2 (proj2 (proj2 frame_is_pairwise_maximum)))
             (mk_size_align 4 4)
             [mk_size_align 4 4; mk_size_align 16 8] []).
    simpl; now left.
Defined.

Lemma fits_unite_l (a b : size_align) : fits a (unite a b).
Proof. unfold fits, unite; simpl; split; lia. Qed.

Lemma fits_unite_r (a b : size_align) : fits b (unite a b).
Proof. unfold fits, unite; simpl; split; lia. Qed.

Lemma frame_of_max (regs : list size_align) :
  frame_of regs = Some (max_over regs).
Proof. now rewrite frame_of_running, running_unite, unite_zero_r. Qed.

(** The specialisation without [m_mem_tmp] is chosen only for a frame of
    size 0, so the bytes reserved are always [mem.size]. *)
Lemma body_mem_tmp_bytes_size (f : size_align) :
  body_mem_tmp_bytes f = size f.
Proof.
  destruct f as [s a].
  unfold body_mem_tmp_bytes, body_has_mem_tmp, size_align_eqb. simpl.
  destruct (N.eqb_spec s 0); destruct (N.eqb_spec a 0); simpl; subst;
    reflexivity.
Qed.

Lemma frame_of_fits (regs : list size_align) (x : size_align) :
  In x regs -> fits x (max_over regs).
Proof.
  intros Hin. rewrite <- (max_over_In x regs Hin). apply fits_unite_l.
Qed.

Lemma register_all_app (l1 l2 : list size_align) :
  register_all (l1 ++ l2)
  = fold_left (fun d val => update_size_align_impl val d) l2 (register_all l1).
Proof. unfold register_all. apply fold_left_app. Qed.

Lemma register_all_snoc (regs : list size_align) (x : size_align) :
  register_all (regs ++ [x])
  = register_all regs ++ [unite x (max_over regs)].
Proof.
  rewrite register_all_app. simpl.
  unfold register_all, smp_init_state.
  destruct (register_from regs [] size_align_zero) as [d' Hd'].
  simpl in Hd'. rewrite Hd', update_snoc.
  now rewrite running_unite, unite_zero_r.
Qed.

Lemma register_all_length (regs : list size_align) :
  length (register_all regs) = S (length regs).
Proof.
  induction regs as [|x regs IH] using rev_ind; [reflexivity|].
  rewrite register_all_snoc, !length_app, IH. simpl. lia.
Qed.

(** X1.  Every registration stores one observation at the next free ordinal, so
    after [k] registrations the lookup stops at ordinal [k]; and what is
    observed only grows: a query made after more registrations never
    reports less room or a weaker alignment than an earlier one. *)
Theorem solver_observations_grow (l1 l2 : list size_align) :
  length (register_all l1) = S (length l1) /\
  option_map index (smp_load_state (register_all l1)) = Some (length l1) /\
  exists a b, frame_of l1 = Some a /\ frame_of (l1 ++ l2) = Some b /\
              fits a b.
Proof.
  split; [apply register_all_length|]. split.
  - pose proof (register_all_length l1) as Hlen.
    destruct (register_from l1 [] size_align_zero) as [d' Hd'].
    simpl in Hd'. unfold register_all, smp_init_state in *.
    rewrite Hd' in *. rewrite load_last. simpl.
    rewrite length_app in Hlen. simpl in Hlen. f_equal. lia.
  - exists (max_over l1), (max_over (l1 ++ l2)).
    split; [apply frame_of_max|]. split; [apply frame_of_max|].
    rewrite max_over_app. apply fits_unite_l.
Qed.

End LayoutFacts.

(** ** Execution engine *)

(** Case analysis on every hook result the goal branches on. *)
Ltac split_hooks :=
  repeat match goal with
         | |- context [match ?x with _ => _ end] => destruct x eqn:?
         end.

(** Case analysis on everything a hypothesis branches on, then inversion
    of the resulting equation between outcomes. *)
Ltac split_run H :=
  repeat match type of H with
         | context [match ?x with _ => _ end] =>
             lazymatch x with
             | context [match _ with _ => _ end] => fail
             | _ => destruct x eqn:?; cbv beta iota in H
             end
         end;
  inversion H; subst; clear H.

Ltac unfold_steps H :=
  unfold coz_return, explicit_return, call_return_value, call_return_void,
    try_suspend, suspend, await_resume_at in H.

Section EngineFacts.

Context {St P V E A R : Type}.
Variable PH : promise_hooks P V E.
Variable AH : awaiter_hooks E A R.

(** *** Dispatch: looking for a [case] label *)

(** Dispatching to an ordinal that is no label of the statement skips it. *)
Lemma exec_seek_miss (s : stmt St V E A R) :
  forall fuel t ex (c : coroutine St P V E A),
    ~ In t (labels s) ->
    exec PH AH s fuel (Seek t ex) c = (Seeking, c).
Proof.
  induction s; intros fuel t ex c0 Hnot; simpl in *;
    try rewrite in_app_iff in Hnot; try reflexivity.
  - rewrite IHs1 by tauto. apply IHs2; tauto.
  - rewrite IHs1 by tauto. apply IHs2; tauto.
  - now rewrite IHs.
  - destruct (Z.eqb_spec t ip); [intuition congruence|].
    destruct (Z.eqb_spec t eh); [intuition congruence|]. reflexivity.
  - destruct (Z.eqb_spec t ip); [intuition congruence|].
    destruct (Z.eqb_spec t eh); [intuition congruence|]. reflexivity.
  - destruct (Z.eqb_spec t ip); [intuition congruence|].
    destruct (Z.eqb_spec t eh); [intuition congruence|]. reflexivity.
  - rewrite IHs by tauto.
    destruct (Z.eqb_spec t curr_eh); [simpl in Hnot; intuition congruence|].
    reflexivity.
Qed.

Lemma counter_after_mono (s : stmt St V E A R) :
  forall n, n <= counter_after s n.
Proof.
  induction s; intros n; simpl; try lia.
  - specialize (IHs1 n). specialize (IHs2 (counter_after s1 n)). lia.
  - specialize (IHs1 n). specialize (IHs2 (counter_after s1 n)). lia.
  - apply IHs.
  - specialize (IHs (n + 1)). lia.
Qed.

(** The labels of a statement are the ordinals drawn while it was expanded. *)
Lemma labels_range (s : stmt St V E A R) :
  forall n cur l,
    numbered s n cur -> In l (labels s) -> n <= l < counter_after s n.
Proof.
  induction s; intros n cur l Hn Hin; simpl in *;
    try rewrite in_app_iff in Hin; try contradiction.
  - destruct Hn as [H1 H2]. destruct Hin as [Hin|Hin].
    + specialize (IHs1 _ _ _ H1 Hin).
      pose proof (counter_after_mono s2 (counter_after s1 n)). lia.
    + specialize (IHs2 _ _ _ H2 Hin).
      pose proof (counter_after_mono s1 n). lia.
  - destruct Hn as [H1 H2]. destruct Hin as [Hin|Hin].
    + specialize (IHs1 _ _ _ H1 Hin).
      pose proof (counter_after_mono s2 (counter_after s1 n)). lia.
    + specialize (IHs2 _ _ _ H2 Hin).
      pose proof (counter_after_mono s1 n). lia.
  - eapply IHs; eauto.
  - lia.
  - lia.
  - lia.
  - destruct Hn as (-> & _ & Hb & _). destruct Hin as [Hin|Hin].
    + specialize (IHs _ _ _ Hb Hin). lia.
    + simpl in Hin. pose proof (counter_after_mono s (n + 1)). lia.
Qed.

Lemma susp_points_labels (s : stmt St V E A R) :
  forall k ip eh,
    In (k, ip, eh) (susp_points s) -> In ip (labels s) /\ In eh (labels s).
Proof.
  induction s; intros k ip0 eh0 Hin; simpl in *;
    try rewrite in_app_iff in Hin; try contradiction;
    try rewrite !in_app_iff.
  - destruct Hin as [H|H]; [apply IHs1 in H|apply IHs2 in H]; tauto.
  - destruct Hin as [H|H]; [apply IHs1 in H|apply IHs2 in H]; tauto.
  - eauto.
  - destruct Hin as [H|[]]; inversion H; subst; tauto.
  - destruct Hin as [H|[]]; inversion H; subst; tauto.
  - destruct Hin as [H|[]]; inversion H; subst; tauto.
  - apply IHs in Hin; tauto.
Qed.

Lemma susp_points_numbered (s : stmt St V E A R) :
  forall n cur k ip eh,
    numbered s n cur -> In (k, ip, eh) (susp_points s) -> eh = ip + 1.
Proof.
  induction s; intros n cur k ip0 eh0 Hn Hin; simpl in *;
    try rewrite in_app_iff in Hin; try contradiction.
  - destruct Hn as [H1 H2]. destruct Hin as [H|H]; eauto.
  - destruct Hn as [H1 H2]. destruct Hin as [H|H]; eauto.
  - eauto.
  - destruct Hin as [H|[]]; inversion H; subst; lia.
  - destruct Hin as [H|[]]; inversion H; subst; lia.
  - destruct Hin as [H|[]]; inversion H; subst; lia.
  - destruct Hn as (_ & _ & Hb & _). eauto.
Qed.

(** Dispatching to the cleanup ordinal of a suspension point destroys what
    the point left in the scratch frame and jumps to [_coz_finalize]. *)
Lemma exec_seek_cleanup (s : stmt St V E A R) :
  forall n cur fuel ex k ip eh (c : coroutine St P V E A),
    numbered s n cur ->
    In (k, ip, eh) (susp_points s) ->
    exec PH AH s fuel (Seek eh ex) c = (Finalize, cleanup k c).
Proof.
  induction s; intros n cur fuel ex k ip0 eh0 c0 Hn Hin; simpl in *;
    try rewrite in_app_iff in Hin; try contradiction.
  - destruct Hn as [H1 H2]. destruct Hin as [Hin|Hin].
    + now rewrite (IHs1 _ _ fuel ex _ _ _ c0 H1 Hin).
    + rewrite exec_seek_miss; [eapply IHs2; eauto|].
      intros Hl. apply (labels_range _ _ _ _ H1) in Hl.
      apply susp_points_labels in Hin. destruct Hin as [_ Hin].
      apply (labels_range _ _ _ _ H2) in Hin. lia.
  - destruct Hn as [H1 H2]. destruct Hin as [Hin|Hin].
    + now rewrite (IHs1 _ _ fuel ex _ _ _ c0 H1 Hin).
    + rewrite exec_seek_miss; [eapply IHs2; eauto|].
      intros Hl. apply (labels_range _ _ _ _ H1) in Hl.
      apply susp_points_labels in Hin. destruct Hin as [_ Hin].
      apply (labels_range _ _ _ _ H2) in Hin. lia.
  - now rewrite (IHs _ _ fuel ex _ _ _ c0 Hn Hin).
  - destruct Hin as [H|[]]; inversion H; subst.
    destruct Hn as [-> ->]. rewrite Z.eqb_refl.
    destruct (Z.eqb_spec (n + 1) n); [lia|]. reflexivity.
  - destruct Hin as [H|[]]; inversion H; subst.
    destruct Hn as [-> ->]. rewrite Z.eqb_refl.
    destruct (Z.eqb_spec (n + 1) n); [lia|]. reflexivity.
  - destruct Hin as [H|[]]; inversion H; subst.
    destruct Hn as [-> ->]. rewrite Z.eqb_refl.
    destruct (Z.eqb_spec (n + 1) n); [lia|]. reflexivity.
  - destruct Hn as (_ & _ & Hb & _).
    now rewrite (IHs _ _ fuel ex _ _ _ c0 Hb Hin).
Qed.

Lemma coz_body_labels (body : stmt St V E A R) (l : Z) :
  coz_body body -> In l (labels body) -> 1 <= l < SENTINEL.
Proof.
  intros [Hn Hle] Hin. apply (labels_range _ _ _ _ Hn) in Hin. lia.
Qed.

(** *** [done], [resume] on a finished coroutine *)

Lemma done_spec (c : coroutine St P V E A) :
  done c = true <-> m_next c = SENTINEL.
Proof. unfold done. apply Z.eqb_eq. Qed.

(** On a finished coroutine the [switch] finds no label and the call
    returns with the instance as it was. *)
Lemma invoke_done (body : stmt St V E A R) (fuel : nat)
  (c : coroutine St P V E A) :
  coz_body body -> (0 < fuel)%nat -> m_next c = SENTINEL ->
  invoke PH AH body fuel c = Returned c.
Proof.
  intros Hb Hf Hd. unfold invoke.
  destruct fuel as [|n]; [lia|]. simpl.
  unfold coz_switch, coz_dispatch. rewrite Hd.
  change (SENTINEL =? 0) with false. cbv iota.
  rewrite exec_seek_miss; [reflexivity|].
  intros Hin. apply (coz_body_labels _ _ Hb) in Hin. lia.
Qed.

(** C10.  [resume()] on a coroutine whose resume ordinal is the sentinel
    returns and leaves the whole instance as it was: the resume ordinal, the
    handler ordinal, the promise, the state closure, the scratch frame; no
    body statement runs and no promise hook is called (the trace does not
    grow).  Nothing traps. *)
Theorem resume_done_is_noop (body : stmt St V E A R) (fuel : nat)
  (c : coroutine St P V E A) :
  coz_body body -> (0 < fuel)%nat -> m_next c = SENTINEL ->
  resume PH AH body fuel c = Returned c.
Proof.
  intros Hb Hf Hd. unfold resume. now apply invoke_done.
Qed.

(** *** [destroy] *)

Lemma destroy_suspended_eq (body : stmt St V E A R) (fuel : nat)
  (c : coroutine St P V E A) (k : susp_kind) (ip eh : Z) :
  coz_body body -> (0 < fuel)%nat ->
  In (k, ip, eh) (susp_points body) -> m_next c = ip ->
  destroy PH AH body fuel c
  = Returned (finalizer PH (cleanup k (set_next (ip + 1) c))).
Proof.
  intros Hb Hf Hin Hip.
  pose proof (susp_points_numbered _ _ _ _ _ _ (proj1 Hb) Hin) as Heh.
  destruct (susp_points_labels _ _ _ _ Hin) as [Hl1 Hl2].
  apply (coz_body_labels _ _ Hb) in Hl1, Hl2.
  unfold destroy. rewrite Hip.
  destruct (Z.eqb_spec ip SENTINEL) as [|_]; [lia|].
  assert (Hw : unsigned_wrap (ip + 1) = ip + 1).
  { unfold unsigned_wrap. apply Z.mod_small.
    rewrite SENTINEL_value in *. lia. }
  rewrite Hw. unfold invoke. destruct fuel as [|n]; [lia|]. simpl.
  unfold coz_switch, coz_dispatch. simpl m_next.
  destruct (Z.eqb_spec (ip + 1) 0) as [|_]; [lia|].
  rewrite <- Heh.
  rewrite (exec_seek_cleanup _ _ _ _ _ _ _ _ _ (proj1 Hb) Hin).
  reflexivity.
Qed.

(** C3.  [destroy()] on a coroutine suspended at a suspension point of its
    body (inside a guarded region or not) returns after exactly these
    calls: the destructor of the occupant of the scratch frame (none for
    [COZ_YIELD_LITE], which keeps nothing there), the destructor of the
    state closure, and [finalize] once.  No body code runs, no handler is
    entered, the state closure and the handler ordinal are as they were.
    [destroy()] on a finished coroutine fails its assertion. *)
Theorem destroy_suspended_cleans_up (body : stmt St V E A R) (fuel : nat) :
  coz_body body -> (0 < fuel)%nat ->
  (forall (c : coroutine St P V E A) k ip eh,
     In (k, ip, eh) (susp_points body) -> m_next c = ip ->
     exists c' evs,
       destroy PH AH body fuel c = Returned c' /\
       trace c' = trace c ++ evs /\
       evs = match k with KYieldLite => [] | _ => [EvDtorTmp] end
             ++ [EvDtorState; EvFinalize] /\
       count_ev is_finalize evs = 1%nat /\
       count_ev is_body evs = 0%nat /\
       count_ev is_handler evs = 0%nat /\
       m_mem_tmp c' = match k with KYieldLite => m_mem_tmp c | _ => None end /\
       promise c' = finalize PH (promise c) /\
       m_state c' = m_state c /\
       m_eh c' = m_eh c) /\
  (forall c : coroutine St P V E A,
     m_next c = SENTINEL -> destroy PH AH body fuel c = Aborted).
Proof.
  intros Hb Hf. split.
  - intros c k ip eh Hin Hip.
    exists (finalizer PH (cleanup k (set_next (ip + 1) c))).
    exists (match k with KYieldLite => [] | _ => [EvDtorTmp] end
            ++ [EvDtorState; EvFinalize]).
    split; [now apply (destroy_suspended_eq body fuel c k ip eh)|].
    destruct k; simpl; rewrite <- ?app_assoc; repeat split; reflexivity.
  - intros c Hd. unfold destroy. rewrite Hd. reflexivity.
Qed.

(** After [destroy()] the resume ordinal is the cleanup ordinal it
    dispatched to, so [done()] is false on the destroyed instance. *)
Lemma destroy_leaves_cleanup_ordinal (body : stmt St V E A R) (fuel : nat)
  (c : coroutine St P V E A) (k : susp_kind) (ip eh : Z) :
  coz_body body -> (0 < fuel)%nat ->
  In (k, ip, eh) (susp_points body) -> m_next c = ip ->
  exists c', destroy PH AH body fuel c = Returned c' /\
             m_next c' = eh /\ done c' = false.
Proof.
  intros Hb Hf Hin Hip.
  pose proof (susp_points_numbered _ _ _ _ _ _ (proj1 Hb) Hin) as Heh.
  destruct (susp_points_labels _ _ _ _ Hin) as [_ Hl].
  apply (coz_body_labels _ _ Hb) in Hl.
  eexists; split; [now apply (destroy_suspended_eq body fuel c k ip eh)|].
  assert (Hn : m_next (finalizer PH (cleanup k (set_next (ip + 1) c))) = eh).
  { destruct k; simpl; lia. }
  split; [exact Hn|]. unfold done. rewrite Hn. apply Z.eqb_neq. lia.
Qed.

(** *** Suspension at an await *)

(** C4.  An await entered from its top builds the awaiter in the scratch
    frame and calls [await_ready] once.  Ready: the body goes on at once
    ([await_resume], then the occupant is destroyed) and the resume ordinal
    is untouched.  Not ready: the resume ordinal is set to [ip] first and
    [await_suspend] then sees it through the handle; when [await_suspend]
    returns [false] the body goes on exactly as in the ready case (only the
    resume ordinal differs), and when it returns [true] or is [void] the
    call leaves through [_coz_suspend] with the awaiter still in the
    frame. *)
Theorem await_protocol (ip eh : Z) (sa : Layout.size_align)
  (expr : St -> A) (f : R -> St -> St + E) (fuel : nat)
  (c : coroutine St P V E A) :
  let a := expr (m_state c) in
  let s := COZ_AWAIT_APPLY ip eh sa expr f in
  let if_ready :=
    await_resume_at AH f (emit EvAwaitReady (ctor_tmp (TmpAwaiter a) c)) in
  exists o c' evs,
    exec PH AH s fuel Run c = (o, c') /\
    trace c' = trace c ++ evs /\
    count_ev is_await_ready evs = 1%nat /\
    count_ev is_await_suspend evs
    = (if await_ready AH a then 0%nat else 1%nat) /\
    match await_ready AH a, await_suspend AH a ip with
    | true, _ =>
        (o, c') = if_ready /\
        is_suspend o = false /\ m_next c' = m_next c /\
        evs = [EvCtorTmp; EvAwaitReady; EvAwaitResume; EvDtorTmp]
    | false, SuspendBool false =>
        o = fst if_ready /\ same_frame c' (snd if_ready) /\
        is_suspend o = false /\ m_next c' = ip /\
        evs = [EvCtorTmp; EvAwaitReady; EvAwaitSuspend; EvAwaitResume;
               EvDtorTmp]
    | false, _ =>
        o = Suspend /\ m_next c' = ip /\
        m_mem_tmp c' = Some (TmpAwaiter a) /\
        evs = [EvCtorTmp; EvAwaitReady; EvAwaitSuspend]
    end.
Proof.
  intros a s if_ready. subst s if_ready. simpl exec.
  unfold try_suspend, suspend, await_resume_at, same_frame.
  subst a. simpl.
  destruct (await_ready AH (expr (m_state c))) eqn:Hr;
    [|destruct (await_suspend AH (expr (m_state c)) ip) as [|[|]]];
    simpl; split_hooks;
    do 3 eexists; (split; [reflexivity|]); simpl;
    rewrite <- ?app_assoc; simpl; repeat split; reflexivity.
Qed.

(** The yield-style suspension for comparison: no readiness is asked;
    the value goes to [yield_value] and, unless the hook throws, the call
    leaves through [_coz_suspend] with the resume ordinal recorded. *)
Lemma yield_suspends (ip eh : Z) (sa : Layout.size_align) (expr : St -> V)
  (fuel : nat) (c : coroutine St P V E A) (p : P) :
  yield_value PH (expr (m_state c)) (promise c) = inl p ->
  exists c',
    exec PH AH (COZ_YIELD ip eh sa expr) fuel Run c = (Suspend, c') /\
    m_next c' = ip /\ promise c' = p /\
    m_mem_tmp c' = Some (TmpValue (expr (m_state c))) /\
    trace c' = trace c ++ [EvCtorTmp; EvYieldValue (expr (m_state c))].
Proof.
  intros Hy. simpl. rewrite Hy. eexists. split; [reflexivity|].
  simpl. rewrite <- app_assoc. repeat split.
Qed.

(** On resumption at [case ip] the awaiter is not asked again whether it
    is ready: only [await_resume] and the destructor run. *)
Lemma await_resumed (ip eh : Z) (sa : Layout.size_align)
  (expr : St -> A) (f : R -> St -> St + E) (fuel : nat) (ex : option E)
  (c : coroutine St P V E A) (a : A) :
  m_mem_tmp c = Some (TmpAwaiter a) ->
  exists o c',
    exec PH AH (COZ_AWAIT_APPLY ip eh sa expr f) fuel (Seek ip ex) c = (o, c')
    /\ trace c' = trace c ++ [EvAwaitResume; EvDtorTmp]
    /\ m_mem_tmp c' = None.
Proof.
  intros Ht. simpl. rewrite Z.eqb_refl. unfold await_resume_at.
  rewrite Ht. split_hooks;
    do 2 eexists; (split; [reflexivity|]); simpl;
    rewrite <- ?app_assoc; split; reflexivity.
Qed.

(** *** General facts about execution *)

(** Loop rule: [Inv] holds whenever the condition is about to be tested,
    [Post] whenever the loop is left. *)
Lemma while_loop_ind
  (Inv : coroutine St P V E A -> Prop)
  (Post : outcome E -> coroutine St P V E A -> Prop)
  (cond : St -> bool)
  (step : coroutine St P V E A -> outcome E * coroutine St P V E A) :
  (forall c, Inv c -> Inv (emit EvBody c)) ->
  (forall c, Inv c -> Post Next c) ->
  (forall c, Inv c -> Post OutOfFuel c) ->
  (forall c o c', Inv c -> step c = (o, c') ->
                  if is_next o then Inv c' else Post o c') ->
  forall n c o c',
    Inv c -> while_loop cond step n c = (o, c') -> Post o c'.
Proof.
  intros Hemit Hexit Hfuel Hstep.
  induction n as [|n IH]; intros c o c' Hinv Hrun; simpl in Hrun.
  - inversion Hrun; subst. now apply Hfuel.
  - apply Hemit in Hinv.
    destruct (cond (m_state c)).
    + destruct (step (emit EvBody c)) as [o1 c1] eqn:Hs.
      pose proof (Hstep _ _ _ Hinv Hs) as Hone.
      destruct o1; simpl in Hone;
        try (inversion Hrun; subst; exact Hone).
      eapply IH; eauto.
    + inversion Hrun; subst. now apply Hexit.
Qed.

Lemma extends_refl (c : coroutine St P V E A) : extends c c.
Proof. exists []. now rewrite app_nil_r. Qed.

Lemma extends_trans (c1 c2 c3 : coroutine St P V E A) :
  extends c1 c2 -> extends c2 c3 -> extends c1 c3.
Proof.
  intros [e1 H1] [e2 H2]. exists (e1 ++ e2).
  now rewrite H2, H1, app_assoc.
Qed.

Lemma extends_emit (c1 c2 : coroutine St P V E A) (ev : event V E) :
  extends c1 c2 -> extends c1 (emit ev c2).
Proof.
  intros [e1 H1]. exists (e1 ++ [ev]). simpl. now rewrite H1, app_assoc.
Qed.

Ltac solve_extends :=
  unfold extends; simpl;
  first [ exists []; now rewrite app_nil_r
        | eexists; rewrite <- ?app_assoc; reflexivity ].

(** Execution only ever appends to the trace. *)
Lemma exec_extends (s : stmt St V E A R) :
  forall fuel m (c : coroutine St P V E A) o c',
    exec PH AH s fuel m c = (o, c') -> extends c c'.
Proof.
  induction s as [ | f | s1 s2 IH1 IH2 | cnd s1 s2 IH1 IH2 | cnd b IHb
                 | ip eh sa expr | ip eh expr | ip eh sa expr f | r
                 | h prev b cl IHb IHcl ] using stmt_induction;
    intros fuel m c0 o c' Hex; simpl in Hex.
  - split_run Hex; solve_extends.
  - split_run Hex; solve_extends.
  - destruct (exec PH AH s1 fuel m c0) as [o1 c1] eqn:H1.
    apply IH1 in H1.
    destruct o1; try (inversion Hex; subst; exact H1);
      (eapply extends_trans; [exact H1|eapply IH2; eauto]).
  - destruct m as [|t ex].
    + destruct (cnd (m_state c0));
        [apply IH1 in Hex|apply IH2 in Hex];
        (eapply extends_trans; [|exact Hex]); solve_extends.
    + destruct (exec PH AH s1 fuel (Seek t ex) c0) as [o1 c1] eqn:H1.
      apply IH1 in H1.
      destruct o1; try (inversion Hex; subst; exact H1).
      eapply extends_trans; [exact H1|eapply IH2; eauto].
  - assert (Hloop : forall c1 o c', extends c0 c1 ->
              while_loop cnd (exec PH AH b fuel Run) fuel c1 = (o, c') ->
              extends c0 c').
    { intros c1 o1 c1' Hc1.
      apply (while_loop_ind (extends c0) (fun _ c => extends c0 c)); auto.
      - intros c Hc. now apply extends_emit.
      - intros c o2 c2 Hc Hstep. apply IHb in Hstep.
        assert (extends c0 c2) by (eapply extends_trans; eauto).
        now destruct o2. }
    destruct m as [|t ex].
    + eapply Hloop; [apply extends_refl|exact Hex].
    + destruct (exec PH AH b fuel (Seek t ex) c0) as [o1 c1] eqn:H1.
      apply IHb in H1.
      destruct o1; try (inversion Hex; subst; exact H1).
      eapply Hloop; eauto.
  - split_run Hex; solve_extends.
  - split_run Hex; solve_extends.
  - unfold_steps Hex. simpl in Hex. split_run Hex; solve_extends.
  - unfold_steps Hex. simpl in Hex. split_run Hex; solve_extends.
  - destruct m as [|t ex].
    + apply IHb in Hex. exact Hex.
    + destruct (exec PH AH b fuel (Seek t ex) c0) as [o1 c1] eqn:H1.
      apply IHb in H1.
      destruct o1; try (inversion Hex; subst; exact H1).
      destruct (t =? h); [|inversion Hex; subst; exact H1].
      destruct ex as [e|]; [|inversion Hex; subst; exact H1].
      destruct (cl e) as [hd|] eqn:Hcl.
      * apply (IHcl _ _ Hcl) in Hex.
        eapply extends_trans; [exact H1|].
        eapply extends_trans; [|exact Hex]. solve_extends.
      * inversion Hex; subst.
        eapply extends_trans; [exact H1|]. solve_extends.
Qed.

(** A statement entered from its top never reports a missing label. *)
Lemma exec_run_not_seeking (s : stmt St V E A R) :
  forall fuel (c : coroutine St P V E A) o c',
    exec PH AH s fuel Run c = (o, c') -> is_seeking o = false.
Proof.
  induction s; intros fuel c0 o c' Hex; simpl in Hex.
  - split_run Hex; reflexivity.
  - split_run Hex; reflexivity.
  - destruct (exec PH AH s1 fuel Run c0) as [o1 c1] eqn:H1.
    apply IHs1 in H1.
    destruct o1; try discriminate; try (inversion Hex; subst; reflexivity).
    eapply IHs2; eauto.
  - destruct (c (m_state c0)); eauto.
  - revert Hex.
    apply (while_loop_ind (fun _ => True) (fun o _ => is_seeking o = false));
      auto.
    intros c1 o1 c1' _ Hstep. apply IHs in Hstep. now destruct o1.
  - split_run Hex; reflexivity.
  - split_run Hex; reflexivity.
  - unfold_steps Hex. simpl in Hex. split_run Hex; reflexivity.
  - unfold_steps Hex. simpl in Hex. split_run Hex; reflexivity.
  - eauto.
Qed.

(** Dispatching to a label of the statement finds it. *)
Lemma exec_seek_found (s : stmt St V E A R) :
  forall fuel t ex (c : coroutine St P V E A) o c',
    In t (labels s) ->
    exec PH AH s fuel (Seek t ex) c = (o, c') -> is_seeking o = false.
Proof.
  induction s; intros fuel t ex c0 o c' Hin Hex; simpl in Hin, Hex;
    try rewrite in_app_iff in Hin; try contradiction.
  - destruct (exec PH AH s1 fuel (Seek t ex) c0) as [o1 c1] eqn:H1.
    destruct o1; try (inversion Hex; subst; reflexivity).
    + eapply exec_run_not_seeking; eauto.
    + destruct Hin as [Hin|Hin]; [|eapply IHs2; eauto].
      apply (IHs1 _ _ _ _ _ _ Hin) in H1. discriminate.
  - destruct (exec PH AH s1 fuel (Seek t ex) c0) as [o1 c1] eqn:H1.
    destruct o1; try (inversion Hex; subst; reflexivity).
    destruct Hin as [Hin|Hin]; [|eapply IHs2; eauto].
    apply (IHs1 _ _ _ _ _ _ Hin) in H1. discriminate.
  - destruct (exec PH AH s fuel (Seek t ex) c0) as [o1 c1] eqn:H1.
    pose proof (IHs _ _ _ _ _ _ Hin H1) as Hns.
    destruct o1; try discriminate; try (inversion Hex; subst; reflexivity).
    revert Hex.
    apply (while_loop_ind (fun _ => True) (fun o _ => is_seeking o = false));
      auto.
    intros c2 o2 c2' _ Hstep. apply exec_run_not_seeking in Hstep.
    now destruct o2.
  - destruct (Z.eqb_spec t ip); [inversion Hex; reflexivity|].
    destruct (Z.eqb_spec t eh); [inversion Hex; reflexivity|].
    intuition congruence.
  - destruct (Z.eqb_spec t ip); [inversion Hex; reflexivity|].
    destruct (Z.eqb_spec t eh); [inversion Hex; reflexivity|].
    intuition congruence.
  - destruct (Z.eqb_spec t ip).
    + unfold_steps Hex. split_run Hex; reflexivity.
    + destruct (Z.eqb_spec t eh); [inversion Hex; reflexivity|].
      intuition congruence.
  - destruct (exec PH AH s fuel (Seek t ex) c0) as [o1 c1] eqn:H1.
    destruct o1; try (inversion Hex; subst; reflexivity).
    destruct Hin as [Hin|Hin].
    + apply (IHs _ _ _ _ _ _ Hin) in H1. discriminate.
    + simpl in Hin. destruct (Z.eqb_spec t curr_eh); [|intuition congruence].
      destruct ex as [err|]; [|inversion Hex; reflexivity].
      destruct (clauses err) as [hd|]; [|inversion Hex; reflexivity].
      eapply exec_run_not_seeking; eauto.
Qed.

(** *** Exceptions *)

(** Without a [COZ_TRY] inside, a statement leaves the handler ordinal
    alone. *)
Lemma exec_keeps_eh (s : stmt St V E A R) :
  forall fuel m (c : coroutine St P V E A) o c',
    try_labels s = [] ->
    exec PH AH s fuel m c = (o, c') -> m_eh c' = m_eh c.
Proof.
  induction s; intros fuel m c0 o c' Hnil Hex; simpl in Hnil, Hex;
    try (apply app_eq_nil in Hnil; destruct Hnil as [Hn1 Hn2]).
  - split_run Hex; reflexivity.
  - split_run Hex; reflexivity.
  - destruct (exec PH AH s1 fuel m c0) as [o1 c1] eqn:H1.
    apply (IHs1 _ _ _ _ _ Hn1) in H1.
    destruct o1; try (inversion Hex; subst; exact H1);
      (rewrite <- H1; eapply IHs2; eauto).
  - destruct m as [|t ex].
    + destruct (c (m_state c0));
        [apply (IHs1 _ _ _ _ _ Hn1) in Hex|apply (IHs2 _ _ _ _ _ Hn2) in Hex];
        exact Hex.
    + destruct (exec PH AH s1 fuel (Seek t ex) c0) as [o1 c1] eqn:H1.
      apply (IHs1 _ _ _ _ _ Hn1) in H1.
      destruct o1; try (inversion Hex; subst; exact H1).
      rewrite <- H1; eapply IHs2; eauto.
  - assert (Hloop : forall c1 o c', m_eh c1 = m_eh c0 ->
              while_loop c (exec PH AH s fuel Run) fuel c1 = (o, c') ->
              m_eh c' = m_eh c0).
    { intros c1 o1 c1' Hc1.
      apply (while_loop_ind (fun x => m_eh x = m_eh c0)
                            (fun _ x => m_eh x = m_eh c0)); auto.
      intros x o2 x2 Hx Hstep. apply (IHs _ _ _ _ _ Hnil) in Hstep.
      assert (m_eh x2 = m_eh c0) by congruence.
      now destruct o2. }
    destruct m as [|t ex].
    + eapply Hloop; [reflexivity|exact Hex].
    + destruct (exec PH AH s fuel (Seek t ex) c0) as [o1 c1] eqn:H1.
      apply (IHs _ _ _ _ _ Hnil) in H1.
      destruct o1; try (inversion Hex; subst; exact H1).
      eapply Hloop; eauto.
  - split_run Hex; reflexivity.
  - split_run Hex; reflexivity.
  - unfold_steps Hex. simpl in Hex. split_run Hex; reflexivity.
  - unfold_steps Hex. simpl in Hex. split_run Hex; reflexivity.
  - destruct (try_labels s); discriminate.
Qed.

Lemma regions_labels (s : stmt St V E A R) :
  forall h prev cl, In (h, prev, cl) (regions s) -> In h (labels s).
Proof.
  induction s; intros h prev cl Hin; simpl in *;
    try rewrite in_app_iff in Hin; try contradiction;
    try rewrite in_app_iff.
  - destruct Hin; eauto.
  - destruct Hin; eauto.
  - eauto.
  - destruct Hin as [Hin|[Hin|[]]]; [eauto|].
    inversion Hin; subst. right. now left.
Qed.

(** Dispatching to the handler ordinal of a guarded region runs the
    selected handler from the state of the dispatch, with the saved
    ordinal put back in [m_eh]; if the handler does not run to its end,
    the way it leaves is the way the whole pass leaves. *)
Lemma exec_seek_handler (s : stmt St V E A R) :
  forall n cur fuel e (c : coroutine St P V E A) o c2 h prev cl hd,
    numbered s n cur ->
    In (h, prev, cl) (regions s) -> cl e = Some hd ->
    exec PH AH s fuel (Seek h (Some e)) c = (o, c2) ->
    exists oh ch,
      exec PH AH hd fuel Run (emit (EvHandler h e) (set_eh prev c)) = (oh, ch)
      /\ extends ch c2
      /\ (is_next oh = false -> (o, c2) = (oh, ch)).
Proof.
  induction s; intros n cur fuel err c0 o c2 h prev cl hd Hn Hin Hcl Hex;
    simpl in Hn, Hin, Hex; try rewrite in_app_iff in Hin;
    try contradiction.
  - destruct Hn as [Hn1 Hn2]. destruct Hin as [Hin|Hin].
    + destruct (exec PH AH s1 fuel (Seek h (Some err)) c0) as [o1 c1] eqn:H1.
      pose proof (exec_seek_found _ _ _ _ _ _ _
                    (regions_labels _ _ _ _ Hin) H1) as Hfound.
      destruct (IHs1 _ _ _ _ _ _ _ _ _ _ _ Hn1 Hin Hcl H1)
        as (oh & ch & Hh & Hext & Hleave).
      exists oh, ch. split; [exact Hh|].
      destruct o1; try discriminate;
        try (inversion Hex; subst; split; [exact Hext|exact Hleave]).
      split.
      * eapply extends_trans; [exact Hext|eapply exec_extends; eauto].
      * intros Hno. specialize (Hleave Hno). inversion Hleave; subst.
        discriminate.
    + rewrite exec_seek_miss in Hex; [eapply IHs2; eauto|].
      intros Hl. apply (labels_range _ _ _ _ Hn1) in Hl.
      apply regions_labels, (labels_range _ _ _ _ Hn2) in Hin. lia.
  - destruct Hn as [Hn1 Hn2]. destruct Hin as [Hin|Hin].
    + destruct (exec PH AH s1 fuel (Seek h (Some err)) c0) as [o1 c1] eqn:H1.
      pose proof (exec_seek_found _ _ _ _ _ _ _
                    (regions_labels _ _ _ _ Hin) H1) as Hfound.
      destruct (IHs1 _ _ _ _ _ _ _ _ _ _ _ Hn1 Hin Hcl H1)
        as (oh & ch & Hh & Hext & Hleave).
      exists oh, ch. split; [exact Hh|].
      destruct o1; try discriminate;
        inversion Hex; subst; (split; [exact Hext|exact Hleave]).
    + rewrite exec_seek_miss in Hex; [eapply IHs2; eauto|].
      intros Hl. apply (labels_range _ _ _ _ Hn1) in Hl.
      apply regions_labels, (labels_range _ _ _ _ Hn2) in Hin. lia.
  - destruct (exec PH AH s fuel (Seek h (Some err)) c0) as [o1 c1] eqn:H1.
    pose proof (exec_seek_found _ _ _ _ _ _ _
                  (regions_labels _ _ _ _ Hin) H1) as Hfound.
    destruct (IHs _ _ _ _ _ _ _ _ _ _ _ Hn Hin Hcl H1)
      as (oh & ch & Hh & Hext & Hleave).
    exists oh, ch. split; [exact Hh|].
    destruct o1; try discriminate;
      try (inversion Hex; subst; split; [exact Hext|exact Hleave]).
    split.
    * eapply extends_trans; [exact Hext|].
      apply (exec_extends (While c s) fuel Run c1 o c2). exact Hex.
    * intros Hno. specialize (Hleave Hno). inversion Hleave; subst.
      discriminate.
  - destruct Hn as (-> & -> & Hb & Hplain). destruct Hin as [Hin|Hin].
    + destruct (exec PH AH s fuel (Seek h (Some err)) c0) as [o1 c1] eqn:H1.
      pose proof (exec_seek_found _ _ _ _ _ _ _
                    (regions_labels _ _ _ _ Hin) H1) as Hfound.
      destruct (IHs _ _ _ _ _ _ _ _ _ _ _ Hb Hin Hcl H1)
        as (oh & ch & Hh & Hext & Hleave).
      exists oh, ch. split; [exact Hh|].
      destruct o1; try discriminate;
        inversion Hex; subst; (split; [exact Hext|exact Hleave]).
    + destruct Hin as [Hin|[]]. inversion Hin; subst.
      rewrite exec_seek_miss in Hex.
      * rewrite Z.eqb_refl, Hcl in Hex.
        exists o, c2. split; [exact Hex|]. split; [apply extends_refl|].
        reflexivity.
      * intros Hl. apply (labels_range _ _ _ _ Hb) in Hl. lia.
Qed.

(** Entering a guarded region installs its handler ordinal. *)
Lemma try_enter_installs (h prev : Z) (b : stmt St V E A R)
  (cl : E -> option (stmt St V E A R)) (fuel : nat)
  (c : coroutine St P V E A) :
  exec PH AH (COZ_TRY h prev b cl) fuel Run c
  = exec PH AH b fuel Run (set_eh h c).
Proof. reflexivity. Qed.

(** A region whose body runs to its end leaves its own handler ordinal in
    [m_eh]: nothing is written on the way out. *)
Lemma try_leave_keeps_handler (h prev : Z) (b : stmt St V E A R)
  (cl : E -> option (stmt St V E A R)) (fuel : nat)
  (c c' : coroutine St P V E A) :
  try_labels b = [] ->
  exec PH AH (COZ_TRY h prev b cl) fuel Run c = (Next, c') ->
  m_eh c' = h.
Proof.
  intros Hnil Hex. simpl in Hex.
  now apply (exec_keeps_eh _ _ _ _ _ _ Hnil) in Hex.
Qed.

(** When no clause matches, [COZ_CATCH] has put the saved ordinal back
    before the error leaves the body again, so the engine dispatches to
    the enclosing handler next. *)
Lemma catch_no_match_reraises (h prev : Z) (b : stmt St V E A R)
  (cl : E -> option (stmt St V E A R)) (fuel : nat) (e : E)
  (c : coroutine St P V E A) :
  ~ In h (labels b) -> cl e = None ->
  exec PH AH (COZ_TRY h prev b cl) fuel (Seek h (Some e)) c
  = (Raise e, set_eh prev c).
Proof.
  intros Hnot Hcl. simpl. rewrite exec_seek_miss by exact Hnot.
  now rewrite Z.eqb_refl, Hcl.
Qed.

(** The catch clause of [COZ_END].  When an error leaves the body and no
    handler is registered ([m_eh] is the sentinel), the engine sets
    [m_next] to the sentinel, hands the error to [unhandled_exception]
    and runs [finalize] exactly
    once; the call returns, or throws what the hook throws.  When the
    handler of a guarded region is registered and one of its clauses
    matches, nothing of that happens: the engine dispatches again and the
    next thing to run is the matching handler, entered with the error and
    with the saved ordinal back in [m_eh]; what follows in the trace
    belongs to the handler and to the code after it.  An error raised by
    the body of a region (with no region nested in it) finds that region's
    ordinal in [m_eh]. *)
Lemma exception_dispatch (body : stmt St V E A R) (fuel n : nat)
  (ex : option E) (c c1 : coroutine St P V E A) (e : E) :
  coz_switch PH AH body fuel ex c = (Raise e, c1) ->
  (m_eh c1 = SENTINEL ->
   exists c' evs,
     coz_retry PH AH body fuel (S n) ex c
     = match snd (unhandled_exception PH e (promise c1)) with
       | None => Returned c'
       | Some e' => Threw e' c'
       end /\
     m_next c' = SENTINEL /\
     trace c' = trace c1 ++ evs /\
     evs = [EvUnhandled e; EvDtorState; EvFinalize] /\
     count_ev is_finalize evs = 1%nat /\
     count_ev is_unhandled evs = 1%nat /\
     promise c' = finalize PH (fst (unhandled_exception PH e (promise c1)))) /\
  (forall h prev cl hd,
     coz_body body -> m_eh c1 = h ->
     In (h, prev, cl) (regions body) -> cl e = Some hd ->
     coz_retry PH AH body fuel (S n) ex c
     = coz_retry PH AH body fuel n (Some e) (set_next h c1) /\
     forall o c2,
       coz_dispatch PH AH body fuel (Some e) (set_next h c1) = (o, c2) ->
       exists oh ch evs,
         exec PH AH hd fuel Run
              (emit (EvHandler h e) (set_eh prev (set_next h c1))) = (oh, ch)
         /\ (is_next oh = false -> (o, c2) = (oh, ch))
         /\ trace c2 = trace c1 ++ EvHandler h e :: evs) /\
  (forall h prev b cl fuel' (c0 c0' : coroutine St P V E A) e',
     try_labels b = [] ->
     exec PH AH (COZ_TRY h prev b cl) fuel' Run c0 = (Raise e', c0') ->
     m_eh c0' = h).
Proof.
  intros Hsw. split; [|split].
  - intros Heh. simpl. rewrite Hsw. simpl m_next. rewrite Heh.
    rewrite Z.eqb_refl. simpl. unfold coz_unhandled.
    destruct (unhandled_exception PH e (promise (emit (EvUnhandled e)
               (set_next SENTINEL c1)))) as [p thrown] eqn:Hu.
    simpl in Hu. rewrite Hu. simpl.
    eexists. exists [EvUnhandled e; EvDtorState; EvFinalize].
    split; [destruct thrown; reflexivity|].
    simpl. rewrite <- !app_assoc. repeat split; reflexivity.
  - intros h prev cl hd Hb Heh Hin Hcl.
    pose proof (coz_body_labels _ _ Hb (regions_labels _ _ _ _ Hin)) as Hh.
    split.
    + simpl. rewrite Hsw. simpl m_next. rewrite Heh.
      destruct (Z.eqb_spec h SENTINEL); [lia|]. reflexivity.
    + intros o c2 Hd. unfold coz_dispatch in Hd. simpl m_next in Hd.
      destruct (Z.eqb_spec h 0); [lia|].
      destruct (exec_seek_handler _ _ _ _ _ _ _ _ _ _ _ _
                  (proj1 Hb) Hin Hcl Hd) as (oh & ch & Hh1 & Hext & Hleave).
      pose proof (exec_extends _ _ _ _ _ _ Hh1) as [ev1 Hev1].
      destruct Hext as [ev2 Hev2].
      exists oh, ch, (ev1 ++ ev2). split; [exact Hh1|]. split; [exact Hleave|].
      rewrite Hev2, Hev1. simpl. rewrite <- !app_assoc. reflexivity.
  - intros h prev b cl fuel' c0 c0' e' Hnil Hex. simpl in Hex.
    now apply (exec_keeps_eh _ _ _ _ _ _ Hnil) in Hex.
Qed.

(** *** A body without suspension points *)

Lemma plain_no_labels (s : stmt St V E A R) :
  plain s -> susp_points s = [] /\ try_labels s = [].
Proof.
  induction s; simpl; intros Hp; try tauto.
  - destruct Hp as [H1 H2]. apply IHs1 in H1. apply IHs2 in H2.
    destruct H1 as [-> ->], H2 as [-> ->]. now split.
  - destruct Hp as [H1 H2]. apply IHs1 in H1. apply IHs2 in H2.
    destruct H1 as [-> ->], H2 as [-> ->]. now split.
Qed.

Lemma run_completes (s : stmt St V E A R) :
  forall (H : Z -> Prop) fuel (c : coroutine St P V E A) o c',
    susp_points s = [] ->
    (forall h, In h (try_labels s) -> H h) ->
    H (m_eh c) ->
    exec PH AH s fuel Run c = (o, c') -> completes H o c'.
Proof.
  unfold completes.
  induction s; intros H fuel c0 o c' Hns Hin Hc Hex;
    simpl in Hns, Hin, Hex;
    try (apply app_eq_nil in Hns; destruct Hns as [Hns1 Hns2]);
    try discriminate.
  - split_run Hex; repeat split; auto; discriminate.
  - split_run Hex; repeat split; auto; discriminate.
  - destruct (exec PH AH s1 fuel Run c0) as [o1 c1] eqn:H1.
    pose proof (exec_run_not_seeking _ _ _ _ _ H1) as Hseek.
    assert (Hin1 : forall h, In h (try_labels s1) -> H h)
      by (intros; apply Hin, in_app_iff; tauto).
    assert (Hin2 : forall h, In h (try_labels s2) -> H h)
      by (intros; apply Hin, in_app_iff; tauto).
    apply (IHs1 H _ _ _ _ Hns1 Hin1 Hc) in H1.
    destruct o1; try discriminate;
      try (inversion Hex; subst; exact H1).
    destruct H1 as (_ & _ & Hc1). eapply IHs2; eauto.
  - assert (Hin1 : forall h, In h (try_labels s1) -> H h)
      by (intros; apply Hin, in_app_iff; tauto).
    assert (Hin2 : forall h, In h (try_labels s2) -> H h)
      by (intros; apply Hin, in_app_iff; tauto).
    destruct (c (m_state c0)).
    + exact (IHs1 H fuel (emit EvBody c0) o c' Hns1 Hin1 Hc Hex).
    + exact (IHs2 H fuel (emit EvBody c0) o c' Hns2 Hin2 Hc Hex).
  - revert Hex.
    apply (while_loop_ind (fun x => H (m_eh x))
             (fun o x => is_suspend o = false /\
                         (o = Finalize -> m_next x = SENTINEL) /\
                         H (m_eh x))); auto.
    + intros x Hx. repeat split; auto; discriminate.
    + intros x Hx. repeat split; auto; discriminate.
    + intros x o2 x2 Hx Hstep.
      apply (IHs H _ _ _ _ Hns Hin Hx) in Hstep.
      destruct o2; simpl; tauto.
  - unfold_steps Hex. destruct r; simpl in Hex; split_run Hex; simpl;
      repeat split; auto; discriminate.
  - apply (IHs H fuel (set_eh curr_eh c0) o c' Hns); auto.
    + intros h Hh. apply Hin, in_app_iff. tauto.
    + simpl. apply Hin, in_app_iff. right. now left.
Qed.

Lemma exec_completes (s : stmt St V E A R) :
  forall (H : Z -> Prop) n cur fuel m (c : coroutine St P V E A) o c',
    susp_points s = [] -> numbered s n cur ->
    H cur -> (forall h, In h (try_labels s) -> H h) ->
    H (m_eh c) ->
    exec PH AH s fuel m c = (o, c') -> completes H o c'.
Proof.
  intros H n cur fuel m. destruct m as [|t ex].
  { intros c o c' Hns _ _ Hin Hc Hex. eapply run_completes; eauto. }
  revert n cur. unfold completes.
  induction s; intros n cur c0 o c' Hns Hn Hcur Hin Hc Hex;
    simpl in Hns, Hn, Hin, Hex;
    try (apply app_eq_nil in Hns; destruct Hns as [Hns1 Hns2]);
    try discriminate.
  - inversion Hex; subst. repeat split; auto; discriminate.
  - inversion Hex; subst. repeat split; auto; discriminate.
  - destruct Hn as [Hn1 Hn2].
    assert (Hin1 : forall h, In h (try_labels s1) -> H h)
      by (intros; apply Hin, in_app_iff; tauto).
    assert (Hin2 : forall h, In h (try_labels s2) -> H h)
      by (intros; apply Hin, in_app_iff; tauto).
    destruct (exec PH AH s1 fuel (Seek t ex) c0) as [o1 c1] eqn:H1.
    apply (IHs1 _ _ _ _ _ Hns1 Hn1 Hcur Hin1 Hc) in H1.
    destruct o1; try (inversion Hex; subst; exact H1);
      destruct H1 as (_ & _ & Hc1).
    + eapply (run_completes s2 H); eauto.
    + eapply IHs2; eauto.
  - destruct Hn as [Hn1 Hn2].
    assert (Hin1 : forall h, In h (try_labels s1) -> H h)
      by (intros; apply Hin, in_app_iff; tauto).
    assert (Hin2 : forall h, In h (try_labels s2) -> H h)
      by (intros; apply Hin, in_app_iff; tauto).
    destruct (exec PH AH s1 fuel (Seek t ex) c0) as [o1 c1] eqn:H1.
    apply (IHs1 _ _ _ _ _ Hns1 Hn1 Hcur Hin1 Hc) in H1.
    destruct o1; try (inversion Hex; subst; exact H1).
    destruct H1 as (_ & _ & Hc1). eapply IHs2; eauto.
  - destruct (exec PH AH s fuel (Seek t ex) c0) as [o1 c1] eqn:H1.
    apply (IHs _ _ _ _ _ Hns Hn Hcur Hin Hc) in H1.
    destruct o1; try (inversion Hex; subst; exact H1).
    destruct H1 as (_ & _ & Hc1).
    apply (run_completes (While c s) H fuel c1 o c'); auto.
  - inversion Hex; subst. repeat split; auto; discriminate.
  - destruct Hn as (-> & -> & Hb & Hplain).
    assert (Hinb : forall h, In h (try_labels s) -> H h)
      by (intros; apply Hin, in_app_iff; tauto).
    assert (Hn' : H n) by (apply Hin, in_app_iff; right; now left).
    destruct (exec PH AH s fuel (Seek t ex) c0) as [o1 c1] eqn:H1.
    apply (IHs _ _ _ _ _ Hns Hb Hn' Hinb Hc) in H1.
    destruct o1; try (inversion Hex; subst; exact H1).
    destruct (t =? n); [|inversion Hex; subst; exact H1].
    destruct ex as [err|];
      [|inversion Hex; subst; repeat split; try discriminate; tauto].
    destruct (clauses err) as [hd|] eqn:Hcl;
      [|inversion Hex; subst; repeat split; auto; discriminate].
    apply Hplain in Hcl. apply plain_no_labels in Hcl.
    destruct Hcl as [Hp1 Hp2].
    apply (run_completes hd H) in Hex; auto.
    rewrite Hp2. intros h [].
Qed.

Lemma try_labels_labels (s : stmt St V E A R) (h : Z) :
  In h (try_labels s) -> In h (labels s).
Proof.
  induction s; simpl; try rewrite !in_app_iff; tauto.
Qed.

(** A body without suspension points, entered at its top or at one of its
    handlers, leaves the resume ordinal at the sentinel whenever the call
    comes back. *)
Lemma retry_completes (body : stmt St V E A R) (fuel : nat) :
  coz_body body -> susp_points body = [] ->
  forall n ex (c : coroutine St P V E A),
    valid_eh body (m_eh c) ->
    m_next c = 0 \/ In (m_next c) (try_labels body) ->
    match coz_retry PH AH body fuel n ex c with
    | Returned c' | Threw _ c' => m_next c' = SENTINEL
    | _ => True
    end.
Proof.
  intros Hb Hns.
  assert (Hcatch : forall n e (c1 : coroutine St P V E A),
    (forall ex c, valid_eh body (m_eh c) ->
       m_next c = 0 \/ In (m_next c) (try_labels body) ->
       match coz_retry PH AH body fuel n ex c with
       | Returned c' | Threw _ c' => m_next c' = SENTINEL
       | _ => True
       end) ->
    valid_eh body (m_eh c1) ->
    match (if negb (m_next (set_next (m_eh c1) c1) =? SENTINEL)
           then coz_retry PH AH body fuel n (Some e) (set_next (m_eh c1) c1)
           else coz_unhandled PH e (set_next (m_eh c1) c1)) with
    | Returned c' | Threw _ c' => m_next c' = SENTINEL
    | _ => True
    end).
  { intros n e c1 IH Hv. simpl m_next.
    destruct (Z.eqb_spec (m_eh c1) SENTINEL) as [Heq|Hne]; simpl.
    - unfold coz_unhandled.
      destruct (unhandled_exception PH e _) as [p [e'|]]; simpl; exact Heq.
    - apply IH; simpl; [exact Hv|]. destruct Hv; [contradiction|tauto]. }
  induction n as [|n IH]; intros ex c Hv Hentry; simpl; [exact I|].
  unfold coz_switch.
  destruct (coz_dispatch PH AH body fuel ex c) as [o c1] eqn:Hd.
  assert (Hgood : completes (valid_eh body) o c1 /\ is_seeking o = false).
  { unfold coz_dispatch in Hd. destruct (Z.eqb_spec (m_next c) 0) as [H0|H0].
    - split; [|eapply exec_run_not_seeking; eauto].
      eapply run_completes; eauto. intros h Hh. now right.
    - destruct Hentry as [|Hentry]; [contradiction|].
      split; [|eapply exec_seek_found; eauto using try_labels_labels].
      eapply (exec_completes body (valid_eh body) 1 SENTINEL); eauto.
      + apply Hb.
      + now left.
      + intros h Hh. now right. }
  destruct Hgood as [(Hsusp & Hfin & Heh) Hseek].
  destruct o; try discriminate; try exact I.
  - unfold coz_end, implicit_return, call_return_void. simpl.
    destruct (return_void PH) as [rv|]; [|exact I].
    destruct (rv (promise c1)) as [p|e]; [reflexivity|].
    apply (Hcatch n e (emit EvReturnVoid (set_next SENTINEL c1)) IH). exact Heh.
  - simpl. now apply Hfin.
  - now apply Hcatch.
Qed.

(** Without loops no statement runs out of fuel. *)
Lemma loop_free_exec (s : stmt St V E A R) :
  forall fuel m (c : coroutine St P V E A) c',
    loop_free s -> exec PH AH s fuel m c <> (OutOfFuel, c').
Proof.
  induction s as [ | f | s1 s2 IH1 IH2 | cnd s1 s2 IH1 IH2 | cnd b IHb
                 | ip eh sa expr | ip eh expr | ip eh sa expr f | r
                 | h prev b cl IHb IHcl ] using stmt_induction;
    intros fuel m c0 c' Hlf Hex; simpl in Hlf, Hex.
  - split_run Hex.
  - split_run Hex.
  - destruct Hlf as [Hl1 Hl2].
    destruct (exec PH AH s1 fuel m c0) as [o1 c1] eqn:H1.
    destruct o1; try discriminate;
      try (eapply IH2; eauto; fail).
    inversion Hex; subst. eapply IH1; eauto.
  - destruct Hlf as [Hl1 Hl2]. destruct m as [|t ex].
    + destruct (cnd (m_state c0)); [eapply IH1|eapply IH2]; eauto.
    + destruct (exec PH AH s1 fuel (Seek t ex) c0) as [o1 c1] eqn:H1.
      destruct o1; try discriminate;
        try (eapply IH2; eauto; fail).
      inversion Hex; subst. eapply IH1; eauto.
  - contradiction.
  - split_run Hex.
  - split_run Hex.
  - unfold_steps Hex. simpl in Hex. split_run Hex.
  - unfold_steps Hex. simpl in Hex. split_run Hex.
  - destruct Hlf as [Hlb Hlc]. destruct m as [|t ex].
    + eapply IHb; eauto.
    + destruct (exec PH AH b fuel (Seek t ex) c0) as [o1 c1] eqn:H1.
      destruct o1; try discriminate.
      * destruct (t =? h); [|discriminate].
        destruct ex as [err|]; [|discriminate].
        specialize (Hlc err).
        destruct (cl err) as [hd|] eqn:Hcl; [|discriminate].
        eapply (IHcl _ _ Hcl); eauto.
      * inversion Hex; subst. eapply IHb; eauto.
Qed.

(** In a body without suspension points, a statement entered from its top
    leaves in [m_eh] what it found there or the ordinal of one of its own
    regions. *)
Lemma run_eh_step (s : stmt St V E A R) (fuel : nat)
  (c c' : coroutine St P V E A) (o : outcome E) :
  susp_points s = [] ->
  exec PH AH s fuel Run c = (o, c') ->
  m_eh c' = m_eh c \/ In (m_eh c') (try_labels s).
Proof.
  intros Hns Hex.
  apply (run_completes s (fun x => x = m_eh c \/ In x (try_labels s)))
    in Hex; auto.
  apply Hex.
Qed.

Lemma app_eq_app_cons (X : Type) (l l' l1 l2 : list X) (t : X) :
  l ++ l' = l1 ++ t :: l2 ->
  (exists a, l = l1 ++ t :: a /\ l2 = a ++ l') \/
  (exists b, l1 = l ++ b /\ l' = b ++ t :: l2).
Proof.
  revert l1. induction l as [|x l IH]; intros l1 Heq; simpl in Heq.
  - right. exists l1. now split.
  - destruct l1 as [|y l1]; simpl in Heq; inversion Heq; subst.
    + left. exists l. now split.
    + destruct (IH _ H1) as [(a & -> & ->)|(b & -> & ->)].
      * left. exists a. now split.
      * right. exists b. now split.
Qed.

(** Dispatching to a handler of a loop-free body without suspension
    points moves [m_eh] on: to the enclosing region, or to a region that
    comes later in the body. *)
Lemma seek_advances (s : stmt St V E A R) :
  forall n cur fuel t ex (c : coroutine St P V E A) o c' l1 l2,
    loop_free s -> susp_points s = [] -> numbered s n cur ->
    try_labels s = l1 ++ t :: l2 ->
    exec PH AH s fuel (Seek t ex) c = (o, c') ->
    o = Fatal \/ m_eh c' = cur \/ In (m_eh c') l2.
Proof.
  induction s; intros n cur fuel t ex c0 o c' l1 l2 Hlf Hns Hn Hl Hex;
    simpl in Hlf, Hns, Hn, Hl, Hex;
    try (apply app_eq_nil in Hns; destruct Hns as [Hns1 Hns2]);
    try (destruct l1; discriminate); try contradiction.
  - destruct Hlf as [Hlf1 Hlf2]. destruct Hn as [Hn1 Hn2].
    destruct (app_eq_app_cons _ _ _ _ _ _ Hl) as [(a & Ha & ->)|(b & -> & Hb)].
    + destruct (exec PH AH s1 fuel (Seek t ex) c0) as [o1 c1] eqn:H1.
      assert (Hfound : is_seeking o1 = false).
      { eapply exec_seek_found; [|exact H1].
        apply try_labels_labels. rewrite Ha. apply in_elt. }
      pose proof (IHs1 _ _ _ _ _ _ _ _ _ _ Hlf1 Hns1 Hn1 Ha H1) as Hadv.
      destruct o1; try discriminate;
        try (inversion Hex; subst;
             destruct Hadv as [Hd|[Hd|Hd]];
             [now left|right; now left|right; right; apply in_app_iff; tauto]).
      destruct Hadv as [Hd|Hadv]; [discriminate|].
      destruct (run_eh_step _ _ _ _ _ Hns2 Hex) as [Hk|Hk].
      * rewrite Hk. destruct Hadv; [right; now left|].
        right; right; apply in_app_iff; tauto.
      * right; right; apply in_app_iff; tauto.
    + rewrite exec_seek_miss in Hex; [eapply IHs2; eauto|].
      intros Hin. apply (labels_range _ _ _ _ Hn1) in Hin.
      assert (Hin2 : In t (labels s2)).
      { apply try_labels_labels. rewrite Hb. apply in_elt. }
      apply (labels_range _ _ _ _ Hn2) in Hin2. lia.
  - destruct Hlf as [Hlf1 Hlf2]. destruct Hn as [Hn1 Hn2].
    destruct (app_eq_app_cons _ _ _ _ _ _ Hl) as [(a & Ha & ->)|(b & -> & Hb)].
    + destruct (exec PH AH s1 fuel (Seek t ex) c0) as [o1 c1] eqn:H1.
      assert (Hfound : is_seeking o1 = false).
      { eapply exec_seek_found; [|exact H1].
        apply try_labels_labels. rewrite Ha. apply in_elt. }
      pose proof (IHs1 _ _ _ _ _ _ _ _ _ _ Hlf1 Hns1 Hn1 Ha H1) as Hadv.
      destruct o1; try discriminate;
        inversion Hex; subst;
        (destruct Hadv as [Hd|[Hd|Hd]];
         [now left|right; now left|right; right; apply in_app_iff; tauto]).
    + rewrite exec_seek_miss in Hex; [eapply IHs2; eauto|].
      intros Hin. apply (labels_range _ _ _ _ Hn1) in Hin.
      assert (Hin2 : In t (labels s2)).
      { apply try_labels_labels. rewrite Hb. apply in_elt. }
      apply (labels_range _ _ _ _ Hn2) in Hin2. lia.
  - destruct Hlf as [Hlfb Hlfc]. destruct Hn as (-> & -> & Hnb & Hplain).
    destruct (app_eq_app_cons _ _ _ _ _ _ Hl) as [(a & Ha & ->)|(b & -> & Hb)].
    + destruct (exec PH AH s fuel (Seek t ex) c0) as [o1 c1] eqn:H1.
      assert (Hfound : is_seeking o1 = false).
      { eapply exec_seek_found; [|exact H1].
        apply try_labels_labels. rewrite Ha. apply in_elt. }
      pose proof (IHs _ _ _ _ _ _ _ _ _ _ Hlfb Hns Hnb Ha H1) as Hadv.
      destruct o1; try discriminate;
        inversion Hex; subst;
        (destruct Hadv as [Hd|[Hd|Hd]];
         [now left
         |right; right; apply in_app_iff; right; left; now symmetry
         |right; right; apply in_app_iff; tauto]).
    + destruct b as [|x b]; simpl in Hb.
      * inversion Hb; subst.
        rewrite exec_seek_miss in Hex.
        -- rewrite Z.eqb_refl in Hex.
           destruct ex as [err|]; [|inversion Hex; now left].
           destruct (clauses err) as [hd|] eqn:Hcl.
           ++ apply Hplain, plain_no_labels in Hcl.
              apply (exec_keeps_eh _ _ _ _ _ _ (proj2 Hcl)) in Hex.
              right; left. exact Hex.
           ++ inversion Hex; subst. right; now left.
        -- intros Hin. apply (labels_range _ _ _ _ Hnb) in Hin. lia.
      * inversion Hb as [[Hx Hnil]]. destruct b; discriminate.
Qed.

(** After an error, a loop-free body without suspension points is
    re-entered at most once per region that lies after the handler
    dispatched to. *)
Lemma retry_terminates (body : stmt St V E A R) (fuel : nat) :
  coz_body body -> loop_free body -> susp_points body = [] ->
  forall n l1 h l2 e (c : coroutine St P V E A),
    try_labels body = l1 ++ h :: l2 ->
    (length l2 < n)%nat -> m_next c = h ->
    coz_retry PH AH body fuel n (Some e) c <> Diverged.
Proof.
  intros Hb Hlf Hns.
  induction n as [|n IH]; intros l1 h l2 e c Hl Hlen Hh; [lia|].
  assert (Hlab : 1 <= h < SENTINEL).
  { apply (coz_body_labels _ _ Hb), try_labels_labels.
    rewrite Hl. apply in_elt. }
  assert (Hcatch : forall e' (c1 : coroutine St P V E A),
    m_eh c1 = SENTINEL \/ In (m_eh c1) l2 ->
    (if negb (m_next (set_next (m_eh c1) c1) =? SENTINEL)
     then coz_retry PH AH body fuel n (Some e') (set_next (m_eh c1) c1)
     else coz_unhandled PH e' (set_next (m_eh c1) c1)) <> Diverged).
  { intros e' c1 Hc1. simpl m_next.
    destruct (Z.eqb_spec (m_eh c1) SENTINEL) as [Heq|Hne]; simpl.
    - unfold coz_unhandled.
      destruct (unhandled_exception PH e' _) as [p [x|]]; discriminate.
    - destruct Hc1 as [|Hin]; [contradiction|].
      destruct (in_split _ _ Hin) as (a & b & ->).
      apply (IH (l1 ++ h :: a) (m_eh c1) b).
      + rewrite Hl, <- app_assoc. reflexivity.
      + rewrite length_app in Hlen. simpl in Hlen. lia.
      + reflexivity. }
  simpl. unfold coz_switch.
  destruct (coz_dispatch PH AH body fuel (Some e) c) as [o c1] eqn:Hd.
  unfold coz_dispatch in Hd. rewrite Hh in Hd.
  destruct (Z.eqb_spec h 0) as [|_]; [lia|].
  pose proof (seek_advances _ _ _ _ _ _ _ _ _ _ _ Hlf Hns (proj1 Hb) Hl Hd)
    as Hadv.
  destruct o; try discriminate.
  - destruct Hadv as [|Hadv]; [discriminate|].
    unfold coz_end, implicit_return, call_return_void. simpl.
    destruct (return_void PH) as [rv|]; [|discriminate].
    destruct (rv (promise c1)) as [p|e']; [discriminate|].
    apply (Hcatch e' (emit EvReturnVoid (set_next SENTINEL c1))). exact Hadv.
  - destruct Hadv as [|Hadv]; [discriminate|]. now apply Hcatch.
  - intros _. eapply loop_free_exec; eauto.
Qed.

Lemma registrations_nil (s : stmt St V E A R) :
  susp_points s = [] -> registrations s = [].
Proof.
  induction s; simpl; intros Hns; try reflexivity; try discriminate;
    try (apply app_eq_nil in Hns; destruct Hns as [H1 H2];
         rewrite IHs1, IHs2; auto); auto.
Qed.

(** *** Life cycle of the resume ordinal *)


(** ** Further properties of the engine *)

(** *** The finalizer runs last, and once *)

Lemma count_ev_app (f : event V E -> bool) (l1 l2 : list (event V E)) :
  count_ev f (l1 ++ l2) = (count_ev f l1 + count_ev f l2)%nat.
Proof. unfold count_ev. now rewrite filter_app, length_app. Qed.

Lemma quietly_refl (c : coroutine St P V E A) : quietly c c.
Proof. exists []. split; [now rewrite app_nil_r|reflexivity]. Qed.

Lemma quietly_trans (c1 c2 c3 : coroutine St P V E A) :
  quietly c1 c2 -> quietly c2 c3 -> quietly c1 c3.
Proof.
  intros (e1 & H1 & Q1) (e2 & H2 & Q2). exists (e1 ++ e2). split.
  - now rewrite H2, H1, app_assoc.
  - rewrite count_ev_app. lia.
Qed.

Ltac solve_quiet :=
  unfold quietly; simpl;
  first [ exists []; split; [now rewrite app_nil_r|reflexivity]
        | eexists; split; [rewrite <- ?app_assoc; reflexivity|reflexivity] ].

(** The body itself never runs the finalizer and never calls
    [unhandled_exception]. *)
Lemma exec_quietly (s : stmt St V E A R) :
  forall fuel m (c : coroutine St P V E A) o c',
    exec PH AH s fuel m c = (o, c') -> quietly c c'.
Proof.
  induction s as [ | f | s1 s2 IH1 IH2 | cnd s1 s2 IH1 IH2 | cnd b IHb
                 | ip eh sa expr | ip eh expr | ip eh sa expr f | r
                 | h prev b cl IHb IHcl ] using stmt_induction;
    intros fuel m c0 o c' Hex; simpl in Hex.
  - split_run Hex; solve_quiet.
  - split_run Hex; solve_quiet.
  - destruct (exec PH AH s1 fuel m c0) as [o1 c1] eqn:H1.
    apply IH1 in H1.
    destruct o1; try (inversion Hex; subst; exact H1);
      (eapply quietly_trans; [exact H1|eapply IH2; eauto]).
  - destruct m as [|t ex].
    + destruct (cnd (m_state c0));
        [apply IH1 in Hex|apply IH2 in Hex];
        (eapply quietly_trans; [|exact Hex]); solve_quiet.
    + destruct (exec PH AH s1 fuel (Seek t ex) c0) as [o1 c1] eqn:H1.
      apply IH1 in H1.
      destruct o1; try (inversion Hex; subst; exact H1).
      eapply quietly_trans; [exact H1|eapply IH2; eauto].
  - assert (Hloop : forall c1 o c', quietly c0 c1 ->
              while_loop cnd (exec PH AH b fuel Run) fuel c1 = (o, c') ->
              quietly c0 c').
    { intros c1 o1 c1' Hc1.
      apply (while_loop_ind (quietly c0) (fun _ c => quietly c0 c)); auto.
      - intros c Hc. eapply quietly_trans; [exact Hc|]. solve_quiet.
      - intros c o2 c2 Hc Hstep. apply IHb in Hstep.
        assert (quietly c0 c2) by (eapply quietly_trans; eauto).
        now destruct o2. }
    destruct m as [|t ex].
    + eapply Hloop; [apply quietly_refl|exact Hex].
    + destruct (exec PH AH b fuel (Seek t ex) c0) as [o1 c1] eqn:H1.
      apply IHb in H1.
      destruct o1; try (inversion Hex; subst; exact H1).
      eapply Hloop; eauto.
  - split_run Hex; solve_quiet.
  - split_run Hex; solve_quiet.
  - unfold_steps Hex. simpl in Hex. split_run Hex; solve_quiet.
  - unfold_steps Hex. simpl in Hex. split_run Hex; solve_quiet.
  - destruct m as [|t ex].
    + apply IHb in Hex. exact Hex.
    + destruct (exec PH AH b fuel (Seek t ex) c0) as [o1 c1] eqn:H1.
      apply IHb in H1.
      destruct o1; try (inversion Hex; subst; exact H1).
      destruct (t =? h); [|inversion Hex; subst; exact H1].
      destruct ex as [e|]; [|inversion Hex; subst; exact H1].
      destruct (cl e) as [hd|] eqn:Hcl.
      * apply (IHcl _ _ Hcl) in Hex.
        eapply quietly_trans; [exact H1|].
        eapply quietly_trans; [|exact Hex]. solve_quiet.
      * inversion Hex; subst.
        eapply quietly_trans; [exact H1|]. solve_quiet.
Qed.

Lemma is_exit_finalize (evs : list (event V E)) :
  count_ev is_exit evs = 0%nat ->
  count_ev is_finalize evs = 0%nat /\ count_ev is_unhandled evs = 0%nat.
Proof.
  induction evs as [|ev evs IH]; [now split|].
  unfold count_ev in *. simpl.
  destruct ev; simpl; try discriminate; auto.
Qed.

(** One pass through the [switch]: quiet, unless it ends at
    [_coz_finalize], where the finalizer is the last thing it does. *)
Lemma coz_switch_exits (body : stmt St V E A R) (fuel : nat) (ex : option E)
  (c c1 : coroutine St P V E A) (o : outcome E) :
  coz_switch PH AH body fuel ex c = (o, c1) ->
  exists evs,
    trace c1 = trace c ++ evs /\
    if match o with Finalize => true | _ => false end
    then finalized_last evs /\ count_ev is_unhandled evs = 0%nat
    else count_ev is_exit evs = 0%nat.
Proof.
  unfold coz_switch, coz_dispatch. intros Hsw.
  destruct (if m_next c =? 0 then exec PH AH body fuel Run c
            else exec PH AH body fuel (Seek (m_next c) ex) c)
    as [o0 c0] eqn:Hd.
  assert (Hq : quietly c c0).
  { destruct (m_next c =? 0); eapply exec_quietly; eauto. }
  destruct Hq as (evs & Ht & Hcount).
  destruct (is_exit_finalize _ Hcount) as [Hf Hu].
  destruct o0.
  - unfold coz_end, implicit_return, call_return_void in Hsw. simpl in Hsw.
    destruct (return_void PH) as [rv|].
    + destruct (rv (promise c0)) as [p|e]; inversion Hsw; subst; simpl.
      * exists ((evs ++ [EvReturnVoid]) ++ [EvDtorState; EvFinalize]).
        rewrite Ht, <- !app_assoc. split; [reflexivity|]. split.
        -- exists (evs ++ [EvReturnVoid]). rewrite <- !app_assoc.
           split; [reflexivity|]. rewrite count_ev_app, Hf. reflexivity.
        -- rewrite !count_ev_app, Hu. reflexivity.
      * exists (evs ++ [EvReturnVoid]). rewrite Ht, <- app_assoc.
        split; [reflexivity|]. rewrite count_ev_app, Hcount. reflexivity.
    + inversion Hsw; subst. exists evs. now split.
  - inversion Hsw; subst. exists evs. now split.
  - inversion Hsw; subst. exists evs. now split.
  - inversion Hsw; subst. simpl.
    exists (evs ++ [EvDtorState; EvFinalize]). rewrite Ht, <- !app_assoc.
    split; [reflexivity|]. split.
    + exists evs. now split.
    + rewrite count_ev_app, Hu. reflexivity.
  - inversion Hsw; subst. exists evs. now split.
  - inversion Hsw; subst. exists evs. now split.
  - inversion Hsw; subst. exists evs. now split.
Qed.

Lemma coz_retry_exits (body : stmt St V E A R) (fuel : nat) :
  forall n ex (c : coroutine St P V E A),
    exits_once c (coz_retry PH AH body fuel n ex c).
Proof.
  induction n as [|n IH]; intros ex c; simpl; [exact I|].
  destruct (coz_switch PH AH body fuel ex c) as [o c1] eqn:Hsw.
  destruct (coz_switch_exits _ _ _ _ _ _ Hsw) as (evs & Ht & Hshape).
  destruct o; simpl in Hshape; try exact I;
    try (exists evs; split; [exact Ht|now left]).
  - exists evs. split; [exact Ht|]. right. destruct Hshape as [Hl Hu].
    split; [exact Hl|]. rewrite Hu. lia.
  - destruct (is_exit_finalize _ Hshape) as [Hf Hu]. simpl m_next.
    destruct (m_eh c1 =? SENTINEL); simpl.
    + unfold coz_unhandled.
      destruct (unhandled_exception PH e _) as [p thrown]. simpl.
      assert (Hfin : finalized_last
                       (evs ++ [EvUnhandled e; EvDtorState; EvFinalize])).
      { exists (evs ++ [EvUnhandled e]). rewrite <- !app_assoc.
        split; [reflexivity|]. rewrite count_ev_app, Hf. reflexivity. }
      assert (Hone : count_ev is_unhandled
                       (evs ++ [EvUnhandled e; EvDtorState; EvFinalize])
                     = 1%nat).
      { rewrite count_ev_app, Hu. reflexivity. }
      destruct thrown as [e'|]; simpl;
        exists (evs ++ [EvUnhandled e; EvDtorState; EvFinalize]);
        rewrite Ht, <- !app_assoc; (split; [reflexivity|]).
      * now split.
      * right. split; [exact Hfin|]. rewrite Hone. lia.
    + specialize (IH (Some e) (set_next (m_eh c1) c1)).
      destruct (coz_retry PH AH body fuel n (Some e) (set_next (m_eh c1) c1))
        as [c'|e' c'| |]; simpl in *; try exact I.
      * destruct IH as (evs2 & Ht2 & Hs2).
        exists (evs ++ evs2). rewrite Ht2, Ht, <- !app_assoc.
        split; [reflexivity|].
        destruct Hs2 as [Hq|[(pre & -> & Hpre) Hu2]].
        -- left. rewrite count_ev_app. lia.
        -- right. split.
           ++ exists (evs ++ pre). rewrite app_assoc. split; [reflexivity|].
              rewrite count_ev_app. lia.
           ++ rewrite count_ev_app. lia.
      * destruct IH as (evs2 & Ht2 & (pre & -> & Hpre) & Hu2).
        exists (evs ++ (pre ++ [EvDtorState; EvFinalize])).
        rewrite Ht2, Ht, <- !app_assoc. split; [reflexivity|]. split.
        -- exists (evs ++ pre). rewrite app_assoc. split; [reflexivity|].
           rewrite count_ev_app. lia.
        -- rewrite count_ev_app. lia.
Qed.

(** X3.  Whatever the body, a call of [start], [resume] or [destroy] that
    enters the body and comes back has run the finalizer at most once, as
    the very last thing it did: after [finalize] no body code, no hook and
    no handler runs in that call.  [unhandled_exception] is called at most
    once, and a call that throws out of the body has called it and has run
    the finalizer.  [start] builds the state closure before it enters the
    body: when that constructor throws, [start] throws the same error and
    has run nothing, neither [unhandled_exception] nor the finalizer, and
    the instance is as it was. *)
Theorem finalizer_runs_last {Params : Type} (state_ctor : Params -> St + E)
  (body : stmt St V E A R) (fuel : nat) (params : Params)
  (c : coroutine St P V E A) :
  match state_ctor params with
  | inl st =>
      start_emplace PH AH state_ctor body fuel params c
      = start PH AH body fuel st c /\
      exits_once c (start_emplace PH AH state_ctor body fuel params c)
  | inr e =>
      start_emplace PH AH state_ctor body fuel params c = Threw e c
  end /\
  exits_once c (resume PH AH body fuel c) /\
  exits_once c (destroy PH AH body fuel c).
Proof.
  split; [|split].
  - unfold start_emplace. destruct (state_ctor params) as [st|e].
    + split; [reflexivity|].
      exact (coz_retry_exits body fuel fuel None (start_entry st c)).
    + reflexivity.
  - exact (coz_retry_exits body fuel fuel None c).
  - unfold destroy. destruct (m_next c =? SENTINEL); [exact I|].
    exact (coz_retry_exits body fuel fuel None
             (set_next (unsigned_wrap (m_next c + 1)) c)).
Qed.

(** *** States between calls *)

Lemma cleanup_labels_in (s : stmt St V E A R) (t : Z) :
  In t (cleanup_labels s) <-> exists k ip, In (k, ip, t) (susp_points s).
Proof.
  unfold cleanup_labels. rewrite in_map_iff. split.
  - intros ([[k ip] eh] & Heq & Hin). simpl in Heq. subst. eauto.
  - intros (k & ip & Hin). exists (k, ip, t). now split.
Qed.

Lemma cleanup_labels_labels (s : stmt St V E A R) (t : Z) :
  In t (cleanup_labels s) -> In t (labels s).
Proof.
  rewrite cleanup_labels_in. intros (k & ip & Hin).
  now apply susp_points_labels in Hin.
Qed.

(** A resume ordinal is never the cleanup ordinal of a suspension point,
    and neither is a handler ordinal. *)
Lemma resume_label_not_cleanup (s : stmt St V E A R) :
  forall n cur k ip eh,
    numbered s n cur -> In (k, ip, eh) (susp_points s) ->
    ~ In ip (cleanup_labels s).
Proof.
  unfold cleanup_labels.
  induction s; intros n cur k ip0 eh0 Hn Hin Hcl; simpl in Hn, Hin, Hcl;
    try rewrite map_app in Hcl;
    try rewrite in_app_iff in Hin; try rewrite in_app_iff in Hcl;
    try contradiction.
  - destruct Hn as [Hn1 Hn2].
    destruct Hin as [Hin|Hin]; destruct Hcl as [Hcl|Hcl];
      try (eapply IHs1; eauto; fail); try (eapply IHs2; eauto; fail);
      apply susp_points_labels in Hin; destruct Hin as [Hin _];
      apply (cleanup_labels_labels _ _) in Hcl.
    + apply (labels_range _ _ _ _ Hn1) in Hin.
      apply (labels_range _ _ _ _ Hn2) in Hcl. lia.
    + apply (labels_range _ _ _ _ Hn2) in Hin.
      apply (labels_range _ _ _ _ Hn1) in Hcl. lia.
  - destruct Hn as [Hn1 Hn2].
    destruct Hin as [Hin|Hin]; destruct Hcl as [Hcl|Hcl];
      try (eapply IHs1; eauto; fail); try (eapply IHs2; eauto; fail);
      apply susp_points_labels in Hin; destruct Hin as [Hin _];
      apply (cleanup_labels_labels _ _) in Hcl.
    + apply (labels_range _ _ _ _ Hn1) in Hin.
      apply (labels_range _ _ _ _ Hn2) in Hcl. lia.
    + apply (labels_range _ _ _ _ Hn2) in Hin.
      apply (labels_range _ _ _ _ Hn1) in Hcl. lia.
  - eapply IHs; eauto.
  - destruct Hin as [Hin|[]]; inversion Hin; subst.
    destruct Hcl as [Hcl|[]]. simpl in Hcl. lia.
  - destruct Hin as [Hin|[]]; inversion Hin; subst.
    destruct Hcl as [Hcl|[]]. simpl in Hcl. lia.
  - destruct Hin as [Hin|[]]; inversion Hin; subst.
    destruct Hcl as [Hcl|[]]. simpl in Hcl. lia.
  - destruct Hn as (_ & _ & Hb & _). eapply IHs; eauto.
Qed.

Lemma try_label_not_cleanup (s : stmt St V E A R) :
  forall n cur h,
    numbered s n cur -> In h (try_labels s) -> ~ In h (cleanup_labels s).
Proof.
  unfold cleanup_labels.
  induction s; intros n cur h Hn Hin Hcl; simpl in Hn, Hin, Hcl;
    try rewrite map_app in Hcl;
    try rewrite in_app_iff in Hin; try rewrite in_app_iff in Hcl;
    try contradiction.
  - destruct Hn as [Hn1 Hn2].
    destruct Hin as [Hin|Hin]; destruct Hcl as [Hcl|Hcl];
      try (eapply IHs1; eauto; fail); try (eapply IHs2; eauto; fail);
      apply try_labels_labels in Hin;
      apply (cleanup_labels_labels _ _) in Hcl.
    + apply (labels_range _ _ _ _ Hn1) in Hin.
      apply (labels_range _ _ _ _ Hn2) in Hcl. lia.
    + apply (labels_range _ _ _ _ Hn2) in Hin.
      apply (labels_range _ _ _ _ Hn1) in Hcl. lia.
  - destruct Hn as [Hn1 Hn2].
    destruct Hin as [Hin|Hin]; destruct Hcl as [Hcl|Hcl];
      try (eapply IHs1; eauto; fail); try (eapply IHs2; eauto; fail);
      apply try_labels_labels in Hin;
      apply (cleanup_labels_labels _ _) in Hcl.
    + apply (labels_range _ _ _ _ Hn1) in Hin.
      apply (labels_range _ _ _ _ Hn2) in Hcl. lia.
    + apply (labels_range _ _ _ _ Hn2) in Hin.
      apply (labels_range _ _ _ _ Hn1) in Hcl. lia.
  - eapply IHs; eauto.
  - destruct Hn as (-> & _ & Hb & _). destruct Hin as [Hin|Hin].
    + eapply IHs; eauto.
    + destruct Hin as [<-|[]].
      apply (cleanup_labels_labels _ _), (labels_range _ _ _ _ Hb) in Hcl.
      lia.
Qed.

(** What a statement leaves behind when it is entered from its top or at
    a label that is no cleanup label: a valid handler ordinal; on
    suspension, the ordinal and the occupant of one of its suspension
    points; at [_coz_finalize], the sentinel. *)
Lemma exec_lifecycle (s : stmt St V E A R) :
  forall (H : Z -> Prop) n cur fuel m (c : coroutine St P V E A) o c',
    numbered s n cur ->
    H cur -> (forall h, In h (try_labels s) -> H h) -> H (m_eh c) ->
    match m with
    | Run => True
    | Seek t _ => ~ In t (cleanup_labels s)
    end ->
    exec PH AH s fuel m c = (o, c') ->
    H (m_eh c') /\
    (o = Suspend -> suspended_at s c') /\
    (o = Finalize -> m_next c' = SENTINEL).
Proof.
  unfold cleanup_labels.
  induction s; intros H n cur fuel m c0 o c' Hn Hcur Hin Hc Hm Hex;
    simpl in Hn, Hin, Hm, Hex.
  - split_run Hex; repeat split; auto; discriminate.
  - split_run Hex; repeat split; auto; discriminate.
  - destruct Hn as [Hn1 Hn2].
    assert (Hin1 : forall h, In h (try_labels s1) -> H h)
      by (intros; apply Hin, in_app_iff; tauto).
    assert (Hin2 : forall h, In h (try_labels s2) -> H h)
      by (intros; apply Hin, in_app_iff; tauto).
    assert (Hm1 : match m with
                  | Run => True
                  | Seek t _ => ~ In t (map snd (susp_points s1))
                  end)
      by (destruct m; [exact I|rewrite map_app, in_app_iff in Hm; tauto]).
    assert (Hm2 : match m with
                  | Run => True
                  | Seek t _ => ~ In t (map snd (susp_points s2))
                  end)
      by (destruct m; [exact I|rewrite map_app, in_app_iff in Hm; tauto]).
    assert (Hup1 : forall x : coroutine St P V E A,
              suspended_at s1 x -> suspended_at (Seq s1 s2) x).
    { intros x (k & ip & eh & Hs & Hrest). exists k, ip, eh.
      split; [simpl; apply in_app_iff; tauto|exact Hrest]. }
    assert (Hup2 : forall x : coroutine St P V E A,
              suspended_at s2 x -> suspended_at (Seq s1 s2) x).
    { intros x (k & ip & eh & Hs & Hrest). exists k, ip, eh.
      split; [simpl; apply in_app_iff; tauto|exact Hrest]. }
    destruct (exec PH AH s1 fuel m c0) as [o1 c1] eqn:H1.
    destruct (IHs1 H _ _ _ _ _ _ _ Hn1 Hcur Hin1 Hc Hm1 H1)
      as (He1 & Hs1 & Hf1).
    destruct o1; try (inversion Hex; subst; repeat split; auto; discriminate).
    + destruct (IHs2 H _ _ _ Run _ _ _ Hn2 Hcur Hin2 He1 I Hex)
        as (He2 & Hs2 & Hf2). repeat split; auto.
    + destruct (IHs2 H _ _ _ _ _ _ _ Hn2 Hcur Hin2 He1 Hm2 Hex)
        as (He2 & Hs2 & Hf2). repeat split; auto.
  - destruct Hn as [Hn1 Hn2].
    assert (Hin1 : forall h, In h (try_labels s1) -> H h)
      by (intros; apply Hin, in_app_iff; tauto).
    assert (Hin2 : forall h, In h (try_labels s2) -> H h)
      by (intros; apply Hin, in_app_iff; tauto).
    assert (Hup1 : forall x : coroutine St P V E A,
              suspended_at s1 x -> suspended_at (If c s1 s2) x).
    { intros x (k & ip & eh & Hs & Hrest). exists k, ip, eh.
      split; [simpl; apply in_app_iff; tauto|exact Hrest]. }
    assert (Hup2 : forall x : coroutine St P V E A,
              suspended_at s2 x -> suspended_at (If c s1 s2) x).
    { intros x (k & ip & eh & Hs & Hrest). exists k, ip, eh.
      split; [simpl; apply in_app_iff; tauto|exact Hrest]. }
    destruct m as [|t ex].
    + destruct (c (m_state c0)).
      * destruct (IHs1 H _ _ _ Run (emit EvBody c0) _ _ Hn1 Hcur Hin1 Hc I Hex)
          as (He & Hs & Hf). repeat split; auto.
      * destruct (IHs2 H _ _ _ Run (emit EvBody c0) _ _ Hn2 Hcur Hin2 Hc I Hex)
          as (He & Hs & Hf). repeat split; auto.
    + rewrite map_app, in_app_iff in Hm.
      destruct (exec PH AH s1 fuel (Seek t ex) c0) as [o1 c1] eqn:H1.
      destruct (IHs1 H _ _ _ (Seek t ex) _ _ _ Hn1 Hcur Hin1 Hc
                  ltac:(tauto) H1) as (He1 & Hs1 & Hf1).
      destruct o1; try (inversion Hex; subst; repeat split; auto; discriminate).
      destruct (IHs2 H _ _ _ (Seek t ex) _ _ _ Hn2 Hcur Hin2 He1
                  ltac:(tauto) Hex) as (He2 & Hs2 & Hf2).
      repeat split; auto.
  - assert (Hloop : forall c1 o c', H (m_eh c1) ->
              while_loop c (exec PH AH s fuel Run) fuel c1 = (o, c') ->
              H (m_eh c') /\
              (o = Suspend -> suspended_at (While c s) c') /\
              (o = Finalize -> m_next c' = SENTINEL)).
    { intros c1 o1 c1' Hc1.
      apply (while_loop_ind (fun x => H (m_eh x))
               (fun o x => H (m_eh x) /\
                           (o = Suspend -> suspended_at (While c s) x) /\
                           (o = Finalize -> m_next x = SENTINEL))); auto.
      - intros x Hx. repeat split; auto; discriminate.
      - intros x Hx. repeat split; auto; discriminate.
      - intros x o2 x2 Hx Hstep.
        destruct (IHs H _ _ _ Run _ _ _ Hn Hcur Hin Hx I Hstep)
          as (He & Hs & Hf).
        destruct o2; simpl; auto. }
    destruct m as [|t ex].
    + eapply Hloop; eauto.
    + destruct (exec PH AH s fuel (Seek t ex) c0) as [o1 c1] eqn:H1.
      destruct (IHs H _ _ _ (Seek t ex) _ _ _ Hn Hcur Hin Hc Hm H1)
        as (He1 & Hs1 & Hf1).
      destruct o1; try (inversion Hex; subst; repeat split; auto; discriminate).
      eapply Hloop; eauto.
  - destruct Hn as [-> ->]. destruct m as [|t ex].
    + split_run Hex; simpl; repeat split; auto; try discriminate.
      intros _. exists KYield, n, (n + 1). simpl. tauto.
    + destruct (Z.eqb_spec t n);
        [inversion Hex; subst; repeat split; auto; discriminate|].
      destruct (Z.eqb_spec t (n + 1)); [subst t; simpl in Hm; tauto|].
      inversion Hex; subst. repeat split; auto; discriminate.
  - destruct Hn as [-> ->]. destruct m as [|t ex].
    + split_run Hex; simpl; repeat split; auto; try discriminate.
      intros _. exists KYieldLite, n, (n + 1). simpl. tauto.
    + destruct (Z.eqb_spec t n);
        [inversion Hex; subst; repeat split; auto; discriminate|].
      destruct (Z.eqb_spec t (n + 1)); [subst t; simpl in Hm; tauto|].
      inversion Hex; subst. repeat split; auto; discriminate.
  - destruct Hn as [-> ->]. destruct m as [|t ex].
    + unfold_steps Hex. simpl in Hex.
      split_run Hex; simpl; repeat split; auto; try discriminate;
        intros _; exists KAwait, n, (n + 1); simpl; tauto.
    + destruct (Z.eqb_spec t n).
      * unfold_steps Hex.
        split_run Hex; simpl; repeat split; auto; discriminate.
      * destruct (Z.eqb_spec t (n + 1)); [subst t; simpl in Hm; tauto|].
        inversion Hex; subst. repeat split; auto; discriminate.
  - destruct m as [|t ex].
    + unfold_steps Hex. destruct r; simpl in Hex; split_run Hex; simpl;
        repeat split; auto; discriminate.
    + inversion Hex; subst. repeat split; auto; discriminate.
  - destruct Hn as (-> & -> & Hb & Hplain).
    assert (Hinb : forall h, In h (try_labels s) -> H h)
      by (intros; apply Hin, in_app_iff; tauto).
    assert (Hn' : H n) by (apply Hin, in_app_iff; right; now left).
    destruct m as [|t ex].
    + exact (IHs H _ _ _ Run (set_eh n c0) _ _ Hb Hn' Hinb Hn' I Hex).
    + destruct (exec PH AH s fuel (Seek t ex) c0) as [o1 c1] eqn:H1.
      destruct (IHs H _ _ _ (Seek t ex) _ _ _ Hb Hn' Hinb Hc Hm H1)
        as (He1 & Hs1 & Hf1).
      destruct o1; try (inversion Hex; subst; repeat split; auto; discriminate).
      destruct (t =? n);
        [|inversion Hex; subst; repeat split; auto; discriminate].
      destruct ex as [err|];
        [|inversion Hex; subst; repeat split; auto; discriminate].
      destruct (clauses err) as [hd|] eqn:Hcl;
        [|inversion Hex; subst; repeat split; auto; discriminate].
      apply Hplain in Hcl. apply plain_no_labels in Hcl.
      destruct Hcl as [Hp1 Hp2].
      apply (run_completes hd H) in Hex; auto.
      * destruct Hex as (Hsus & Hfin & Heh). repeat split; auto.
        intros ->. discriminate.
      * rewrite Hp2. intros h [].
Qed.

Lemma retry_lifecycle (body : stmt St V E A R) (fuel : nat) :
  coz_body body ->
  forall n ex (c : coroutine St P V E A),
    valid_eh body (m_eh c) -> entry_ok body c ->
    match coz_retry PH AH body fuel n ex c with
    | Returned c' | Threw _ c' => quiescent body c'
    | _ => True
    end.
Proof.
  intros Hb.
  assert (Hcatch : forall n e (c1 : coroutine St P V E A),
    (forall ex c, valid_eh body (m_eh c) -> entry_ok body c ->
       match coz_retry PH AH body fuel n ex c with
       | Returned c' | Threw _ c' => quiescent body c'
       | _ => True
       end) ->
    valid_eh body (m_eh c1) ->
    match (if negb (m_next (set_next (m_eh c1) c1) =? SENTINEL)
           then coz_retry PH AH body fuel n (Some e) (set_next (m_eh c1) c1)
           else coz_unhandled PH e (set_next (m_eh c1) c1)) with
    | Returned c' | Threw _ c' => quiescent body c'
    | _ => True
    end).
  { intros n e c1 IH Hv. simpl m_next.
    destruct (Z.eqb_spec (m_eh c1) SENTINEL) as [Heq|Hne]; simpl.
    - unfold coz_unhandled.
      destruct (unhandled_exception PH e _) as [p [e'|]]; simpl;
        (split; [exact Hv|left; exact Heq]).
    - apply IH; simpl; [exact Hv|].
      right; right. destruct Hv; [contradiction|assumption]. }
  induction n as [|n IH]; intros ex c Hv Hentry; simpl; [exact I|].
  unfold coz_switch.
  destruct (coz_dispatch PH AH body fuel ex c) as [o c1] eqn:Hd.
  assert (Hgood : (valid_eh body (m_eh c1) /\
                   (o = Suspend -> suspended_at body c1) /\
                   (o = Finalize -> m_next c1 = SENTINEL)) /\
                  is_seeking o = false).
  { assert (Hcur : valid_eh body SENTINEL) by now left.
    assert (Hall : forall h, In h (try_labels body) -> valid_eh body h)
      by (intros; now right).
    unfold coz_dispatch in Hd. destruct (Z.eqb_spec (m_next c) 0) as [H0|H0].
    - split; [|eapply exec_run_not_seeking; eauto].
      exact (exec_lifecycle body _ _ _ _ Run _ _ _ (proj1 Hb)
               Hcur Hall Hv I Hd).
    - destruct Hentry as [|[(k & eh & Hsp)|Htry]]; [contradiction| |].
      + split.
        * apply (exec_lifecycle body _ _ _ _ _ _ _ _ (proj1 Hb)
                   Hcur Hall Hv) in Hd; [exact Hd|].
          eapply resume_label_not_cleanup; [apply Hb|exact Hsp].
        * eapply exec_seek_found; [|exact Hd].
          now apply susp_points_labels in Hsp.
      + split.
        * apply (exec_lifecycle body _ _ _ _ _ _ _ _ (proj1 Hb)
                   Hcur Hall Hv) in Hd; [exact Hd|].
          eapply try_label_not_cleanup; [apply Hb|exact Htry].
        * eapply exec_seek_found; [|exact Hd].
          now apply try_labels_labels. }
  destruct Hgood as [(Heh & Hsus & Hfin) Hseek].
  destruct o; try discriminate; try exact I.
  - unfold coz_end, implicit_return, call_return_void. simpl.
    destruct (return_void PH) as [rv|]; [|exact I].
    destruct (rv (promise c1)) as [p|e].
    + split; [exact Heh|now left].
    + apply (Hcatch n e (emit EvReturnVoid (set_next SENTINEL c1)) IH).
      exact Heh.
  - split; [exact Heh|right; now apply Hsus].
  - simpl. split; [exact Heh|left; now apply Hfin].
  - now apply Hcatch.
Qed.

(** X4.  Every state an instance goes through between calls, from a new
    instance started once and resumed any number of times, is done or is a
    wait at a suspension point of the body with that point's temporary in
    the scratch frame; and the handler ordinal is the sentinel or the
    ordinal of a region of the body. *)
Theorem states_between_calls (body : stmt St V E A R)
  (c : coroutine St P V E A) :
  coz_body body -> reachable PH AH body c -> quiescent body c.
Proof.
  intros Hb Hr. induction Hr as [fuel params p raw c Hcb
                                |fuel c c' Hr IH Hcb
                                |c a a' Hr IH Ht].
  - pose proof (retry_lifecycle body fuel Hb fuel None
                  (start_entry params (coroutine_ctor p raw))
                  (or_introl eq_refl) (or_introl eq_refl)) as Hl.
    unfold start, invoke in Hcb.
    destruct Hcb as [Heq|[e Heq]]; rewrite Heq in Hl; exact Hl.
  - destruct IH as [Hv [Hdone|Hsus]].
    + destruct fuel as [|f].
      * destruct Hcb as [Heq|[e Heq]]; discriminate.
      * unfold resume in Hcb.
        rewrite (invoke_done body (S f) c Hb ltac:(lia) Hdone) in Hcb.
        destruct Hcb as [Heq|[e Heq]]; inversion Heq; subst.
        split; [exact Hv|now left].
    + pose proof (retry_lifecycle body fuel Hb fuel None c Hv) as Hl.
      unfold resume, invoke in Hcb.
      assert (Hentry : entry_ok body c).
      { destruct Hsus as (k & ip & eh & Hin & Hip & _).
        right; left. exists k, eh. now rewrite Hip. }
      specialize (Hl Hentry).
      destruct Hcb as [Heq|[e Heq]]; rewrite Heq in Hl; exact Hl.
  - destruct IH as [Hv [Hdone|Hsus]].
    + split; [exact Hv|now left].
    + split; [exact Hv|right].
      destruct Hsus as (k & ip & eh & Hin & Hip & Hocc).
      exists k, ip, eh. split; [exact Hin|]. split; [exact Hip|].
      simpl. rewrite Ht in Hocc. destruct k; simpl in *; tauto.
Qed.


(** *** The scratch frame over time *)

Lemma plain_numbered (s : stmt St V E A R) :
  plain s -> forall n cur, numbered s n cur.
Proof.
  induction s; simpl; intros Hp n cur; try tauto.
  - destruct Hp. split; auto.
  - destruct Hp. split; auto.
  - auto.
Qed.

Lemma tmp_after_incl (s1 s : stmt St V E A R) (c0 c : coroutine St P V E A)
  (o : outcome E) (c' : coroutine St P V E A) :
  (forall x, In x (susp_points s1) -> In x (susp_points s)) ->
  (is_seeking o = true -> c = c0) ->
  tmp_after s1 c0 o c' -> tmp_after s c o c'.
Proof.
  intros Hincl Hc. destruct o; simpl; auto.
  - intros ->. symmetry. now apply Hc.
  - intros (k & ip & eh & Hin & Hrest). exists k, ip, eh. split; auto.
Qed.

Lemma tmp_before_incl (s1 s : stmt St V E A R) (m : mode E)
  (c : coroutine St P V E A) :
  (forall x, In x (susp_points s1) -> In x (susp_points s)) ->
  (forall h, In h (try_labels s1) -> In h (try_labels s)) ->
  tmp_before s m c -> tmp_before s1 m c.
Proof.
  intros Hsp Htl. destruct m as [|t ex]; simpl; [tauto|].
  intros (Hcl & Htry & Hocc). repeat split.
  - intros Hin. apply Hcl. apply cleanup_labels_in in Hin.
    destruct Hin as (k & ip & Hin). apply cleanup_labels_in. eauto.
  - auto.
  - intros k ip eh Hin Heq. apply (Hocc k ip eh); auto.
Qed.

Ltac solve_balanced :=
  unfold balanced, live, occupied, ctor_tmp, dtor_tmp, count_ev in *;
  simpl in *; rewrite ?filter_app, ?length_app; simpl;
  repeat match goal with
         | H : m_mem_tmp _ = None |- _ => rewrite H in *
         | H : m_mem_tmp _ = Some _ |- _ => rewrite H in *
         end;
  simpl in *; try lia; try congruence.

(** Entered with the scratch frame as its entry point expects it, a
    statement leaves the frame empty, or occupied as the suspension point
    it stopped at leaves it, and destroys what it builds. *)
Lemma exec_tmp (s : stmt St V E A R) :
  yield_value_returns PH ->
  forall n cur fuel m (c : coroutine St P V E A) o c',
    numbered s n cur ->
    balanced c -> tmp_before s m c ->
    exec PH AH s fuel m c = (o, c') ->
    balanced c' /\ tmp_after s c o c'.
Proof.
  intros Hy.
  induction s as [ | f | s1 s2 IH1 IH2 | cnd s1 s2 IH1 IH2 | cnd b IHb
                 | ip eh sa expr | ip eh expr | ip eh sa expr f | r
                 | h prev b cl IHb IHcl ] using stmt_induction;
    intros n cur fuel m c0 o c' Hn Hbal Hpre Hex; simpl in Hn, Hex.
  - destruct m; inversion Hex; subst; split; simpl; auto.
  - destruct m; [|inversion Hex; subst; split; simpl; auto].
    simpl in Hpre. split_run Hex; split; solve_balanced.
  - destruct Hn as [Hn1 Hn2].
    assert (Hi1 : forall x, In x (susp_points s1) ->
                            In x (susp_points (Seq s1 s2)))
      by (intros; simpl; apply in_app_iff; tauto).
    assert (Hi2 : forall x, In x (susp_points s2) ->
                            In x (susp_points (Seq s1 s2)))
      by (intros; simpl; apply in_app_iff; tauto).
    assert (Ht1 : forall x, In x (try_labels s1) ->
                            In x (try_labels (Seq s1 s2)))
      by (intros; simpl; apply in_app_iff; tauto).
    assert (Ht2 : forall x, In x (try_labels s2) ->
                            In x (try_labels (Seq s1 s2)))
      by (intros; simpl; apply in_app_iff; tauto).
    destruct (exec PH AH s1 fuel m c0) as [o1 c1] eqn:H1.
    destruct (IH1 _ _ _ _ _ _ _ Hn1 Hbal
                (tmp_before_incl _ _ _ _ Hi1 Ht1 Hpre) H1) as [Hb1 Ha1].
    destruct o1;
      try (inversion Hex; subst; split; [exact Hb1|];
           apply (tmp_after_incl s1 _ c0 c0 _ _ Hi1 (fun _ => eq_refl) Ha1)).
    + simpl in Ha1.
      destruct (IH2 _ _ _ Run _ _ _ Hn2 Hb1 Ha1 Hex) as [Hb2 Ha2].
      split; [exact Hb2|].
      apply (tmp_after_incl s2 _ c1 c0 _ _ Hi2); [|exact Ha2].
      intros Hs. apply exec_run_not_seeking in Hex. congruence.
    + simpl in Ha1. subst c1.
      destruct (IH2 _ _ _ _ _ _ _ Hn2 Hbal
                  (tmp_before_incl _ _ _ _ Hi2 Ht2 Hpre) Hex) as [Hb2 Ha2].
      split; [exact Hb2|].
      apply (tmp_after_incl s2 _ c0 c0 _ _ Hi2 (fun _ => eq_refl) Ha2).
  - destruct Hn as [Hn1 Hn2].
    assert (Hi1 : forall x, In x (susp_points s1) ->
                            In x (susp_points (If cnd s1 s2)))
      by (intros; simpl; apply in_app_iff; tauto).
    assert (Hi2 : forall x, In x (susp_points s2) ->
                            In x (susp_points (If cnd s1 s2)))
      by (intros; simpl; apply in_app_iff; tauto).
    assert (Ht1 : forall x, In x (try_labels s1) ->
                            In x (try_labels (If cnd s1 s2)))
      by (intros; simpl; apply in_app_iff; tauto).
    assert (Ht2 : forall x, In x (try_labels s2) ->
                            In x (try_labels (If cnd s1 s2)))
      by (intros; simpl; apply in_app_iff; tauto).
    destruct m as [|t ex].
    + simpl in Hpre.
      assert (Hb0 : balanced (emit EvBody c0)) by solve_balanced.
      assert (Hnotseek : is_seeking o = true -> c0 = emit EvBody c0).
      { intros Hs. destruct (cnd (m_state c0));
          apply exec_run_not_seeking in Hex; congruence. }
      destruct (cnd (m_state c0)).
      * destruct (IH1 _ _ _ Run _ _ _ Hn1 Hb0 Hpre Hex) as [Hb1 Ha1].
        split; [exact Hb1|].
        exact (tmp_after_incl s1 _ _ c0 _ _ Hi1 Hnotseek Ha1).
      * destruct (IH2 _ _ _ Run _ _ _ Hn2 Hb0 Hpre Hex) as [Hb2 Ha2].
        split; [exact Hb2|].
        exact (tmp_after_incl s2 _ _ c0 _ _ Hi2 Hnotseek Ha2).
    + destruct (exec PH AH s1 fuel (Seek t ex) c0) as [o1 c1] eqn:H1.
      destruct (IH1 _ _ _ _ _ _ _ Hn1 Hbal
                  (tmp_before_incl _ _ _ _ Hi1 Ht1 Hpre) H1) as [Hb1 Ha1].
      destruct o1;
        try (inversion Hex; subst; split; [exact Hb1|];
             apply (tmp_after_incl s1 _ c0 c0 _ _ Hi1 (fun _ => eq_refl) Ha1)).
      simpl in Ha1. subst c1.
      destruct (IH2 _ _ _ _ _ _ _ Hn2 Hbal
                  (tmp_before_incl _ _ _ _ Hi2 Ht2 Hpre) Hex) as [Hb2 Ha2].
      split; [exact Hb2|].
      apply (tmp_after_incl s2 _ c0 c0 _ _ Hi2 (fun _ => eq_refl) Ha2).
  - assert (Hloop : forall c1 o c',
              balanced c1 -> m_mem_tmp c1 = None ->
              while_loop cnd (exec PH AH b fuel Run) fuel c1 = (o, c') ->
              balanced c' /\ tmp_after (While cnd b) c0 o c' /\
              is_seeking o = false).
    { intros c1 o1 c1' Hb1 Ht1.
      apply (while_loop_ind
               (fun x => balanced x /\ m_mem_tmp x = None)
               (fun o x => balanced x /\ tmp_after (While cnd b) c0 o x /\
                           is_seeking o = false)); auto.
      - intros x [Hx1 Hx2]. split; [solve_balanced|exact Hx2].
      - intros x [Hx1 Hx2]. repeat split; auto.
      - intros x [Hx1 Hx2]. repeat split; auto.
      - intros x o2 x2 [Hx1 Hx2] Hstep.
        destruct (IHb _ _ _ Run _ _ _ Hn Hx1 Hx2 Hstep) as [Hb2 Ha2].
        pose proof (exec_run_not_seeking _ _ _ _ _ Hstep) as Hns.
        destruct o2; simpl; auto; try discriminate;
          (split; [exact Hb2|split; [|reflexivity]]); exact Ha2. }
    destruct m as [|t ex].
    + simpl in Hpre.
      destruct (Hloop _ _ _ Hbal Hpre Hex) as (H1 & H2 & _). now split.
    + destruct (exec PH AH b fuel (Seek t ex) c0) as [o1 c1] eqn:H1.
      destruct (IHb _ _ _ (Seek t ex) _ _ _ Hn Hbal Hpre H1) as [Hb1 Ha1].
      destruct o1; try (inversion Hex; subst; split; [exact Hb1|exact Ha1]).
      simpl in Ha1.
      destruct (Hloop _ _ _ Hb1 Ha1 Hex) as (H2 & H3 & _). now split.
  - destruct m as [|t ex]; simpl in Hpre.
    + destruct (Hy (expr (m_state c0)) (promise c0)) as [p Hp].
      simpl in Hex. rewrite Hp in Hex. inversion Hex; subst.
      split; [solve_balanced|].
      exists KYield, ip, eh. simpl. repeat split; auto. discriminate.
    + destruct Hpre as (Hcl & _ & Hocc).
      destruct (Z.eqb_spec t ip) as [->|Hne].
      * specialize (Hocc KYield ip eh (or_introl eq_refl) eq_refl).
        inversion Hex; subst. split; [|reflexivity].
        simpl in Hocc. destruct (m_mem_tmp c0) eqn:Hm; [|congruence].
        solve_balanced.
      * destruct (Z.eqb_spec t eh) as [->|Hne'].
        -- exfalso. apply Hcl. simpl. now left.
        -- inversion Hex; subst. split; [exact Hbal|reflexivity].
  - destruct m as [|t ex]; simpl in Hpre.
    + destruct (Hy (expr (m_state c0)) (promise c0)) as [p Hp].
      simpl in Hex. rewrite Hp in Hex. inversion Hex; subst.
      split; [solve_balanced|].
      exists KYieldLite, ip, eh. simpl. repeat split; auto.
    + destruct Hpre as (Hcl & _ & Hocc).
      destruct (Z.eqb_spec t ip) as [->|Hne].
      * specialize (Hocc KYieldLite ip eh (or_introl eq_refl) eq_refl).
        inversion Hex; subst. split; [exact Hbal|exact Hocc].
      * destruct (Z.eqb_spec t eh) as [->|Hne'].
        -- exfalso. apply Hcl. simpl. now left.
        -- inversion Hex; subst. split; [exact Hbal|reflexivity].
  - destruct m as [|t ex]; simpl in Hpre.
    + unfold_steps Hex. simpl in Hex.
      split_run Hex; (split; [solve_balanced|]); simpl; auto;
        exists KAwait, ip, eh; simpl; repeat split; auto; discriminate.
    + destruct Hpre as (Hcl & _ & Hocc).
      destruct (Z.eqb_spec t ip) as [->|Hne].
      * specialize (Hocc KAwait ip eh (or_introl eq_refl) eq_refl).
        unfold_steps Hex.
        split_run Hex; (split; [solve_balanced|]); simpl; auto.
      * destruct (Z.eqb_spec t eh) as [->|Hne'].
        -- exfalso. apply Hcl. simpl. now left.
        -- inversion Hex; subst. split; [exact Hbal|reflexivity].
  - destruct m as [|t ex]; simpl in Hpre.
    + unfold_steps Hex. destruct r; simpl in Hex;
        split_run Hex; (split; [solve_balanced|]); simpl; auto.
    + inversion Hex; subst. split; [exact Hbal|reflexivity].
  - destruct Hn as (-> & -> & Hb & Hplain).
    assert (Hi : forall x, In x (susp_points b) ->
                           In x (susp_points (COZ_TRY n cur b cl)))
      by (intros; simpl; assumption).
    assert (Ht : forall x, In x (try_labels b) ->
                           In x (try_labels (COZ_TRY n cur b cl)))
      by (intros; simpl; apply in_app_iff; tauto).
    destruct m as [|t ex].
    + simpl in Hpre.
      destruct (IHb _ _ _ Run (set_eh n c0) _ _ Hb Hbal Hpre Hex)
        as [Hb1 Ha1].
      split; [exact Hb1|].
      apply (tmp_after_incl b _ (set_eh n c0) c0 _ _ Hi); [|exact Ha1].
      intros Hs. apply exec_run_not_seeking in Hex. congruence.
    + destruct (exec PH AH b fuel (Seek t ex) c0) as [o1 c1] eqn:H1.
      destruct (IHb _ _ _ _ _ _ _ Hb Hbal
                  (tmp_before_incl _ _ _ _ Hi Ht Hpre) H1) as [Hb1 Ha1].
      destruct o1;
        try (inversion Hex; subst; split; [exact Hb1|];
             apply (tmp_after_incl b _ c0 c0 _ _ Hi (fun _ => eq_refl) Ha1)).
      simpl in Ha1. subst c1.
      destruct (Z.eqb_spec t n) as [->|Hne];
        [|inversion Hex; subst; split; [exact Hbal|reflexivity]].
      destruct Hpre as (_ & Htry & _).
      assert (Hnone : m_mem_tmp c0 = None)
        by (apply Htry; simpl; apply in_app_iff; right; now left).
      destruct ex as [err|];
        [|inversion Hex; subst; split; [exact Hbal|exact I]].
      destruct (cl err) as [hd|] eqn:Hcl;
        [|inversion Hex; subst; split; [exact Hbal|exact Hnone]].
      pose proof (Hplain _ _ Hcl) as Hp.
      assert (Hb0 : balanced (emit (EvHandler n err) (set_eh cur c0)))
        by solve_balanced.
      destruct (IHcl _ _ Hcl 0 0 fuel Run _ _ _ (plain_numbered hd Hp 0 0)
                  Hb0 Hnone Hex) as [Hb2 Ha2].
      split; [exact Hb2|].
      apply (tmp_after_incl hd _ (emit (EvHandler n err) (set_eh cur c0)) c0);
        [| |exact Ha2].
      * intros x Hx. rewrite (proj1 (plain_no_labels hd Hp)) in Hx.
        destruct Hx.
      * intros Hs. apply exec_run_not_seeking in Hex. congruence.
Qed.

(** Two suspension points do not share a resume ordinal, and a handler
    ordinal is no resume ordinal. *)
Lemma susp_points_kind (s : stmt St V E A R) :
  forall n cur k k' ip eh eh',
    numbered s n cur ->
    In (k, ip, eh) (susp_points s) -> In (k', ip, eh') (susp_points s) ->
    k = k'.
Proof.
  induction s; intros n cur k k' ip0 eh0 eh0' Hn H1 H2; simpl in Hn, H1, H2;
    try rewrite in_app_iff in H1; try rewrite in_app_iff in H2;
    try contradiction.
  - destruct Hn as [Hn1 Hn2].
    destruct H1 as [H1|H1]; destruct H2 as [H2|H2];
      try (eapply IHs1; eauto; fail); try (eapply IHs2; eauto; fail);
      apply susp_points_labels in H1, H2;
      destruct H1 as [H1 _], H2 as [H2 _].
    + apply (labels_range _ _ _ _ Hn1) in H1.
      apply (labels_range _ _ _ _ Hn2) in H2. lia.
    + apply (labels_range _ _ _ _ Hn2) in H1.
      apply (labels_range _ _ _ _ Hn1) in H2. lia.
  - destruct Hn as [Hn1 Hn2].
    destruct H1 as [H1|H1]; destruct H2 as [H2|H2];
      try (eapply IHs1; eauto; fail); try (eapply IHs2; eauto; fail);
      apply susp_points_labels in H1, H2;
      destruct H1 as [H1 _], H2 as [H2 _].
    + apply (labels_range _ _ _ _ Hn1) in H1.
      apply (labels_range _ _ _ _ Hn2) in H2. lia.
    + apply (labels_range _ _ _ _ Hn2) in H1.
      apply (labels_range _ _ _ _ Hn1) in H2. lia.
  - eapply IHs; eauto.
  - destruct H1 as [H1|[]], H2 as [H2|[]]. congruence.
  - destruct H1 as [H1|[]], H2 as [H2|[]]. congruence.
  - destruct H1 as [H1|[]], H2 as [H2|[]]. congruence.
  - destruct Hn as (_ & _ & Hb & _). eapply IHs; eauto.
Qed.

Lemma try_label_not_resume (s : stmt St V E A R) :
  forall n cur h k eh,
    numbered s n cur -> In h (try_labels s) ->
    ~ In (k, h, eh) (susp_points s).
Proof.
  induction s; intros n cur h k eh0 Hn Hin Hsp; simpl in Hn, Hin, Hsp;
    try rewrite in_app_iff in Hin; try rewrite in_app_iff in Hsp;
    try contradiction.
  - destruct Hn as [Hn1 Hn2].
    destruct Hin as [Hin|Hin]; destruct Hsp as [Hsp|Hsp];
      try (eapply IHs1; eauto; fail); try (eapply IHs2; eauto; fail);
      apply try_labels_labels in Hin;
      apply susp_points_labels in Hsp; destruct Hsp as [Hsp _].
    + apply (labels_range _ _ _ _ Hn1) in Hin.
      apply (labels_range _ _ _ _ Hn2) in Hsp. lia.
    + apply (labels_range _ _ _ _ Hn2) in Hin.
      apply (labels_range _ _ _ _ Hn1) in Hsp. lia.
  - destruct Hn as [Hn1 Hn2].
    destruct Hin as [Hin|Hin]; destruct Hsp as [Hsp|Hsp];
      try (eapply IHs1; eauto; fail); try (eapply IHs2; eauto; fail);
      apply try_labels_labels in Hin;
      apply susp_points_labels in Hsp; destruct Hsp as [Hsp _].
    + apply (labels_range _ _ _ _ Hn1) in Hin.
      apply (labels_range _ _ _ _ Hn2) in Hsp. lia.
    + apply (labels_range _ _ _ _ Hn2) in Hin.
      apply (labels_range _ _ _ _ Hn1) in Hsp. lia.
  - eapply IHs; eauto.
  - destruct Hn as (-> & _ & Hb & _). destruct Hin as [Hin|Hin].
    + eapply IHs; eauto.
    + destruct Hin as [<-|[]].
      apply susp_points_labels in Hsp. destruct Hsp as [Hsp _].
      apply (labels_range _ _ _ _ Hb) in Hsp. lia.
Qed.

Lemma tmp_entry_ok (body : stmt St V E A R) (c : coroutine St P V E A) :
  tmp_entry body c -> entry_ok body c.
Proof.
  intros [[H _]|[(k & eh & H & _)|[H _]]]; [now left| |now right; right].
  right; left. eauto.
Qed.

(** One pass through the [switch], entered where a call may enter it. *)
Lemma switch_lifecycle (body : stmt St V E A R) (fuel : nat) :
  coz_body body ->
  forall ex (c : coroutine St P V E A) o c1,
    valid_eh body (m_eh c) -> entry_ok body c ->
    coz_switch PH AH body fuel ex c = (o, c1) ->
    valid_eh body (m_eh c1) /\
    match o with
    | Suspend => suspended_at body c1
    | Finalize => m_next c1 = SENTINEL
    | Next | Seeking => False
    | Raise _ | Fatal | OutOfFuel => True
    end.
Proof.
  intros Hb ex c o c1 Hv Hentry Hsw. unfold coz_switch in Hsw.
  destruct (coz_dispatch PH AH body fuel ex c) as [o0 c0] eqn:Hd.
  assert (Hgood : (valid_eh body (m_eh c0) /\
                   (o0 = Suspend -> suspended_at body c0) /\
                   (o0 = Finalize -> m_next c0 = SENTINEL)) /\
                  is_seeking o0 = false).
  { assert (Hcur : valid_eh body SENTINEL) by now left.
    assert (Hall : forall h, In h (try_labels body) -> valid_eh body h)
      by (intros; now right).
    unfold coz_dispatch in Hd. destruct (Z.eqb_spec (m_next c) 0) as [H0|H0].
    - split; [|eapply exec_run_not_seeking; eauto].
      exact (exec_lifecycle body _ _ _ _ Run _ _ _ (proj1 Hb)
               Hcur Hall Hv I Hd).
    - destruct Hentry as [|[(k & eh & Hsp)|Htry]]; [contradiction| |].
      + split.
        * apply (exec_lifecycle body _ _ _ _ _ _ _ _ (proj1 Hb)
                   Hcur Hall Hv) in Hd; [exact Hd|].
          eapply resume_label_not_cleanup; [apply Hb|exact Hsp].
        * eapply exec_seek_found; [|exact Hd].
          now apply susp_points_labels in Hsp.
      + split.
        * apply (exec_lifecycle body _ _ _ _ _ _ _ _ (proj1 Hb)
                   Hcur Hall Hv) in Hd; [exact Hd|].
          eapply try_label_not_cleanup; [apply Hb|exact Htry].
        * eapply exec_seek_found; [|exact Hd].
          now apply try_labels_labels. }
  destruct Hgood as [(Heh & Hsus & Hfin) Hseek].
  destruct o0; try discriminate Hseek.
  - unfold coz_end, implicit_return, call_return_void in Hsw. simpl in Hsw.
    split_run Hsw; simpl; split; auto.
  - inversion Hsw; subst. split; auto.
  - inversion Hsw; subst. simpl. split; auto.
  - inversion Hsw; subst. split; auto.
  - inversion Hsw; subst. split; auto.
  - inversion Hsw; subst. split; auto.
Qed.

Lemma switch_tmp (body : stmt St V E A R) (fuel : nat) :
  coz_body body -> yield_value_returns PH ->
  forall ex (c : coroutine St P V E A) o c1,
    balanced c -> tmp_entry body c ->
    coz_switch PH AH body fuel ex c = (o, c1) ->
    balanced c1 /\
    match o with
    | Suspend =>
        exists k ip eh,
          In (k, ip, eh) (susp_points body) /\ m_next c1 = ip /\
          occupied k c1
    | Finalize | Raise _ => m_mem_tmp c1 = None
    | _ => True
    end.
Proof.
  intros Hb Hy ex c o c1 Hbal Hentry Hsw. unfold coz_switch in Hsw.
  destruct (coz_dispatch PH AH body fuel ex c) as [o0 c0] eqn:Hd.
  assert (Hgood : balanced c0 /\ tmp_after body c o0 c0).
  { unfold coz_dispatch in Hd. destruct (Z.eqb_spec (m_next c) 0) as [H0|H0].
    - apply (exec_tmp body Hy _ _ _ Run _ _ _ (proj1 Hb) Hbal) in Hd;
        [exact Hd|].
      simpl. destruct Hentry as [[_ H]|[(k & eh & Hsp & _)|[Htry H]]]; auto.
      apply susp_points_labels in Hsp. destruct Hsp as [Hsp _].
      apply (coz_body_labels _ _ Hb) in Hsp. lia.
    - apply (exec_tmp body Hy _ _ _ _ _ _ _ (proj1 Hb) Hbal) in Hd;
        [exact Hd|].
      simpl.
      destruct Hentry as [[H _]|[(k & eh & Hsp & Hocc)|[Htry H]]];
        [contradiction| |].
      + split; [eapply resume_label_not_cleanup; [apply Hb|exact Hsp]|].
        split.
        * intros Htry. exfalso.
          exact (try_label_not_resume body _ _ _ k eh (proj1 Hb) Htry Hsp).
        * intros k' ip eh' Hin Heq. subst ip.
          now rewrite (susp_points_kind body _ _ _ _ _ _ _ (proj1 Hb) Hin Hsp).
      + split; [eapply try_label_not_cleanup; [apply Hb|exact Htry]|].
        split; [auto|].
        intros k ip eh Hin Heq. subst ip. exfalso.
        exact (try_label_not_resume body _ _ _ k eh (proj1 Hb) Htry Hin). }
  destruct Hgood as [Hb0 Ha0].
  destruct o0; simpl in Ha0.
  - unfold coz_end, implicit_return, call_return_void in Hsw. simpl in Hsw.
    split_run Hsw; simpl; (split; [solve_balanced|]); auto.
  - inversion Hsw; subst. split; auto.
  - inversion Hsw; subst. split; auto.
  - inversion Hsw; subst. simpl. split; [solve_balanced|exact Ha0].
  - inversion Hsw; subst. split; auto.
  - inversion Hsw; subst. split; auto.
  - inversion Hsw; subst. split; auto.
Qed.

Lemma finalized_last_count (evs : list (event V E)) :
  finalized_last evs -> count_ev is_finalize evs = 1%nat.
Proof.
  intros (pre & -> & Hpre). rewrite count_ev_app, Hpre. reflexivity.
Qed.

(** A call that comes back has suspended the coroutine without running
    anything of the way out, or has finished it and run the finalizer
    once. *)
Lemma retry_settles (body : stmt St V E A R) (fuel : nat) :
  coz_body body ->
  forall n ex (c : coroutine St P V E A),
    valid_eh body (m_eh c) -> entry_ok body c ->
    match coz_retry PH AH body fuel n ex c with
    | Returned c' | Threw _ c' => settled body c c'
    | _ => True
    end.
Proof.
  intros Hb. induction n as [|n IH]; intros ex c Hv Hentry; simpl;
    [exact I|].
  destruct (coz_switch PH AH body fuel ex c) as [o c1] eqn:Hsw.
  destruct (switch_lifecycle body fuel Hb _ _ _ _ Hv Hentry Hsw)
    as [Heh Hlife].
  destruct (coz_switch_exits _ _ _ _ _ _ Hsw) as (evs & Ht & Hshape).
  destruct o; simpl in Hshape; try contradiction; try exact I.
  - split; [exact Heh|]. exists evs. split; [exact Ht|]. now left.
  - split; [exact Heh|]. exists evs. split; [exact Ht|]. right.
    split; [exact Hlife|]. now apply finalized_last_count.
  - destruct (is_exit_finalize _ Hshape) as [Hf Hu]. simpl m_next.
    destruct (Z.eqb_spec (m_eh c1) SENTINEL) as [Heq|Hne]; simpl.
    + unfold coz_unhandled.
      destruct (unhandled_exception PH e _) as [p [e'|]]; simpl;
        (split; [exact Heh|]);
        exists (evs ++ [EvUnhandled e; EvDtorState; EvFinalize]);
        (split; [simpl; rewrite Ht, <- !app_assoc; reflexivity|]);
        right; (split; [exact Heq|]); rewrite count_ev_app, Hf; reflexivity.
    + assert (Hentry2 : entry_ok body (set_next (m_eh c1) c1)).
      { right; right. simpl. destruct Heh; [contradiction|assumption]. }
      specialize (IH (Some e) (set_next (m_eh c1) c1) Heh Hentry2).
      destruct (coz_retry PH AH body fuel n (Some e) (set_next (m_eh c1) c1))
        as [c'|e' c'| |]; try exact I;
        destruct IH as (Heh' & evs2 & Ht2 & Hcases);
        (split; [exact Heh'|]); exists (evs ++ evs2);
        (split; [simpl in Ht2; rewrite Ht2, Ht, <- app_assoc; reflexivity|]);
        (destruct Hcases as [[Hs Hq]|[Hd Hq]];
         [left; split; [exact Hs|rewrite count_ev_app, Hshape, Hq; reflexivity]
         |right; split; [exact Hd|rewrite count_ev_app, Hf, Hq; reflexivity]]).
Qed.

(** *** How a call reaches the finalizer *)

(** A statement that is not entered at a cleanup label leaves for
    [_coz_finalize] from one of its [COZ_RETURN] statements only. *)
Lemma exec_finalize_origin (s : stmt St V E A R) :
  forall fuel m (c c' : coroutine St P V E A),
    match m with
    | Run => True
    | Seek t _ => ~ In t (cleanup_labels s)
    end ->
    exec PH AH s fuel m c = (Finalize, c') ->
    exists r c0,
      returns_in s r /\ quietly c c0 /\
      coz_return PH r c0 = (Finalize, c').
Proof.
  unfold cleanup_labels.
  induction s as [ | f | s1 s2 IH1 IH2 | cnd s1 s2 IH1 IH2 | cnd b IHb
                 | ip eh sa expr | ip eh expr | ip eh sa expr f | r
                 | h prev b cl IHb IHcl ] using stmt_induction;
    intros fuel m c0 c' Hm Hex; simpl in Hm, Hex.
  - split_run Hex.
  - split_run Hex.
  - assert (Hm1 : match m with
                  | Run => True
                  | Seek t _ => ~ In t (map snd (susp_points s1))
                  end)
      by (destruct m; [exact I|rewrite map_app, in_app_iff in Hm; tauto]).
    assert (Hm2 : match m with
                  | Run => True
                  | Seek t _ => ~ In t (map snd (susp_points s2))
                  end)
      by (destruct m; [exact I|rewrite map_app, in_app_iff in Hm; tauto]).
    destruct (exec PH AH s1 fuel m c0) as [o1 c1] eqn:H1.
    pose proof (exec_quietly _ _ _ _ _ _ H1) as Hq1.
    destruct o1; try discriminate.
    + destruct (IH2 _ Run _ _ I Hex) as (r0 & cr & Hr & Hq & Hret).
      exists r0, cr. split; [now right|].
      split; [eapply quietly_trans; eauto|exact Hret].
    + destruct (IH2 _ m _ _ Hm2 Hex) as (r0 & cr & Hr & Hq & Hret).
      exists r0, cr. split; [now right|].
      split; [eapply quietly_trans; eauto|exact Hret].
    + inversion Hex; subst.
      destruct (IH1 _ m _ _ Hm1 H1) as (r0 & cr & Hr & Hq & Hret).
      exists r0, cr. split; [now left|]. now split.
  - destruct m as [|t ex].
    + assert (Hq0 : quietly c0 (emit EvBody c0)) by solve_quiet.
      destruct (cnd _).
      * destruct (IH1 _ Run _ _ I Hex) as (r0 & cr & Hr & Hq & Hret).
        exists r0, cr. split; [now left|].
        split; [eapply quietly_trans; eauto|exact Hret].
      * destruct (IH2 _ Run _ _ I Hex) as (r0 & cr & Hr & Hq & Hret).
        exists r0, cr. split; [now right|].
        split; [eapply quietly_trans; eauto|exact Hret].
    + rewrite map_app, in_app_iff in Hm.
      destruct (exec PH AH s1 fuel (Seek t ex) c0) as [o1 c1] eqn:H1.
      pose proof (exec_quietly _ _ _ _ _ _ H1) as Hq1.
      destruct o1; try discriminate.
      * destruct (IH2 _ (Seek t ex) _ _ ltac:(tauto) Hex)
          as (r0 & cr & Hr & Hq & Hret).
        exists r0, cr. split; [now right|].
        split; [eapply quietly_trans; eauto|exact Hret].
      * inversion Hex; subst.
        destruct (IH1 _ (Seek t ex) _ _ ltac:(tauto) H1)
          as (r0 & cr & Hr & Hq & Hret).
        exists r0, cr. split; [now left|]. now split.
  - assert (Hloop : forall c1 o c2, quietly c0 c1 ->
              while_loop cnd (exec PH AH b fuel Run) fuel c1 = (o, c2) ->
              o = Finalize ->
              exists r0 cr,
                returns_in b r0 /\ quietly c0 cr /\
                coz_return PH r0 cr = (Finalize, c2)).
    { intros c1 o1 c2 Hc1.
      apply (while_loop_ind (quietly c0)
               (fun o c2 => o = Finalize ->
                  exists r0 cr,
                    returns_in b r0 /\ quietly c0 cr /\
                    coz_return PH r0 cr = (Finalize, c2))); auto.
      - intros c Hc. eapply quietly_trans; [exact Hc|]. solve_quiet.
      - intros c _. discriminate.
      - intros c _. discriminate.
      - intros c o2 c3 Hc Hstep.
        pose proof (exec_quietly _ _ _ _ _ _ Hstep) as Hq.
        destruct o2; simpl; try discriminate.
        + eapply quietly_trans; eauto.
        + intros _.
          destruct (IHb _ Run _ _ I Hstep) as (r0 & cr & Hr & Hq' & Hret).
          exists r0, cr. split; [exact Hr|].
          split; [eapply quietly_trans; eauto|exact Hret]. }
    destruct m as [|t ex].
    + eapply Hloop; [apply quietly_refl|exact Hex|reflexivity].
    + destruct (exec PH AH b fuel (Seek t ex) c0) as [o1 c1] eqn:H1.
      pose proof (exec_quietly _ _ _ _ _ _ H1) as Hq1.
      destruct o1; try discriminate.
      * eapply Hloop; [exact Hq1|exact Hex|reflexivity].
      * inversion Hex; subst. exact (IHb _ (Seek t ex) _ _ Hm H1).
  - destruct m as [|t ex]; [split_run Hex|].
    destruct (Z.eqb_spec t ip); [discriminate|].
    destruct (Z.eqb_spec t eh); [|discriminate].
    simpl in Hm. exfalso. apply Hm. left. congruence.
  - destruct m as [|t ex]; [split_run Hex|].
    destruct (Z.eqb_spec t ip); [discriminate|].
    destruct (Z.eqb_spec t eh); [|discriminate].
    simpl in Hm. exfalso. apply Hm. left. congruence.
  - destruct m as [|t ex].
    + unfold_steps Hex. simpl in Hex. split_run Hex.
    + destruct (Z.eqb_spec t ip).
      * unfold_steps Hex. split_run Hex.
      * destruct (Z.eqb_spec t eh); [|discriminate].
        simpl in Hm. exfalso. apply Hm. left. congruence.
  - destruct m as [|t ex]; [|discriminate].
    exists r, c0. split; [reflexivity|]. split; [apply quietly_refl|exact Hex].
  - destruct m as [|t ex].
    + destruct (IHb _ Run _ _ I Hex) as (r0 & cr & Hr & Hq & Hret).
      exists r0, cr. split; [now left|]. split; [exact Hq|exact Hret].
    + destruct (exec PH AH b fuel (Seek t ex) c0) as [o1 c1] eqn:H1.
      pose proof (exec_quietly _ _ _ _ _ _ H1) as Hq1.
      destruct o1; try discriminate.
      * destruct (t =? h); [|discriminate].
        destruct ex as [e|]; [|discriminate].
        destruct (cl e) as [hd|] eqn:Hcl; [|discriminate].
        destruct (IHcl _ _ Hcl _ Run _ _ I Hex)
          as (r0 & cr & Hr & Hq & Hret).
        exists r0, cr. split.
        { right. exists e. rewrite Hcl. exact Hr. }
        split; [|exact Hret].
        eapply quietly_trans; [exact Hq1|].
        eapply quietly_trans; [|exact Hq]. solve_quiet.
      * inversion Hex; subst.
        destruct (IHb _ (Seek t ex) _ _ Hm H1) as (r0 & cr & Hr & Hq & Hret).
        exists r0, cr. split; [now left|]. now split.
Qed.

(** What [COZ_RETURN] leaves when its hook returns. *)
Lemma coz_return_completed (body : stmt St V E A R)
  (r : return_operand St V E) (c0 c1 : coroutine St P V E A) :
  returns_in body r ->
  coz_return PH r c0 = (Finalize, c1) ->
  exists last,
    trace (finalizer PH c1) = trace c0 ++ [last; EvDtorState; EvFinalize] /\
    completed_by PH body last (finalizer PH c1).
Proof.
  intros Hr Hret. unfold_steps Hret.
  destruct r as [|f|fv]; simpl in Hret.
  - destruct (return_void PH) as [rv|] eqn:Hrv; [|discriminate].
    destruct (rv (promise c0)) as [q|e] eqn:Hq; inversion Hret; subst.
    exists EvReturnVoid. simpl. rewrite <- !app_assoc.
    split; [reflexivity|]. exists rv, (promise c0), q. auto.
  - destruct (f (m_state c0)) as [st|e]; [|discriminate]. simpl in Hret.
    destruct (return_void PH) as [rv|] eqn:Hrv; [|discriminate].
    destruct (rv (promise c0)) as [q|e] eqn:Hq; inversion Hret; subst.
    exists EvReturnVoid. simpl. rewrite <- !app_assoc.
    split; [reflexivity|]. exists rv, (promise c0), q. auto.
  - destruct (return_value PH) as [rv|] eqn:Hrv; [|discriminate].
    destruct (rv (fv (m_state c0)) (promise c0)) as [q|e] eqn:Hq;
      inversion Hret; subst.
    exists (EvReturnValue (fv (m_state c0))). simpl. rewrite <- !app_assoc.
    split; [reflexivity|]. exists fv, rv, (promise c0), q. auto.
Qed.

(** One pass that ends at [_coz_finalize]: the last thing before the
    finalizer is a return hook. *)
Lemma switch_completed (body : stmt St V E A R) (fuel : nat) :
  coz_body body ->
  forall ex (c c1 : coroutine St P V E A),
    entry_ok body c ->
    coz_switch PH AH body fuel ex c = (Finalize, c1) ->
    exists pre last,
      trace c1 = trace c ++ pre ++ [last; EvDtorState; EvFinalize] /\
      count_ev is_exit pre = 0%nat /\
      completed_by PH body last c1.
Proof.
  intros Hb ex c c1 Hentry Hsw. unfold coz_switch in Hsw.
  destruct (coz_dispatch PH AH body fuel ex c) as [o0 c0] eqn:Hd.
  assert (Hq : quietly c c0).
  { unfold coz_dispatch in Hd. destruct (m_next c =? 0);
      eapply exec_quietly; eauto. }
  destruct o0; try discriminate.
  - unfold coz_end, implicit_return, call_return_void in Hsw. simpl in Hsw.
    destruct (return_void PH) as [rv|] eqn:Hrv; [|discriminate].
    destruct (rv (promise c0)) as [q|e] eqn:Hrq; inversion Hsw; subst.
    destruct Hq as (pre & Hpre & Hcnt).
    exists pre, EvReturnVoid. simpl. rewrite Hpre, <- !app_assoc.
    split; [reflexivity|]. split; [exact Hcnt|].
    exists rv, (promise c0), q. auto.
  - inversion Hsw; subst. clear Hsw.
    assert (Horigin : exists r cr,
               returns_in body r /\ quietly c cr /\
               coz_return PH r cr = (Finalize, c0)).
    { unfold coz_dispatch in Hd.
      destruct (Z.eqb_spec (m_next c) 0) as [H0|H0].
      - exact (exec_finalize_origin body _ Run _ _ I Hd).
      - apply (exec_finalize_origin body _ _ _ _) in Hd; [exact Hd|].
        destruct Hentry as [|[(k & eh & Hsp)|Htry]]; [contradiction| |].
        + eapply resume_label_not_cleanup; [apply Hb|exact Hsp].
        + eapply try_label_not_cleanup; [apply Hb|exact Htry]. }
    destruct Horigin as (r & cr & Hr & (pre & Hpre & Hcnt) & Hret).
    destruct (coz_return_completed body r cr c0 Hr Hret)
      as (last & Htr & Hby).
    exists pre, last. rewrite Htr, Hpre, <- app_assoc.
    split; [reflexivity|]. split; [exact Hcnt|exact Hby].
Qed.

(** A call that leaves the instance done ends with one hook and the
    finalizer: a return hook when it returns from the body,
    [unhandled_exception] when an error left the body with no handler
    registered. *)
Lemma retry_completed (body : stmt St V E A R) (fuel : nat) :
  coz_body body ->
  forall n ex (c : coroutine St P V E A),
    valid_eh body (m_eh c) -> entry_ok body c ->
    match coz_retry PH AH body fuel n ex c with
    | Returned c' | Threw _ c' =>
        m_next c' = SENTINEL ->
        exists pre last,
          trace c' = trace c ++ pre ++ [last; EvDtorState; EvFinalize] /\
          count_ev is_exit pre = 0%nat /\
          completed_by PH body last c'
    | _ => True
    end.
Proof.
  intros Hb. induction n as [|n IH]; intros ex c Hv Hentry; simpl;
    [exact I|].
  destruct (coz_switch PH AH body fuel ex c) as [o c1] eqn:Hsw.
  destruct (switch_lifecycle body fuel Hb _ _ _ _ Hv Hentry Hsw)
    as [Heh Hlife].
  destruct (coz_switch_exits _ _ _ _ _ _ Hsw) as (evs & Ht & Hshape).
  destruct o; simpl in Hshape; try contradiction; try exact I.
  - intros Hdone. exfalso.
    destruct Hlife as (k & ip & eh & Hin & Hip & _).
    destruct (susp_points_labels _ _ _ _ Hin) as [Hlab _].
    apply (coz_body_labels _ _ Hb) in Hlab. lia.
  - intros _. exact (switch_completed body fuel Hb ex c c1 Hentry Hsw).
  - simpl m_next.
    destruct (Z.eqb_spec (m_eh c1) SENTINEL) as [Heq|Hne]; simpl.
    + unfold coz_unhandled.
      destruct (unhandled_exception PH e (promise c1)) as [p thrown] eqn:Hu.
      assert (Hout : exists pre last,
                 trace (finalizer PH (set_promise p
                          (emit (EvUnhandled e) (set_next (m_eh c1) c1))))
                 = trace c ++ pre ++ [last; EvDtorState; EvFinalize] /\
                 count_ev is_exit pre = 0%nat /\
                 completed_by PH body last
                   (finalizer PH (set_promise p
                      (emit (EvUnhandled e) (set_next (m_eh c1) c1))))).
      { exists evs, (EvUnhandled e). simpl. rewrite Ht, <- !app_assoc.
        split; [reflexivity|]. split; [exact Hshape|].
        exists (promise c1). now rewrite Hu. }
      simpl. rewrite Hu. destruct thrown; intros _; exact Hout.
    + assert (Hentry2 : entry_ok body (set_next (m_eh c1) c1)).
      { right; right. simpl. destruct Heh; [contradiction|assumption]. }
      specialize (IH (Some e) (set_next (m_eh c1) c1) Heh Hentry2).
      destruct (coz_retry PH AH body fuel n (Some e) (set_next (m_eh c1) c1))
        as [c'|e' c'| |]; try exact I;
        intros Hdone; destruct (IH Hdone) as (pre & last & Htr & Hcnt & Hby);
        exists (evs ++ pre), last;
        (split; [simpl in Htr; rewrite Htr, Ht, <- !app_assoc; reflexivity|]);
        (split; [rewrite count_ev_app, Hshape, Hcnt; reflexivity
                |exact Hby]).
Qed.

(** *** Return *)

Lemma app_last3 (X : Type) (l l' : list X) (a b c a' b' c' : X) :
  l ++ [a; b; c] = l' ++ [a'; b'; c'] -> l = l' /\ a = a'.
Proof.
  intros H.
  assert (H' : ((l ++ [a]) ++ [b]) ++ [c] = ((l' ++ [a']) ++ [b']) ++ [c'])
    by (rewrite <- !app_assoc; exact H).
  apply app_inj_tail in H'. destruct H' as [H' _].
  apply app_inj_tail in H'. destruct H' as [H' _].
  apply app_inj_tail in H'. exact H'.
Qed.

(** A call that leaves the instance done: what it added to the trace
    ends with one hook and the finalizer, run once; when the hook is
    [return_value(v)], [v] is the value of the operand of a [COZ_RETURN]
    of the body and the promise is what the hook made of it, finalised. *)
Lemma retry_done_shape (body : stmt St V E A R) (fuel : nat) :
  coz_body body ->
  forall n ex (c c' : coroutine St P V E A),
    valid_eh body (m_eh c) -> entry_ok body c ->
    coz_retry PH AH body fuel n ex c = Returned c' ->
    done c' = true ->
    exists pre last,
      trace c' = trace c ++ pre ++ [last; EvDtorState; EvFinalize] /\
      count_ev is_finalize (pre ++ [last; EvDtorState; EvFinalize])
      = 1%nat /\
      m_next c' = SENTINEL /\
      completed_by PH body last c' /\
      forall v, last = EvReturnValue v ->
        exists fv rv p q,
          returns_in body (RetValue fv) /\ v = fv (m_state c') /\
          return_value PH = Some rv /\ rv v p = inl q /\
          promise c' = finalize PH q /\
          forall get : P -> option V,
            (forall u p q, rv u p = inl q -> get (finalize PH q) = Some u) ->
            get (promise c') = Some v.
Proof.
  intros Hb n ex c c' Hv Hentry Hret Hd.
  apply done_spec in Hd.
  pose proof (retry_completed body fuel Hb n ex c Hv Hentry) as Hc.
  rewrite Hret in Hc.
  destruct (Hc Hd) as (pre & last & Htr & Hcnt & Hby).
  exists pre, last. split; [exact Htr|].
  split.
  { rewrite count_ev_app. destruct (is_exit_finalize _ Hcnt) as [-> _].
    destruct last; simpl in Hby; try contradiction; reflexivity. }
  split; [exact Hd|]. split; [exact Hby|].
  intros v ->. simpl in Hby.
  destruct Hby as (fv & rv & p & q & Hin & Hval & Hrv & Hq & Hp).
  exists fv, rv, p, q. repeat split; auto.
  intros get Hget. rewrite Hp. exact (Hget _ _ _ Hq).
Qed.

Lemma retry_tmp (body : stmt St V E A R) (fuel : nat) :
  coz_body body -> yield_value_returns PH ->
  forall n ex (c : coroutine St P V E A),
    valid_eh body (m_eh c) -> balanced c -> tmp_entry body c ->
    match coz_retry PH AH body fuel n ex c with
    | Returned c' | Threw _ c' => valid_eh body (m_eh c') /\ tmp_at_rest body c'
    | _ => True
    end.
Proof.
  intros Hb Hy. induction n as [|n IH]; intros ex c Hv Hbal Hentry; simpl;
    [exact I|].
  destruct (coz_switch PH AH body fuel ex c) as [o c1] eqn:Hsw.
  destruct (switch_lifecycle body fuel Hb _ _ _ _ Hv
              (tmp_entry_ok _ _ Hentry) Hsw) as [Heh Hlife].
  destruct (switch_tmp body fuel Hb Hy _ _ _ _ Hbal Hentry Hsw)
    as [Hb1 Htmp].
  destruct o; try contradiction; try exact I.
  - split; [exact Heh|]. split; [exact Hb1|]. now right.
  - split; [exact Heh|]. split; [exact Hb1|]. now left.
  - simpl m_next.
    destruct (Z.eqb_spec (m_eh c1) SENTINEL) as [Heq|Hne]; simpl.
    + unfold coz_unhandled.
      destruct (unhandled_exception PH e _) as [p [e'|]]; simpl;
        (split; [exact Heh|]); (split; [solve_balanced|]);
        left; simpl; auto.
    + apply IH; [exact Heh|exact Hb1|].
      right; right. simpl. split; [|exact Htmp].
      destruct Heh; [contradiction|assumption].
Qed.

Lemma reachable_settled (body : stmt St V E A R)
  (c : coroutine St P V E A) :
  coz_body body -> reachable PH AH body c ->
  valid_eh body (m_eh c) /\
  ((m_next c = SENTINEL /\ count_ev is_finalize (trace c) = 1%nat) \/
   (suspended_at body c /\ count_ev is_exit (trace c) = 0%nat)).
Proof.
  intros Hb Hr. induction Hr as [fuel params p raw c Hcb
                                |fuel c c' Hr IH Hcb
                                |c a a' Hr IH Ht].
  - pose proof (retry_settles body fuel Hb fuel None
                  (start_entry params (coroutine_ctor p raw))
                  (or_introl eq_refl) (or_introl eq_refl)) as Hl.
    unfold start, invoke in Hcb.
    destruct Hcb as [Heq|[e Heq]]; rewrite Heq in Hl;
      destruct Hl as (Hv & evs & Htr & Hcases); simpl in Htr;
      (split; [exact Hv|]); rewrite Htr; tauto.
  - destruct IH as [Hv [[Hdone Hcnt]|[Hsus Hcnt]]].
    + destruct fuel as [|f].
      * destruct Hcb as [Heq|[e Heq]]; discriminate.
      * unfold resume in Hcb.
        rewrite (invoke_done body (S f) c Hb ltac:(lia) Hdone) in Hcb.
        destruct Hcb as [Heq|[e Heq]]; inversion Heq; subst.
        split; [exact Hv|now left].
    + pose proof (retry_settles body fuel Hb fuel None c Hv) as Hl.
      unfold resume, invoke in Hcb.
      assert (Hentry : entry_ok body c).
      { destruct Hsus as (k & ip & eh & Hin & Hip & _).
        right; left. exists k, eh. now rewrite Hip. }
      specialize (Hl Hentry).
      destruct (is_exit_finalize _ Hcnt) as [Hfin _].
      destruct Hcb as [Heq|[e Heq]]; rewrite Heq in Hl;
        destruct Hl as (Hv' & evs & Htr & Hcases);
        (split; [exact Hv'|]); rewrite Htr, !count_ev_app, Hfin, Hcnt;
        tauto.
  - destruct IH as [Hv [Hdone|[Hsus Hcnt]]].
    + split; [exact Hv|now left].
    + split; [exact Hv|right]. split; [|exact Hcnt].
      destruct Hsus as (k & ip & eh & Hin & Hip & Hocc).
      exists k, ip, eh. split; [exact Hin|]. split; [exact Hip|].
      simpl. rewrite Ht in Hocc. destruct k; simpl in *; tauto.
Qed.

(** *** The scratch frame is large enough *)

Lemma placements_registrations (s : stmt St V E A R) :
  registrations s = map snd (placements s).
Proof.
  induction s; simpl; rewrite ?map_app; try reflexivity; congruence.
Qed.

Lemma placements_labels (s : stmt St V E A R) (ip : Z)
  (sa : Layout.size_align) :
  In (ip, sa) (placements s) -> In ip (labels s).
Proof.
  induction s; simpl; rewrite ?in_app_iff; try tauto.
  - intros [Heq|[]]. inversion Heq. now left.
  - intros [Heq|[]]. inversion Heq. now left.
Qed.

(** A resume ordinal names one suspension point, hence one type. *)
Lemma placements_unique (s : stmt St V E A R) :
  forall n cur ip sa sa',
    numbered s n cur ->
    In (ip, sa) (placements s) -> In (ip, sa') (placements s) -> sa = sa'.
Proof.
  induction s; intros n cur ip0 sa0 sa0' Hn H1 H2; simpl in Hn, H1, H2;
    try rewrite in_app_iff in H1; try rewrite in_app_iff in H2;
    try contradiction.
  - destruct Hn as [Hn1 Hn2].
    destruct H1 as [H1|H1]; destruct H2 as [H2|H2];
      try (eapply IHs1; eauto; fail); try (eapply IHs2; eauto; fail);
      apply placements_labels in H1, H2.
    + apply (labels_range _ _ _ _ Hn1) in H1.
      apply (labels_range _ _ _ _ Hn2) in H2. lia.
    + apply (labels_range _ _ _ _ Hn2) in H1.
      apply (labels_range _ _ _ _ Hn1) in H2. lia.
  - destruct Hn as [Hn1 Hn2].
    destruct H1 as [H1|H1]; destruct H2 as [H2|H2];
      try (eapply IHs1; eauto; fail); try (eapply IHs2; eauto; fail);
      apply placements_labels in H1, H2.
    + apply (labels_range _ _ _ _ Hn1) in H1.
      apply (labels_range _ _ _ _ Hn2) in H2. lia.
    + apply (labels_range _ _ _ _ Hn2) in H1.
      apply (labels_range _ _ _ _ Hn1) in H2. lia.
  - eapply IHs; eauto.
  - destruct H1 as [H1|[]], H2 as [H2|[]]. congruence.
  - destruct H1 as [H1|[]], H2 as [H2|[]]. congruence.
  - destruct Hn as (_ & _ & Hn & _). eapply IHs; eauto.
Qed.

(** A point that keeps a temporary has a placement. *)
Lemma susp_points_placements (s : stmt St V E A R) (k : susp_kind)
  (ip eh : Z) :
  In (k, ip, eh) (susp_points s) -> k <> KYieldLite ->
  exists sa, In (ip, sa) (placements s).
Proof.
  induction s; simpl; rewrite ?in_app_iff; try tauto.
  - intros [H|H] Hk; [destruct (IHs1 H Hk) as [sa Hsa]
                     |destruct (IHs2 H Hk) as [sa Hsa]];
      exists sa; rewrite in_app_iff; tauto.
  - intros [H|H] Hk; [destruct (IHs1 H Hk) as [sa Hsa]
                     |destruct (IHs2 H Hk) as [sa Hsa]];
      exists sa; rewrite in_app_iff; tauto.
  - intros [Heq|[]] _. inversion Heq; subst. exists sa. now left.
  - intros [Heq|[]] Hk. inversion Heq; subst. congruence.
  - intros [Heq|[]] _. inversion Heq; subst. exists sa. now left.
Qed.


(** X5.  [destroy()] is in order on every state between calls that is not
    done.  Such a state waits at one suspension point of the body: its
    resume ordinal is in [m_next], its kind says what sits in the scratch
    frame.  [destroy()] comes back after destroying that temporary (a
    [COZ_YIELD_LITE] has none and the frame is left as it is) and running
    the finalizer once, with no body code and no handler run; the frame is
    empty afterwards and [m_next] is the cleanup ordinal of the point. *)
Theorem reachable_state_can_be_destroyed (body : stmt St V E A R)
  (fuel : nat) (c : coroutine St P V E A) :
  coz_body body -> (0 < fuel)%nat ->
  reachable PH AH body c -> done c = false ->
  exists k eh,
    In (k, m_next c, eh) (susp_points body) /\
    (forall k' eh',
       In (k', m_next c, eh') (susp_points body) -> k' = k /\ eh' = eh) /\
    occupant_of k (m_mem_tmp c) /\
    exists c',
      destroy PH AH body fuel c = Returned c' /\
      trace c' = trace c
                   ++ match k with KYieldLite => [] | _ => [EvDtorTmp] end
                   ++ [EvDtorState; EvFinalize] /\
      m_mem_tmp c' = match k with
                     | KYieldLite => m_mem_tmp c
                     | _ => None
                     end /\
      m_next c' = eh /\ m_eh c' = m_eh c /\
      promise c' = finalize PH (promise c) /\
      m_state c' = m_state c.
Proof.
  intros Hb Hf Hr Hnd.
  destruct (reachable_settled body c Hb Hr) as [_ [[Hdone _]|[Hsus _]]].
  - unfold done in Hnd. rewrite Hdone, Z.eqb_refl in Hnd. discriminate.
  - destruct Hsus as (k & ip & eh & Hin & Hip & Hocc).
    pose proof (susp_points_numbered _ _ _ _ _ _ (proj1 Hb) Hin) as Heh.
    subst ip. exists k, eh. split; [exact Hin|]. split.
    { intros k' eh' Hin'. split.
      - exact (susp_points_kind body _ _ _ _ _ _ _ (proj1 Hb) Hin' Hin).
      - pose proof (susp_points_numbered _ _ _ _ _ _ (proj1 Hb) Hin').
        lia. }
    split; [exact Hocc|].
    exists (finalizer PH (cleanup k (set_next (m_next c + 1) c))).
    split; [now apply (destroy_suspended_eq body fuel c k (m_next c) eh)|].
    destruct k; simpl; rewrite <- ?app_assoc; repeat split;
      try reflexivity; lia.
Qed.

(** Between calls, over the whole life of an instance: the finalizer has
    run once for every [start] that entered the body, but for the run the
    instance is suspended in. *)
Lemma lifetime_settled {Params : Type} (state_ctor : Params -> St + E)
  (body : stmt St V E A R) (n : nat) (c : coroutine St P V E A) :
  coz_body body -> lifetime PH AH state_ctor body n c ->
  valid_eh body (m_eh c) /\
  ((m_next c = SENTINEL /\ count_ev is_finalize (trace c) = n) \/
   (suspended_at body c /\
    (count_ev is_finalize (trace c) + 1)%nat = n)).
Proof.
  intros Hb Hl.
  assert (Hlt : forall x : coroutine St P V E A,
             suspended_at body x -> m_next x <> SENTINEL).
  { intros x (k & ip & eh & Hin & Hip & _).
    destruct (susp_points_labels _ _ _ _ Hin) as [Hlab _].
    apply (coz_body_labels _ _ Hb) in Hlab. lia. }
  induction Hl as [p raw
                  |fuel params st n c c' Hl IH Hdone Hctor Hcb
                  |fuel params e n c c' Hl IH Hdone Hctor Hcb
                  |fuel n c c' Hl IH Hcb
                  |n c a a' Hl IH Ht].
  - split; [now left|]. left. split; reflexivity.
  - apply done_spec in Hdone.
    destruct IH as [Hv [[_ Hcnt]|[Hsus _]]];
      [|exfalso; exact (Hlt _ Hsus Hdone)].
    pose proof (retry_settles body fuel Hb fuel None (start_entry st c)
                  Hv (or_introl eq_refl)) as Hs.
    unfold start_emplace in Hcb. rewrite Hctor in Hcb.
    unfold start, invoke in Hcb.
    destruct Hcb as [Heq|[e Heq]]; rewrite Heq in Hs;
      destruct Hs as (Hv' & evs & Htr & Hcases); simpl in Htr;
      (split; [exact Hv'|]); rewrite Htr, count_ev_app, Hcnt;
      (destruct Hcases as [[Hsus Hq]|[Hd Hq]];
       [right; split; [exact Hsus|];
        destruct (is_exit_finalize _ Hq) as [-> _]; lia
       |left; split; [exact Hd|]; rewrite Hq; lia]).
  - unfold start_emplace in Hcb. rewrite Hctor in Hcb.
    destruct Hcb as [Heq|[e' Heq]]; [discriminate|].
    inversion Heq; subst. exact IH.
  - destruct IH as [Hv [[Hdone Hcnt]|[Hsus Hcnt]]].
    + destruct fuel as [|f].
      * destruct Hcb as [Heq|[e Heq]]; discriminate.
      * unfold resume in Hcb.
        rewrite (invoke_done body (S f) c Hb ltac:(lia) Hdone) in Hcb.
        destruct Hcb as [Heq|[e Heq]]; inversion Heq; subst.
        split; [exact Hv|now left].
    + pose proof (retry_settles body fuel Hb fuel None c Hv) as Hs.
      unfold resume, invoke in Hcb.
      assert (Hentry : entry_ok body c).
      { destruct Hsus as (k & ip & eh & Hin & Hip & _).
        right; left. exists k, eh. now rewrite Hip. }
      specialize (Hs Hentry).
      destruct Hcb as [Heq|[e Heq]]; rewrite Heq in Hs;
        destruct Hs as (Hv' & evs & Htr & Hcases);
        (split; [exact Hv'|]); rewrite Htr, count_ev_app;
        (destruct Hcases as [[Hsus' Hq]|[Hd Hq]];
         [right; split; [exact Hsus'|];
          destruct (is_exit_finalize _ Hq) as [-> _]; lia
         |left; split; [exact Hd|]; rewrite Hq; lia]).
  - destruct IH as [Hv [Hdone|[Hsus Hcnt]]].
    + split; [exact Hv|now left].
    + split; [exact Hv|right]. split; [|exact Hcnt].
      destruct Hsus as (k & ip & eh & Hin & Hip & Hocc).
      exists k, ip, eh. split; [exact Hin|]. split; [exact Hip|].
      simpl. rewrite Ht in Hocc. destruct k; simpl in *; tauto.
Qed.



(** X6.  Over the life of an instance, from its construction through any
    number of calls of [start] (on an instance that is done) and of
    [resume()], the finalizer has run once for every [start] that entered
    the body, but for the run the instance is suspended in; [destroy()] on
    an instance that is not done runs it for that run.  A new instance and
    one whose [start] threw in the constructor of the state closure are
    done with the finalizer not run; an instance started once has run it
    once when it is done and not at all while it is not. *)
Theorem finalized_once_in_a_lifetime {Params : Type}
  (state_ctor : Params -> St + E) (body : stmt St V E A R) (n : nat)
  (c : coroutine St P V E A) :
  coz_body body -> lifetime PH AH state_ctor body n c ->
  count_ev is_finalize (trace c) = (if done c then n else n - 1)%nat /\
  (done c = false -> (0 < n)%nat) /\
  (forall fuel c',
     (0 < fuel)%nat -> destroy PH AH body fuel c = Returned c' ->
     count_ev is_finalize (trace c') = n) /\
  (forall fuel params e,
     done c = true -> state_ctor params = inr e ->
     start_emplace PH AH state_ctor body fuel params c = Threw e c).
Proof.
  intros Hb Hl.
  assert (Hlast : forall fuel params e,
             done c = true -> state_ctor params = inr e ->
             start_emplace PH AH state_ctor body fuel params c = Threw e c).
  { intros fuel params e _ Hctor. unfold start_emplace. rewrite Hctor.
    reflexivity. }
  destruct (lifetime_settled state_ctor body n c Hb Hl)
    as [_ [[Hdone Hcnt]|[Hsus Hcnt]]].
  - assert (Hd : done c = true) by now apply done_spec.
    refine (conj _ (conj _ (conj _ Hlast))).
    + rewrite Hd. exact Hcnt.
    + rewrite Hd. discriminate.
    + intros fuel c' _ Hdes.
      unfold destroy in Hdes. rewrite Hdone, Z.eqb_refl in Hdes.
      discriminate.
  - destruct Hsus as (k & ip & eh & Hin & Hip & _).
    destruct (susp_points_labels _ _ _ _ Hin) as [Hlab _].
    apply (coz_body_labels _ _ Hb) in Hlab.
    assert (Hnd : done c = false).
    { unfold done. rewrite Hip. apply Z.eqb_neq. lia. }
    refine (conj _ (conj _ (conj _ Hlast)));
      [rewrite Hnd; lia|intros _; lia|].
    intros fuel c' Hf Hd.
    rewrite (destroy_suspended_eq body fuel c k ip eh Hb Hf Hin Hip) in Hd.
    inversion Hd; subst.
    destruct k; simpl; rewrite !count_ev_app; simpl;
      unfold count_ev in *; simpl; lia.
Qed.

Lemma reachable_tmp (body : stmt St V E A R) (c : coroutine St P V E A) :
  coz_body body -> yield_value_returns PH -> reachable PH AH body c ->
  valid_eh body (m_eh c) /\ tmp_at_rest body c.
Proof.
  intros Hb Hy Hr. induction Hr as [fuel params p raw c Hcb
                                   |fuel c c' Hr IH Hcb
                                   |c a a' Hr IH Ht].
  - pose proof (retry_tmp body fuel Hb Hy fuel None
                  (start_entry params (coroutine_ctor p raw))
                  (or_introl eq_refl) eq_refl
                  (or_introl (conj eq_refl eq_refl))) as Hl.
    unfold start, invoke in Hcb.
    destruct Hcb as [Heq|[e Heq]]; rewrite Heq in Hl; exact Hl.
  - destruct IH as [Hv [Hbal [[Hdone Hnone]|Hsus]]].
    + destruct fuel as [|f].
      * destruct Hcb as [Heq|[e Heq]]; discriminate.
      * unfold resume in Hcb.
        rewrite (invoke_done body (S f) c Hb ltac:(lia) Hdone) in Hcb.
        destruct Hcb as [Heq|[e Heq]]; inversion Heq; subst.
        split; [exact Hv|]. split; [exact Hbal|now left].
    + assert (Hentry : tmp_entry body c).
      { destruct Hsus as (k & ip & eh & Hin & Hip & Hocc).
        right; left. exists k, eh. now rewrite Hip. }
      pose proof (retry_tmp body fuel Hb Hy fuel None c Hv Hbal Hentry) as Hl.
      unfold resume, invoke in Hcb.
      destruct Hcb as [Heq|[e Heq]]; rewrite Heq in Hl; exact Hl.
  - destruct IH as [Hv [Hbal Hrest]].
    split; [exact Hv|]. split; [solve_balanced|].
    destruct Hrest as [[_ Hnone]|(k & ip & eh & Hin & Hip & Hocc)];
      [congruence|].
    right. exists k, ip, eh. split; [exact Hin|]. split; [exact Hip|].
    destruct k; simpl in *; congruence.
Qed.

Lemma lifetime_tmp {Params : Type} (state_ctor : Params -> St + E)
  (body : stmt St V E A R) (n : nat) (c : coroutine St P V E A) :
  coz_body body -> yield_value_returns PH ->
  lifetime PH AH state_ctor body n c ->
  valid_eh body (m_eh c) /\ tmp_at_rest body c.
Proof.
  intros Hb Hy Hl.
  induction Hl as [p raw
                  |fuel params st n c c' Hl IH Hdone Hctor Hcb
                  |fuel params e n c c' Hl IH Hdone Hctor Hcb
                  |fuel n c c' Hl IH Hcb
                  |n c a a' Hl IH Ht].
  - split; [now left|]. split; [reflexivity|]. left. split; reflexivity.
  - apply done_spec in Hdone.
    destruct IH as [Hv [Hbal Hrest]].
    assert (Hnone : m_mem_tmp c = None).
    { destruct Hrest as [[_ Hnone]|(k & ip & eh & Hin & Hip & _)];
        [exact Hnone|].
      destruct (susp_points_labels _ _ _ _ Hin) as [Hlab _].
      apply (coz_body_labels _ _ Hb) in Hlab. lia. }
    pose proof (retry_tmp body fuel Hb Hy fuel None (start_entry st c)
                  Hv Hbal (or_introl (conj eq_refl Hnone))) as Hs.
    unfold start_emplace in Hcb. rewrite Hctor in Hcb.
    unfold start, invoke in Hcb.
    destruct Hcb as [Heq|[e Heq]]; rewrite Heq in Hs; exact Hs.
  - unfold start_emplace in Hcb. rewrite Hctor in Hcb.
    destruct Hcb as [Heq|[e' Heq]]; [discriminate|].
    inversion Heq; subst. exact IH.
  - destruct IH as [Hv [Hbal [[Hdone Hnone]|Hsus]]].
    + destruct fuel as [|f].
      * destruct Hcb as [Heq|[e Heq]]; discriminate.
      * unfold resume in Hcb.
        rewrite (invoke_done body (S f) c Hb ltac:(lia) Hdone) in Hcb.
        destruct Hcb as [Heq|[e Heq]]; inversion Heq; subst.
        split; [exact Hv|]. split; [exact Hbal|now left].
    + assert (Hentry : tmp_entry body c).
      { destruct Hsus as (k & ip & eh & Hin & Hip & Hocc).
        right; left. exists k, eh. now rewrite Hip. }
      pose proof (retry_tmp body fuel Hb Hy fuel None c Hv Hbal Hentry) as Hs.
      unfold resume, invoke in Hcb.
      destruct Hcb as [Heq|[e Heq]]; rewrite Heq in Hs; exact Hs.
  - destruct IH as [Hv [Hbal Hrest]].
    split; [exact Hv|]. split; [solve_balanced|].
    destruct Hrest as [[_ Hnone]|(k & ip & eh & Hin & Hip & Hocc)];
      [congruence|].
    right. exists k, ip, eh. split; [exact Hin|]. split; [exact Hip|].
    destruct k; simpl in *; congruence.
Qed.

(** X7.  With a [yield_value] that does not throw, every temporary a body has
    built in the scratch frame has been destroyed once, but for the one of
    the suspension point the instance waits at ([COZ_YIELD_LITE] keeps
    none); an instance that is done holds none, and [destroy()] destroys
    the one that is left. *)
Theorem temporaries_are_balanced (body : stmt St V E A R)
  (c : coroutine St P V E A) :
  coz_body body -> yield_value_returns PH -> reachable PH AH body c ->
  balanced c /\
  (done c = true -> m_mem_tmp c = None) /\
  forall fuel c',
    (0 < fuel)%nat -> destroy PH AH body fuel c = Returned c' ->
    balanced c' /\ m_mem_tmp c' = None.
Proof.
  intros Hb Hy Hr.
  destruct (reachable_tmp body c Hb Hy Hr) as [_ [Hbal Hrest]].
  split; [exact Hbal|].
  destruct Hrest as [[Hdone Hnone]|(k & ip & eh & Hin & Hip & Hocc)].
  - split; [auto|]. intros fuel c' _ Hd.
    unfold destroy in Hd. rewrite Hdone, Z.eqb_refl in Hd. discriminate.
  - destruct (susp_points_labels _ _ _ _ Hin) as [Hl _].
    apply (coz_body_labels _ _ Hb) in Hl.
    split.
    + unfold done. rewrite Hip.
      destruct (Z.eqb_spec ip SENTINEL) as [|_]; [lia|discriminate].
    + intros fuel c' Hf Hd.
      rewrite (destroy_suspended_eq body fuel c k ip eh Hb Hf Hin Hip) in Hd.
      inversion Hd; subst.
      destruct k; simpl in Hocc; simpl;
        try (destruct (m_mem_tmp c) eqn:Hm; [|congruence]);
        (split; [solve_balanced|reflexivity || exact Hocc]).
Qed.

(** *** The retry loop ends *)

(** Dispatching to a handler of a loop-free body moves [m_eh] on: to the
    enclosing region, or to a region that comes later in the body. *)
Lemma seek_moves_on (s : stmt St V E A R) :
  forall n cur fuel t ex (c : coroutine St P V E A) o c' l1 l2,
    loop_free s -> numbered s n cur ->
    try_labels s = l1 ++ t :: l2 ->
    exec PH AH s fuel (Seek t ex) c = (o, c') ->
    o = Fatal \/ m_eh c' = cur \/ In (m_eh c') l2.
Proof.
  induction s; intros n cur fuel t ex c0 o c' l1 l2 Hlf Hn Hl Hex;
    simpl in Hlf, Hn, Hl, Hex;
    try (destruct l1; discriminate); try contradiction.
  - destruct Hlf as [Hlf1 Hlf2]. destruct Hn as [Hn1 Hn2].
    destruct (app_eq_app_cons _ _ _ _ _ _ Hl) as [(a & Ha & ->)|(b & -> & Hb)].
    + destruct (exec PH AH s1 fuel (Seek t ex) c0) as [o1 c1] eqn:H1.
      assert (Hfound : is_seeking o1 = false).
      { eapply exec_seek_found; [|exact H1].
        apply try_labels_labels. rewrite Ha. apply in_elt. }
      pose proof (IHs1 _ _ _ _ _ _ _ _ _ _ Hlf1 Hn1 Ha H1) as Hadv.
      destruct o1; try discriminate;
        try (inversion Hex; subst;
             destruct Hadv as [Hd|[Hd|Hd]];
             [now left|right; now left|right; right; apply in_app_iff; tauto]).
      destruct Hadv as [Hd|Hadv]; [discriminate|].
      right.
      assert (Hall : forall h, In h (try_labels s2) ->
                               h = cur \/ In h (a ++ try_labels s2))
        by (intros h Hh; right; apply in_app_iff; tauto).
      assert (Hc1 : m_eh c1 = cur \/ In (m_eh c1) (a ++ try_labels s2))
        by (destruct Hadv; [now left|right; apply in_app_iff; tauto]).
      exact (proj1 (exec_lifecycle s2
                      (fun x => x = cur \/ In x (a ++ try_labels s2))
                      _ _ _ Run _ _ _ Hn2 (or_introl eq_refl) Hall Hc1 I
                      Hex)).
    + rewrite exec_seek_miss in Hex; [eapply IHs2; eauto|].
      intros Hin. apply (labels_range _ _ _ _ Hn1) in Hin.
      assert (Hin2 : In t (labels s2)).
      { apply try_labels_labels. rewrite Hb. apply in_elt. }
      apply (labels_range _ _ _ _ Hn2) in Hin2. lia.
  - destruct Hlf as [Hlf1 Hlf2]. destruct Hn as [Hn1 Hn2].
    destruct (app_eq_app_cons _ _ _ _ _ _ Hl) as [(a & Ha & ->)|(b & -> & Hb)].
    + destruct (exec PH AH s1 fuel (Seek t ex) c0) as [o1 c1] eqn:H1.
      assert (Hfound : is_seeking o1 = false).
      { eapply exec_seek_found; [|exact H1].
        apply try_labels_labels. rewrite Ha. apply in_elt. }
      pose proof (IHs1 _ _ _ _ _ _ _ _ _ _ Hlf1 Hn1 Ha H1) as Hadv.
      destruct o1; try discriminate;
        inversion Hex; subst;
        (destruct Hadv as [Hd|[Hd|Hd]];
         [now left|right; now left|right; right; apply in_app_iff; tauto]).
    + rewrite exec_seek_miss in Hex; [eapply IHs2; eauto|].
      intros Hin. apply (labels_range _ _ _ _ Hn1) in Hin.
      assert (Hin2 : In t (labels s2)).
      { apply try_labels_labels. rewrite Hb. apply in_elt. }
      apply (labels_range _ _ _ _ Hn2) in Hin2. lia.
  - destruct Hlf as [Hlfb Hlfc]. destruct Hn as (-> & -> & Hnb & Hplain).
    destruct (app_eq_app_cons _ _ _ _ _ _ Hl) as [(a & Ha & ->)|(b & -> & Hb)].
    + destruct (exec PH AH s fuel (Seek t ex) c0) as [o1 c1] eqn:H1.
      assert (Hfound : is_seeking o1 = false).
      { eapply exec_seek_found; [|exact H1].
        apply try_labels_labels. rewrite Ha. apply in_elt. }
      pose proof (IHs _ _ _ _ _ _ _ _ _ _ Hlfb Hnb Ha H1) as Hadv.
      destruct o1; try discriminate;
        inversion Hex; subst;
        (destruct Hadv as [Hd|[Hd|Hd]];
         [now left
         |right; right; apply in_app_iff; right; left; now symmetry
         |right; right; apply in_app_iff; tauto]).
    + destruct b as [|x b]; simpl in Hb.
      * inversion Hb; subst.
        rewrite exec_seek_miss in Hex.
        -- rewrite Z.eqb_refl in Hex.
           destruct ex as [err|]; [|inversion Hex; now left].
           destruct (clauses err) as [hd|] eqn:Hcl.
           ++ apply Hplain, plain_no_labels in Hcl.
              apply (exec_keeps_eh _ _ _ _ _ _ (proj2 Hcl)) in Hex.
              right; left. exact Hex.
           ++ inversion Hex; subst. right; now left.
        -- intros Hin. apply (labels_range _ _ _ _ Hnb) in Hin. lia.
      * inversion Hb as [[Hx Hnil]]. destruct b; discriminate.
Qed.

Lemma retry_comes_back (body : stmt St V E A R) (fuel : nat) :
  coz_body body -> loop_free body ->
  forall n l1 h l2 e (c : coroutine St P V E A),
    try_labels body = l1 ++ h :: l2 ->
    (length l2 < n)%nat -> m_next c = h ->
    coz_retry PH AH body fuel n (Some e) c <> Diverged.
Proof.
  intros Hb Hlf.
  induction n as [|n IH]; intros l1 h l2 e c Hl Hlen Hh; [lia|].
  assert (Hlab : 1 <= h < SENTINEL).
  { apply (coz_body_labels _ _ Hb), try_labels_labels.
    rewrite Hl. apply in_elt. }
  assert (Hcatch : forall e' (c1 : coroutine St P V E A),
    m_eh c1 = SENTINEL \/ In (m_eh c1) l2 ->
    (if negb (m_next (set_next (m_eh c1) c1) =? SENTINEL)
     then coz_retry PH AH body fuel n (Some e') (set_next (m_eh c1) c1)
     else coz_unhandled PH e' (set_next (m_eh c1) c1)) <> Diverged).
  { intros e' c1 Hc1. simpl m_next.
    destruct (Z.eqb_spec (m_eh c1) SENTINEL) as [Heq|Hne]; simpl.
    - unfold coz_unhandled.
      destruct (unhandled_exception PH e' _) as [p [x|]]; discriminate.
    - destruct Hc1 as [|Hin]; [contradiction|].
      destruct (in_split _ _ Hin) as (a & b & ->).
      apply (IH (l1 ++ h :: a) (m_eh c1) b).
      + rewrite Hl, <- app_assoc. reflexivity.
      + rewrite length_app in Hlen. simpl in Hlen. lia.
      + reflexivity. }
  simpl. unfold coz_switch.
  destruct (coz_dispatch PH AH body fuel (Some e) c) as [o c1] eqn:Hd.
  unfold coz_dispatch in Hd. rewrite Hh in Hd.
  destruct (Z.eqb_spec h 0) as [|_]; [lia|].
  pose proof (seek_moves_on _ _ _ _ _ _ _ _ _ _ _ Hlf (proj1 Hb) Hl Hd)
    as Hadv.
  destruct o; try discriminate.
  - destruct Hadv as [|Hadv]; [discriminate|].
    unfold coz_end, implicit_return, call_return_void. simpl.
    destruct (return_void PH) as [rv|]; [|discriminate].
    destruct (rv (promise c1)) as [p|e']; [discriminate|].
    apply (Hcatch e' (emit EvReturnVoid (set_next SENTINEL c1))). exact Hadv.
  - destruct Hadv as [|Hadv]; [discriminate|]. now apply Hcatch.
  - intros _. eapply loop_free_exec; eauto.
Qed.

Lemma switch_loop_free (body : stmt St V E A R) (fuel : nat)
  (ex : option E) (c c1 : coroutine St P V E A) :
  loop_free body -> coz_switch PH AH body fuel ex c <> (OutOfFuel, c1).
Proof.
  intros Hlf Hsw. unfold coz_switch in Hsw.
  destruct (coz_dispatch PH AH body fuel ex c) as [o0 c0] eqn:Hd.
  assert (Hno : o0 <> OutOfFuel).
  { intros ->. unfold coz_dispatch in Hd.
    destruct (m_next c =? 0); eapply loop_free_exec; eauto. }
  destruct o0; try discriminate; try contradiction.
  unfold coz_end, implicit_return, call_return_void in Hsw. simpl in Hsw.
  split_run Hsw.
Qed.

Lemma first_pass_comes_back (body : stmt St V E A R) (fuel : nat) :
  coz_body body -> loop_free body ->
  forall n (c : coroutine St P V E A),
    valid_eh body (m_eh c) -> entry_ok body c ->
    (length (try_labels body) < n)%nat ->
    coz_retry PH AH body fuel n None c <> Diverged.
Proof.
  intros Hb Hlf n c Hv Hentry Hn. destruct n as [|n]; [lia|]. simpl.
  destruct (coz_switch PH AH body fuel None c) as [o c1] eqn:Hsw.
  destruct (switch_lifecycle body fuel Hb _ _ _ _ Hv Hentry Hsw)
    as [Heh Hlife].
  destruct o; try contradiction; try discriminate.
  - simpl m_next.
    destruct (Z.eqb_spec (m_eh c1) SENTINEL) as [Heq|Hne]; simpl.
    + unfold coz_unhandled.
      destruct (unhandled_exception PH e _) as [p [x|]]; discriminate.
    + destruct Heh as [|Hin]; [contradiction|].
      destruct (in_split _ _ Hin) as (a & b & Hl).
      apply (retry_comes_back body fuel Hb Hlf n a (m_eh c1) b e _ Hl);
        [|reflexivity].
      rewrite Hl, length_app in Hn. simpl in Hn. lia.
  - exfalso. exact (switch_loop_free _ _ _ _ _ Hlf Hsw).
Qed.

(** X11.  For a body without loops, every call comes back: [start] on a
    new instance, and [resume()] and [destroy()] on any state between
    calls, return, throw or stop at a failed assertion after at most one
    pass through [_coz_retry] per guarded region of the body plus one. *)
Theorem calls_come_back (body : stmt St V E A R) (fuel : nat) :
  coz_body body -> loop_free body ->
  (length (try_labels body) < fuel)%nat ->
  (forall params p raw,
     start PH AH body fuel params (coroutine_ctor p raw) <> Diverged) /\
  (forall c, reachable PH AH body c ->
     resume PH AH body fuel c <> Diverged /\
     destroy PH AH body fuel c <> Diverged).
Proof.
  intros Hb Hlf Hn. split.
  - intros params p raw. unfold start, invoke.
    apply (first_pass_comes_back body fuel Hb Hlf); auto.
    + now left.
    + now left.
  - intros c Hr.
    destruct (reachable_settled body c Hb Hr)
      as [Hv [[Hdone _]|[Hsus _]]].
    + split.
      * unfold resume. rewrite (invoke_done body fuel c Hb ltac:(lia) Hdone).
        discriminate.
      * unfold destroy. rewrite Hdone, Z.eqb_refl. discriminate.
    + destruct Hsus as (k & ip & eh & Hin & Hip & _). split.
      * unfold resume, invoke.
        apply (first_pass_comes_back body fuel Hb Hlf); auto.
        right; left. exists k, eh. now rewrite Hip.
      * rewrite (destroy_suspended_eq body fuel c k ip eh Hb ltac:(lia)
                   Hin Hip).
        discriminate.
Qed.

(** *** Suspension is transparent *)

Lemma seq_seek_miss (s : stmt St V E A R) :
  forall fuel t ex (c : coroutine St P V E A),
    ~ In t (labels s) ->
    seq_exec PH AH s fuel (Seek t ex) c = (Seeking, c).
Proof.
  induction s; intros fuel t ex c0 Hnot; simpl in *;
    try rewrite in_app_iff in Hnot; try reflexivity.
  - rewrite IHs1 by tauto. apply IHs2; tauto.
  - rewrite IHs1 by tauto. apply IHs2; tauto.
  - now rewrite IHs.
  - destruct (Z.eqb_spec t ip); [intuition congruence|].
    destruct (Z.eqb_spec t eh); [intuition congruence|]. reflexivity.
  - destruct (Z.eqb_spec t ip); [intuition congruence|].
    destruct (Z.eqb_spec t eh); [intuition congruence|]. reflexivity.
  - destruct (Z.eqb_spec t ip); [intuition congruence|].
    destruct (Z.eqb_spec t eh); [intuition congruence|]. reflexivity.
  - rewrite IHs by tauto.
    destruct (Z.eqb_spec t curr_eh); [simpl in Hnot; intuition congruence|].
    reflexivity.
Qed.

Lemma seq_run_not_seeking (s : stmt St V E A R) :
  forall fuel (c : coroutine St P V E A) o c',
    seq_exec PH AH s fuel Run c = (o, c') -> is_seeking o = false.
Proof.
  induction s; intros fuel c0 o c' Hex; simpl in Hex.
  - split_run Hex; reflexivity.
  - split_run Hex; reflexivity.
  - destruct (seq_exec PH AH s1 fuel Run c0) as [o1 c1] eqn:H1.
    apply IHs1 in H1.
    destruct o1; try discriminate; try (inversion Hex; subst; reflexivity).
    eapply IHs2; eauto.
  - destruct (c (m_state c0)); eauto.
  - revert Hex.
    apply (while_loop_ind (fun _ => True) (fun o _ => is_seeking o = false));
      auto.
    intros c1 o1 c1' _ Hstep. apply IHs in Hstep. now destruct o1.
  - split_run Hex; reflexivity.
  - split_run Hex; reflexivity.
  - unfold_steps Hex. simpl in Hex. split_run Hex; reflexivity.
  - unfold_steps Hex. simpl in Hex. split_run Hex; reflexivity.
  - eauto.
Qed.

Lemma seq_seek_found (s : stmt St V E A R) :
  forall fuel t ex (c : coroutine St P V E A) o c',
    In t (labels s) ->
    seq_exec PH AH s fuel (Seek t ex) c = (o, c') -> is_seeking o = false.
Proof.
  induction s; intros fuel t ex c0 o c' Hin Hex; simpl in Hin, Hex;
    try rewrite in_app_iff in Hin; try contradiction.
  - destruct (seq_exec PH AH s1 fuel (Seek t ex) c0) as [o1 c1] eqn:H1.
    destruct o1; try (inversion Hex; subst; reflexivity).
    + eapply seq_run_not_seeking; eauto.
    + destruct Hin as [Hin|Hin]; [|eapply IHs2; eauto].
      apply (IHs1 _ _ _ _ _ _ Hin) in H1. discriminate.
  - destruct (seq_exec PH AH s1 fuel (Seek t ex) c0) as [o1 c1] eqn:H1.
    destruct o1; try (inversion Hex; subst; reflexivity).
    destruct Hin as [Hin|Hin]; [|eapply IHs2; eauto].
    apply (IHs1 _ _ _ _ _ _ Hin) in H1. discriminate.
  - destruct (seq_exec PH AH s fuel (Seek t ex) c0) as [o1 c1] eqn:H1.
    pose proof (IHs _ _ _ _ _ _ Hin H1) as Hns.
    destruct o1; try discriminate; try (inversion Hex; subst; reflexivity).
    revert Hex.
    apply (while_loop_ind (fun _ => True) (fun o _ => is_seeking o = false));
      auto.
    intros c2 o2 c2' _ Hstep. apply seq_run_not_seeking in Hstep.
    now destruct o2.
  - destruct (Z.eqb_spec t ip); [inversion Hex; reflexivity|].
    destruct (Z.eqb_spec t eh); [inversion Hex; reflexivity|].
    intuition congruence.
  - destruct (Z.eqb_spec t ip); [inversion Hex; reflexivity|].
    destruct (Z.eqb_spec t eh); [inversion Hex; reflexivity|].
    intuition congruence.
  - destruct (Z.eqb_spec t ip).
    + unfold_steps Hex. split_run Hex; reflexivity.
    + destruct (Z.eqb_spec t eh); [inversion Hex; reflexivity|].
      intuition congruence.
  - destruct (seq_exec PH AH s fuel (Seek t ex) c0) as [o1 c1] eqn:H1.
    destruct o1; try (inversion Hex; subst; reflexivity).
    destruct Hin as [Hin|Hin].
    + apply (IHs _ _ _ _ _ _ Hin) in H1. discriminate.
    + simpl in Hin. destruct (Z.eqb_spec t curr_eh); [|intuition congruence].
      destruct ex as [err|]; [|inversion Hex; reflexivity].
      destruct (clauses err) as [hd|]; [|inversion Hex; reflexivity].
      eapply seq_run_not_seeking; eauto.
Qed.

(** A statement that suspends has stored one of its own resume
    ordinals. *)
Lemma exec_suspend_label (s : stmt St V E A R) :
  forall n cur fuel m (c : coroutine St P V E A) c1,
    numbered s n cur ->
    exec PH AH s fuel m c = (Suspend, c1) -> In (m_next c1) (labels s).
Proof.
  induction s; intros n cur fuel m c0 c1 Hn Hex; simpl in Hn, Hex.
  - split_run Hex.
  - split_run Hex.
  - destruct Hn as [Hn1 Hn2]. simpl. apply in_app_iff.
    destruct (exec PH AH s1 fuel m c0) as [o1 c1'] eqn:H1.
    destruct o1; try discriminate; eauto.
    inversion Hex; subst. eauto.
  - destruct Hn as [Hn1 Hn2]. simpl. apply in_app_iff.
    destruct m as [|t ex].
    + destruct (c (m_state c0)); eauto.
    + destruct (exec PH AH s1 fuel (Seek t ex) c0) as [o1 c1'] eqn:H1.
      destruct o1; try discriminate; eauto.
      inversion Hex; subst. eauto.
  - simpl.
    assert (Hloop : forall x o x',
              while_loop c (exec PH AH s fuel Run) fuel x = (o, x') ->
              o = Suspend -> In (m_next x') (labels s)).
    { intros x o x'.
      apply (while_loop_ind (fun _ => True)
               (fun o x' => o = Suspend -> In (m_next x') (labels s))); auto.
      - intros; discriminate.
      - intros; discriminate.
      - intros x1 o1 x2 _ Hstep. destruct o1; simpl; auto; try discriminate.
        intros _. eauto. }
    destruct m as [|t ex].
    + eapply Hloop; eauto.
    + destruct (exec PH AH s fuel (Seek t ex) c0) as [o1 c1'] eqn:H1.
      destruct o1; try discriminate.
      * eapply Hloop; eauto.
      * inversion Hex; subst. eauto.
  - destruct m as [|t ex]; split_run Hex; simpl; now left.
  - destruct m as [|t ex]; split_run Hex; simpl; now left.
  - destruct m as [|t ex].
    + unfold_steps Hex. simpl in Hex. split_run Hex; simpl; now left.
    + unfold_steps Hex. split_run Hex.
  - destruct m as [|t ex].
    + unfold_steps Hex. destruct r; simpl in Hex; split_run Hex.
    + inversion Hex.
  - destruct Hn as (-> & -> & Hb & Hplain). simpl. apply in_app_iff. left.
    destruct m as [|t ex]; [eauto|].
    destruct (exec PH AH s fuel (Seek t ex) c0) as [o1 c1'] eqn:H1.
    destruct o1; try discriminate; try (inversion Hex; subst; eauto; fail).
    exfalso.
    destruct (t =? n); [|discriminate].
    destruct ex as [err|]; [|discriminate].
    destruct (clauses err) as [hd|] eqn:Hcl; [|discriminate].
    apply Hplain, plain_no_labels in Hcl. destruct Hcl as [Hp1 Hp2].
    apply (run_completes hd (fun _ => True)) in Hex; auto.
    destruct Hex as (Hsus & _). discriminate.
Qed.

Lemma while_loop_mono (cnd : St -> bool)
  (step1 step2 : coroutine St P V E A -> outcome E * coroutine St P V E A) :
  (forall c o c', step1 c = (o, c') -> o <> OutOfFuel -> step2 c = (o, c')) ->
  forall n1 n2 c o c',
    (n1 <= n2)%nat -> while_loop cnd step1 n1 c = (o, c') ->
    o <> OutOfFuel -> while_loop cnd step2 n2 c = (o, c').
Proof.
  intros Hstep. induction n1 as [|n1 IH]; intros n2 c o c' Hle Hrun Ho;
    simpl in Hrun.
  - inversion Hrun; subst. contradiction.
  - destruct n2 as [|n2]; [lia|]. simpl.
    destruct (cnd (m_state c)); [|exact Hrun].
    destruct (step1 (emit EvBody c)) as [o1 c1] eqn:H1.
    destruct o1;
      try (inversion Hrun; subst; now rewrite (Hstep _ _ _ H1 Ho)).
    rewrite (Hstep _ _ _ H1 ltac:(discriminate)).
    apply (IH n2); [lia|exact Hrun|exact Ho].
Qed.

(** More fuel does not change a result. *)
Lemma seq_exec_mono (s : stmt St V E A R) :
  forall f1 f2 m (c : coroutine St P V E A) o c',
    (f1 <= f2)%nat -> seq_exec PH AH s f1 m c = (o, c') ->
    o <> OutOfFuel -> seq_exec PH AH s f2 m c = (o, c').
Proof.
  induction s as [ | f | s1 s2 IH1 IH2 | cnd s1 s2 IH1 IH2 | cnd b IHb
                 | ip eh sa expr | ip eh expr | ip eh sa expr f | r
                 | h prev b cl IHb IHcl ] using stmt_induction;
    intros f1 f2 m c0 o c' Hle Hex Ho; simpl in Hex; simpl; try exact Hex.
  - destruct (seq_exec PH AH s1 f1 m c0) as [o1 c1] eqn:H1.
    destruct o1;
      try (inversion Hex; subst; now rewrite (IH1 _ _ _ _ _ _ Hle H1 Ho)).
    + rewrite (IH1 _ _ _ _ _ _ Hle H1 ltac:(discriminate)). eauto.
    + rewrite (IH1 _ _ _ _ _ _ Hle H1 ltac:(discriminate)). eauto.
  - destruct m as [|t ex].
    + destruct (cnd (m_state c0)); eauto.
    + destruct (seq_exec PH AH s1 f1 (Seek t ex) c0) as [o1 c1] eqn:H1.
      destruct o1;
        try (inversion Hex; subst; now rewrite (IH1 _ _ _ _ _ _ Hle H1 Ho)).
      rewrite (IH1 _ _ _ _ _ _ Hle H1 ltac:(discriminate)). eauto.
  - assert (Hloop : forall x,
              while_loop cnd (seq_exec PH AH b f1 Run) f1 x = (o, c') ->
              while_loop cnd (seq_exec PH AH b f2 Run) f2 x = (o, c')).
    { intros x Hx.
      apply (while_loop_mono cnd (seq_exec PH AH b f1 Run)
               (seq_exec PH AH b f2 Run)) with (n1 := f1); auto.
      intros y oy y' Hy Hoy. eapply IHb; eauto. }
    destruct m as [|t ex]; [now apply Hloop|].
    destruct (seq_exec PH AH b f1 (Seek t ex) c0) as [o1 c1] eqn:H1.
    destruct o1;
      try (inversion Hex; subst; now rewrite (IHb _ _ _ _ _ _ Hle H1 Ho)).
    rewrite (IHb _ _ _ _ _ _ Hle H1 ltac:(discriminate)). now apply Hloop.
  - destruct m as [|t ex]; [eauto|].
    destruct (seq_exec PH AH b f1 (Seek t ex) c0) as [o1 c1] eqn:H1.
    destruct o1;
      try (inversion Hex; subst; now rewrite (IHb _ _ _ _ _ _ Hle H1 Ho)).
    rewrite (IHb _ _ _ _ _ _ Hle H1 ltac:(discriminate)).
    destruct (t =? h); [|exact Hex].
    destruct ex as [err|]; [|exact Hex].
    destruct (cl err) as [hd|] eqn:Hcl; [|exact Hex].
    eapply IHcl; eauto.
Qed.

Lemma seq_switch_mono (body : stmt St V E A R) (f1 f2 : nat)
  (ex : option E) (c : coroutine St P V E A) (o : outcome E)
  (c' : coroutine St P V E A) :
  (f1 <= f2)%nat -> seq_switch PH AH body f1 ex c = (o, c') ->
  o <> OutOfFuel -> seq_switch PH AH body f2 ex c = (o, c').
Proof.
  intros Hle Hsw Ho. unfold seq_switch, seq_dispatch in *.
  destruct (if m_next c =? 0 then seq_exec PH AH body f1 Run c
            else seq_exec PH AH body f1 (Seek (m_next c) ex) c)
    as [o1 c1] eqn:Hd.
  assert (Hno : o1 <> OutOfFuel).
  { intros ->. inversion Hsw; subst. contradiction. }
  assert (Hd2 : (if m_next c =? 0 then seq_exec PH AH body f2 Run c
                 else seq_exec PH AH body f2 (Seek (m_next c) ex) c)
                = (o1, c1)).
  { destruct (m_next c =? 0); eapply seq_exec_mono; eauto. }
  rewrite Hd2. exact Hsw.
Qed.

Lemma seq_retry_mono (body : stmt St V E A R) (f1 f2 : nat) :
  (f1 <= f2)%nat ->
  forall n1 n2 ex (c : coroutine St P V E A) r,
    (n1 <= n2)%nat -> seq_retry PH AH body f1 n1 ex c = r ->
    r <> Diverged -> seq_retry PH AH body f2 n2 ex c = r.
Proof.
  intros Hle. induction n1 as [|n1 IH]; intros n2 ex c r Hn Hr Hnd;
    simpl in Hr; [congruence|].
  destruct n2 as [|n2]; [lia|]. simpl.
  destruct (seq_switch PH AH body f1 ex c) as [o c1] eqn:Hsw.
  assert (Ho : o <> OutOfFuel) by (intros ->; congruence).
  rewrite (seq_switch_mono _ _ _ _ _ _ _ Hle Hsw Ho).
  destruct o; try exact Hr; try contradiction.
  simpl m_next in Hr |- *.
  destruct (negb (m_eh c1 =? SENTINEL)); [|exact Hr].
  apply (IH n2); [lia|exact Hr|exact Hnd].
Qed.

(** One entry into a statement against the same entry with the suspension
    points falling through: when the entry does not suspend the two
    agree; when it suspends, whatever the fall-through run gives from the
    stored resume ordinal it gives from the original entry. *)
Lemma exec_falls_through (s : stmt St V E A R) :
  forall n cur fuel m (c : coroutine St P V E A) o c1,
    numbered s n cur ->
    exec PH AH s fuel m c = (o, c1) ->
    if is_suspend o
    then forall f o' c',
        seq_exec PH AH s f (Seek (m_next c1) None) c1 = (o', c') ->
        o' <> OutOfFuel ->
        exists f', seq_exec PH AH s f' m c = (o', c')
    else seq_exec PH AH s fuel m c = (o, c1).
Proof.
  induction s as [ | f | s1 s2 IH1 IH2 | cnd s1 s2 IH1 IH2 | cnd b IHb
                 | ip eh sa expr | ip eh expr | ip eh sa expr f | r
                 | h prev b cl IHb IHcl ] using stmt_induction;
    intros n cur fuel m c0 o c1 Hn Hex; simpl in Hn.
  - simpl in Hex. split_run Hex; reflexivity.
  - simpl in Hex. split_run Hex; simpl;
      repeat match goal with
             | H : ?x = _ |- context [match ?x with _ => _ end] => rewrite H
             end; reflexivity.
  - destruct Hn as [Hn1 Hn2]. simpl in Hex.
    destruct (exec PH AH s1 fuel m c0) as [o1 x1] eqn:H1.
    pose proof (IH1 _ _ _ _ _ _ _ Hn1 H1) as F1.
    assert (Hdisj : forall t, In t (labels s2) -> ~ In t (labels s1)).
    { intros t Ht2 Ht1. apply (labels_range _ _ _ _ Hn1) in Ht1.
      apply (labels_range _ _ _ _ Hn2) in Ht2. lia. }
    destruct o1; simpl in F1;
      try (inversion Hex; subst; simpl; rewrite F1; reflexivity).
    + pose proof (IH2 _ _ _ _ _ _ _ Hn2 Hex) as F2.
      destruct o; simpl in F2 |- *; try (rewrite F1; exact F2).
      pose proof (exec_suspend_label s2 _ _ _ _ _ _ Hn2 Hex) as Hip.
      intros f o' c' Hseq Ho'.
      rewrite (seq_seek_miss s1) in Hseq by (now apply Hdisj).
      destruct (F2 f o' c' Hseq Ho') as [f2 Hf2].
      exists (Nat.max fuel f2).
      rewrite (seq_exec_mono s1 fuel _ _ _ _ _ (Nat.le_max_l _ _) F1)
        by discriminate.
      apply (seq_exec_mono s2 f2); [apply Nat.le_max_r|exact Hf2|exact Ho'].
    + pose proof (IH2 _ _ _ _ _ _ _ Hn2 Hex) as F2.
      destruct o; simpl in F2 |- *; try (rewrite F1; exact F2).
      pose proof (exec_suspend_label s2 _ _ _ _ _ _ Hn2 Hex) as Hip.
      intros f o' c' Hseq Ho'.
      rewrite (seq_seek_miss s1) in Hseq by (now apply Hdisj).
      destruct (F2 f o' c' Hseq Ho') as [f2 Hf2].
      exists (Nat.max fuel f2).
      rewrite (seq_exec_mono s1 fuel _ _ _ _ _ (Nat.le_max_l _ _) F1)
        by discriminate.
      apply (seq_exec_mono s2 f2); [apply Nat.le_max_r|exact Hf2|exact Ho'].
    + inversion Hex; subst. simpl.
      pose proof (exec_suspend_label s1 _ _ _ _ _ _ Hn1 H1) as Hip.
      intros f o' c' Hseq Ho'.
      destruct (seq_exec PH AH s1 f (Seek (m_next c1) None) c1)
        as [o1' y] eqn:Hs1.
      pose proof (seq_seek_found s1 _ _ _ _ _ _ Hip Hs1) as Hfound.
      destruct o1'; try discriminate Hfound;
        try (inversion Hseq; subst;
             destruct (F1 f _ _ Hs1 Ho') as [f1 Hf1];
             exists f1; rewrite Hf1; reflexivity).
      destruct (F1 f _ _ Hs1 ltac:(discriminate)) as [f1 Hf1].
      exists (Nat.max f1 f).
      rewrite (seq_exec_mono s1 f1 _ _ _ _ _ (Nat.le_max_l _ _) Hf1)
        by discriminate.
      apply (seq_exec_mono s2 f); [apply Nat.le_max_r|exact Hseq|exact Ho'].
  - destruct Hn as [Hn1 Hn2]. simpl in Hex.
    assert (Hdisj : forall t, In t (labels s2) -> ~ In t (labels s1)).
    { intros t Ht2 Ht1. apply (labels_range _ _ _ _ Hn1) in Ht1.
      apply (labels_range _ _ _ _ Hn2) in Ht2. lia. }
    destruct m as [|t ex].
    + destruct (cnd (m_state c0)) eqn:Hc.
      * pose proof (IH1 _ _ _ _ _ _ _ Hn1 Hex) as F1.
        destruct o; simpl in F1 |- *; rewrite ?Hc; try exact F1.
        pose proof (exec_suspend_label s1 _ _ _ _ _ _ Hn1 Hex) as Hip.
        intros f o' c' Hseq Ho'.
        destruct (seq_exec PH AH s1 f (Seek (m_next c1) None) c1)
          as [o1' y] eqn:Hs1.
        pose proof (seq_seek_found s1 _ _ _ _ _ _ Hip Hs1) as Hfound.
        destruct o1'; try discriminate Hfound;
          inversion Hseq; subst;
          destruct (F1 f _ _ Hs1 Ho') as [f1 Hf1];
          exists f1; rewrite ?Hc; exact Hf1.
      * pose proof (IH2 _ _ _ _ _ _ _ Hn2 Hex) as F2.
        destruct o; simpl in F2 |- *; rewrite ?Hc; try exact F2.
        pose proof (exec_suspend_label s2 _ _ _ _ _ _ Hn2 Hex) as Hip.
        intros f o' c' Hseq Ho'.
        rewrite (seq_seek_miss s1) in Hseq by (now apply Hdisj).
        destruct (F2 f _ _ Hseq Ho') as [f2 Hf2].
        exists f2. rewrite ?Hc. exact Hf2.
    + destruct (exec PH AH s1 fuel (Seek t ex) c0) as [o1 x1] eqn:H1.
      pose proof (IH1 _ _ _ _ _ _ _ Hn1 H1) as F1.
      destruct o1; simpl in F1;
        try (inversion Hex; subst; simpl; rewrite F1; reflexivity).
      * pose proof (IH2 _ _ _ _ _ _ _ Hn2 Hex) as F2.
        destruct o; simpl in F2 |- *; try (rewrite F1; exact F2).
        pose proof (exec_suspend_label s2 _ _ _ _ _ _ Hn2 Hex) as Hip.
        intros f o' c' Hseq Ho'.
        rewrite (seq_seek_miss s1) in Hseq by (now apply Hdisj).
        destruct (F2 f _ _ Hseq Ho') as [f2 Hf2].
        exists (Nat.max fuel f2).
        rewrite (seq_exec_mono s1 fuel _ _ _ _ _ (Nat.le_max_l _ _) F1)
          by discriminate.
        apply (seq_exec_mono s2 f2);
          [apply Nat.le_max_r|exact Hf2|exact Ho'].
      * inversion Hex; subst. simpl.
        pose proof (exec_suspend_label s1 _ _ _ _ _ _ Hn1 H1) as Hip.
        intros f o' c' Hseq Ho'.
        destruct (seq_exec PH AH s1 f (Seek (m_next c1) None) c1)
          as [o1' y] eqn:Hs1.
        pose proof (seq_seek_found s1 _ _ _ _ _ _ Hip Hs1) as Hfound.
        destruct o1'; try discriminate Hfound;
          inversion Hseq; subst;
          destruct (F1 f _ _ Hs1 Ho') as [f1 Hf1];
          exists f1; rewrite Hf1; reflexivity.
  - assert (Hmono : forall f1 f2 k1 k2 x o' c',
              (f1 <= f2)%nat -> (k1 <= k2)%nat ->
              while_loop cnd (seq_exec PH AH b f1 Run) k1 x = (o', c') ->
              o' <> OutOfFuel ->
              while_loop cnd (seq_exec PH AH b f2 Run) k2 x = (o', c')).
    { intros f1 f2 k1 k2 x o' c' Hf Hk Hrun Ho'.
      apply (while_loop_mono cnd (seq_exec PH AH b f1 Run)
               (seq_exec PH AH b f2 Run)) with (n1 := k1); auto.
      intros y oy y' Hy Hoy. eapply seq_exec_mono; eauto. }
    assert (Hloop : forall k x o x1,
              while_loop cnd (exec PH AH b fuel Run) k x = (o, x1) ->
              if is_suspend o
              then forall f o' c',
                  seq_exec PH AH (While cnd b) f (Seek (m_next x1) None) x1
                  = (o', c') ->
                  o' <> OutOfFuel ->
                  exists f' k',
                    while_loop cnd (seq_exec PH AH b f' Run) k' x = (o', c')
              else while_loop cnd (seq_exec PH AH b fuel Run) k x = (o, x1)).
    { induction k as [|k IHk]; intros x o' x1 Hrun; simpl in Hrun.
      - inversion Hrun; subst. reflexivity.
      - destruct (cnd (m_state x)) eqn:Hc;
          [|inversion Hrun; subst; simpl; rewrite Hc; reflexivity].
        destruct (exec PH AH b fuel Run (emit EvBody x)) as [o2 x2] eqn:Hb.
        pose proof (IHb _ _ _ _ _ _ _ Hn Hb) as Fb.
        destruct o2; simpl in Fb;
          try (inversion Hrun; subst; simpl; rewrite Hc, Fb; reflexivity).
        + pose proof (IHk _ _ _ Hrun) as Fk.
          destruct o'; simpl in Fk |- *; rewrite ?Hc, ?Fb; try exact Fk.
          intros f o'' c' Hseq Ho'.
          destruct (Fk f o'' c' Hseq Ho') as (f' & k' & Hw).
          exists (Nat.max fuel f'), (S k'). simpl. rewrite Hc.
          rewrite (seq_exec_mono b fuel _ _ _ _ _ (Nat.le_max_l _ _) Fb)
            by discriminate.
          apply (Hmono f' _ k' k'); auto. apply Nat.le_max_r.
        + inversion Hrun; subst. simpl.
          intros f o'' c' Hseq Ho'.
          destruct (seq_exec PH AH b f (Seek (m_next x1) None) x1)
            as [ob y] eqn:Hsb.
          destruct ob;
            try (inversion Hseq; subst;
                 destruct (Fb f _ _ Hsb Ho') as [f1 Hf1];
                 exists f1, 1%nat; simpl; rewrite Hc, Hf1; reflexivity).
          destruct (Fb f _ _ Hsb ltac:(discriminate)) as [f1 Hf1].
          exists (Nat.max f1 f), (S f). simpl. rewrite Hc.
          rewrite (seq_exec_mono b f1 _ _ _ _ _ (Nat.le_max_l _ _) Hf1)
            by discriminate.
          apply (Hmono f _ f f); auto. apply Nat.le_max_r. }
    simpl in Hex. destruct m as [|t ex].
    + pose proof (Hloop _ _ _ _ Hex) as Fw.
      destruct o; simpl in Fw |- *; try exact Fw.
      intros f o' c' Hseq Ho'.
      destruct (Fw f o' c' Hseq Ho') as (f' & k' & Hw).
      exists (Nat.max f' k').
      apply (Hmono f' _ k' _); auto; [apply Nat.le_max_l|apply Nat.le_max_r].
    + destruct (exec PH AH b fuel (Seek t ex) c0) as [o1 x1] eqn:H1.
      pose proof (IHb _ _ _ _ _ _ _ Hn H1) as Fb.
      destruct o1; simpl in Fb;
        try (inversion Hex; subst; simpl; rewrite Fb; reflexivity).
      * pose proof (Hloop _ _ _ _ Hex) as Fw.
        destruct o; simpl in Fw |- *; rewrite ?Fb; try exact Fw.
        intros f o' c' Hseq Ho'.
        destruct (Fw f o' c' Hseq Ho') as (f' & k' & Hw).
        exists (Nat.max fuel (Nat.max f' k')).
        rewrite (seq_exec_mono b fuel _ _ _ _ _ (Nat.le_max_l _ _) Fb)
          by discriminate.
        apply (Hmono f' _ k' _); auto; lia.
      * inversion Hex; subst. simpl.
        intros f o' c' Hseq Ho'.
        destruct (seq_exec PH AH b f (Seek (m_next c1) None) c1)
          as [ob y] eqn:Hsb.
        destruct ob;
          try (inversion Hseq; subst;
               destruct (Fb f _ _ Hsb Ho') as [f1 Hf1];
               exists f1; rewrite Hf1; reflexivity).
        destruct (Fb f _ _ Hsb ltac:(discriminate)) as [f1 Hf1].
        exists (Nat.max f1 f).
        rewrite (seq_exec_mono b f1 _ _ _ _ _ (Nat.le_max_l _ _) Hf1)
          by discriminate.
        apply (Hmono f _ f _); auto; apply Nat.le_max_r.
  - destruct Hn as [-> ->]. simpl in Hex. destruct m as [|t ex].
    + destruct (yield_value PH (expr (m_state c0)) (promise c0))
        as [p|err] eqn:Hy; inversion Hex; subst; simpl.
      * intros f o' c' Hseq Ho'. rewrite Z.eqb_refl in Hseq.
        exists 0%nat. rewrite Hy. exact Hseq.
      * rewrite Hy. reflexivity.
    + split_run Hex; simpl;
        repeat match goal with
               | H : ?x = _ |- context [if ?x then _ else _] => rewrite H
               end; reflexivity.
  - destruct Hn as [-> ->]. simpl in Hex. destruct m as [|t ex].
    + destruct (yield_value PH (expr (m_state c0)) (promise c0))
        as [p|err] eqn:Hy; inversion Hex; subst; simpl.
      * intros f o' c' Hseq Ho'. rewrite Z.eqb_refl in Hseq.
        exists 0%nat. rewrite Hy. exact Hseq.
      * rewrite Hy. reflexivity.
    + split_run Hex; simpl;
        repeat match goal with
               | H : ?x = _ |- context [if ?x then _ else _] => rewrite H
               end; reflexivity.
  - destruct Hn as [-> ->]. simpl in Hex. destruct m as [|t ex].
    + destruct (try_suspend AH (expr (m_state c0)) n
                  (ctor_tmp (TmpAwaiter (expr (m_state c0))) c0))
        as [sus cx] eqn:Hts.
      destruct sus.
      * inversion Hex; subst. simpl.
        assert (Hnx : m_next c1 = n).
        { unfold try_suspend in Hts.
          destruct (await_ready AH (expr (m_state c0)));
            inversion Hts; subst; reflexivity. }
        intros f0 o' c' Hseq Ho'. rewrite Hnx, Z.eqb_refl in Hseq.
        exists 0%nat. rewrite Hts. exact Hseq.
      * assert (Hns : is_suspend o = false).
        { unfold await_resume_at in Hex. split_run Hex; reflexivity. }
        rewrite Hns. simpl. rewrite Hts. exact Hex.
    + assert (Hns : is_suspend o = false).
      { unfold await_resume_at in Hex. split_run Hex; reflexivity. }
      rewrite Hns. simpl. exact Hex.
  - simpl in Hex.
    assert (Hns : is_suspend o = false).
    { destruct m; [|inversion Hex; reflexivity].
      unfold_steps Hex. destruct r; simpl in Hex; split_run Hex; reflexivity. }
    rewrite Hns. simpl. exact Hex.
  - destruct Hn as (-> & -> & Hb & Hplain). simpl in Hex.
    destruct m as [|t ex].
    + pose proof (IHb _ _ _ _ _ _ _ Hb Hex) as Fb.
      destruct o; simpl in Fb |- *; try exact Fb.
      pose proof (exec_suspend_label b _ _ _ _ _ _ Hb Hex) as Hip.
      intros f o' c' Hseq Ho'.
      destruct (seq_exec PH AH b f (Seek (m_next c1) None) c1)
        as [ob y] eqn:Hsb.
      pose proof (seq_seek_found b _ _ _ _ _ _ Hip Hsb) as Hfound.
      destruct ob; try discriminate Hfound;
        inversion Hseq; subst;
        destruct (Fb f _ _ Hsb Ho') as [f1 Hf1];
        exists f1; exact Hf1.
    + destruct (exec PH AH b fuel (Seek t ex) c0) as [o1 x1] eqn:H1.
      pose proof (IHb _ _ _ _ _ _ _ Hb H1) as Fb.
      destruct o1; simpl in Fb;
        try (inversion Hex; subst; simpl; rewrite Fb; reflexivity).
      * destruct (t =? n) eqn:Ht;
          [|inversion Hex; subst; simpl; rewrite Fb, Ht; reflexivity].
        destruct ex as [err|];
          [|inversion Hex; subst; simpl; rewrite Fb, Ht; reflexivity].
        destruct (cl err) as [hd|] eqn:Hcl;
          [|inversion Hex; subst; simpl; rewrite Fb, Ht, Hcl; reflexivity].
        pose proof (Hplain _ _ Hcl) as Hp.
        pose proof (IHcl _ _ Hcl 0 0 _ _ _ _ _ (plain_numbered hd Hp 0 0) Hex)
          as Fh.
        assert (Hns : is_suspend o = false).
        { destruct (plain_no_labels hd Hp) as [Hp1 Hp2].
          apply (run_completes hd (fun _ => True)) in Hex; auto.
          apply Hex. }
        rewrite Hns in Fh |- *. simpl. rewrite Fb, Ht, Hcl. exact Fh.
      * inversion Hex; subst. simpl.
        pose proof (exec_suspend_label b _ _ _ _ _ _ Hb H1) as Hip.
        intros f o' c' Hseq Ho'.
        destruct (seq_exec PH AH b f (Seek (m_next c1) None) c1)
          as [ob y] eqn:Hsb.
        pose proof (seq_seek_found b _ _ _ _ _ _ Hip Hsb) as Hfound.
        destruct ob; try discriminate Hfound;
          inversion Hseq; subst;
          destruct (Fb f _ _ Hsb Ho') as [f1 Hf1];
          exists f1; rewrite Hf1; reflexivity.
Qed.

Lemma switch_falls_through (body : stmt St V E A R) (fuel : nat) :
  coz_body body ->
  forall ex (c : coroutine St P V E A) o c1,
    coz_switch PH AH body fuel ex c = (o, c1) ->
    if is_suspend o
    then forall f o' c',
        seq_switch PH AH body f None c1 = (o', c') ->
        o' <> OutOfFuel ->
        exists f', seq_switch PH AH body f' ex c = (o', c')
    else seq_switch PH AH body fuel ex c = (o, c1).
Proof.
  intros Hb ex c o c1 Hsw.
  unfold coz_switch, coz_dispatch in Hsw. unfold seq_switch, seq_dispatch.
  destruct (m_next c =? 0) eqn:H0;
    match type of Hsw with
    | context [exec PH AH body fuel ?m c] =>
        destruct (exec PH AH body fuel m c) as [o0 x0] eqn:Hd;
        pose proof (exec_falls_through body _ _ fuel m c o0 x0 (proj1 Hb) Hd)
          as F;
        pose proof Hd as Hd'
    end;
    (destruct o0; simpl in F;
     [ assert (Hns : is_suspend o = false)
         by (pose proof Hsw as Hsw';
             unfold coz_end, implicit_return, call_return_void in Hsw';
             simpl in Hsw'; split_run Hsw'; reflexivity);
       rewrite Hns, F; exact Hsw
     | inversion Hsw; subst; simpl; rewrite F; reflexivity
     |
     | inversion Hsw; subst; simpl; rewrite F; reflexivity
     | inversion Hsw; subst; simpl; rewrite F; reflexivity
     | inversion Hsw; subst; simpl; rewrite F; reflexivity
     | inversion Hsw; subst; simpl; rewrite F; reflexivity ]).
  - inversion Hsw; subst. simpl.
    pose proof (exec_suspend_label body _ _ _ _ _ _ (proj1 Hb) Hd') as Hip.
    apply (coz_body_labels _ _ Hb) in Hip.
    destruct (Z.eqb_spec (m_next c1) 0) as [|_]; [lia|].
    intros f o' c' Hseq Ho'.
    destruct (seq_exec PH AH body f (Seek (m_next c1) None) c1)
      as [od cd] eqn:Hsd.
    assert (Hod : od <> OutOfFuel)
      by (intros ->; inversion Hseq; subst; contradiction).
    destruct (F f od cd Hsd Hod) as [f' Hf'].
    exists f'. rewrite Hf'. exact Hseq.
  - inversion Hsw; subst. simpl.
    pose proof (exec_suspend_label body _ _ _ _ _ _ (proj1 Hb) Hd') as Hip.
    apply (coz_body_labels _ _ Hb) in Hip.
    destruct (Z.eqb_spec (m_next c1) 0) as [|_]; [lia|].
    intros f o' c' Hseq Ho'.
    destruct (seq_exec PH AH body f (Seek (m_next c1) None) c1)
      as [od cd] eqn:Hsd.
    assert (Hod : od <> OutOfFuel)
      by (intros ->; inversion Hseq; subst; contradiction).
    destruct (F f od cd Hsd Hod) as [f' Hf'].
    exists f'. rewrite Hf'. exact Hseq.
Qed.

Lemma retry_falls_through (body : stmt St V E A R) (fuel : nat) :
  coz_body body ->
  forall n ex (c : coroutine St P V E A),
    valid_eh body (m_eh c) -> entry_ok body c ->
    match coz_retry PH AH body fuel n ex c with
    | Returned c1 =>
        if done c1
        then seq_retry PH AH body fuel n ex c = Returned c1
        else forall f k r',
            seq_retry PH AH body f k None c1 = r' -> r' <> Diverged ->
            exists f' k', seq_retry PH AH body f' k' ex c = r'
    | r => seq_retry PH AH body fuel n ex c = r
    end.
Proof.
  intros Hb. induction n as [|n IH]; intros ex c Hv Hentry; simpl;
    [reflexivity|].
  destruct (coz_switch PH AH body fuel ex c) as [o c1] eqn:Hsw.
  destruct (switch_lifecycle body fuel Hb _ _ _ _ Hv Hentry Hsw)
    as [Heh Hlife].
  pose proof (switch_falls_through body fuel Hb _ _ _ _ Hsw) as F.
  destruct o; simpl in F; try contradiction.
  - assert (Hnd : done c1 = false).
    { destruct Hlife as (k & ip & eh & Hin & Hip & _).
      destruct (susp_points_labels _ _ _ _ Hin) as [Hl _].
      apply (coz_body_labels _ _ Hb) in Hl.
      unfold done. rewrite Hip.
      destruct (Z.eqb_spec ip SENTINEL); [lia|reflexivity]. }
    rewrite Hnd. intros f k r' Hr Hnot.
    destruct k as [|k]; [simpl in Hr; congruence|]. simpl in Hr.
    destruct (seq_switch PH AH body f None c1) as [o' c'] eqn:Hs.
    assert (Ho' : o' <> OutOfFuel) by (intros ->; congruence).
    destruct (F f o' c' Hs Ho') as [f1 Hf1].
    exists (Nat.max f1 f), (S k). simpl.
    rewrite (seq_switch_mono _ _ _ _ _ _ _ (Nat.le_max_l f1 f) Hf1 Ho').
    destruct o'; try exact Hr; try contradiction.
    simpl m_next in Hr |- *.
    destruct (negb (m_eh c' =? SENTINEL)); [|exact Hr].
    apply (seq_retry_mono body f _ (Nat.le_max_r f1 f) k k); auto.
  - unfold done. rewrite Hlife, Z.eqb_refl, F. reflexivity.
  - rewrite F. simpl m_next.
    destruct (Z.eqb_spec (m_eh c1) SENTINEL) as [Heq|Hne]; simpl.
    + unfold coz_unhandled.
      destruct (unhandled_exception PH e _) as [p [e'|]]; simpl;
        [reflexivity|].
      unfold done. simpl. now rewrite Heq, Z.eqb_refl.
    + assert (Hentry2 : entry_ok body (set_next (m_eh c1) c1)).
      { right; right. simpl. destruct Heh; [contradiction|assumption]. }
      specialize (IH (Some e) (set_next (m_eh c1) c1) Heh Hentry2).
      destruct (coz_retry PH AH body fuel n (Some e) (set_next (m_eh c1) c1))
        as [c2|e2 c2| |]; try exact IH.
      destruct (done c2); [exact IH|].
      intros f k r' Hr Hnot.
      destruct (IH f k r' Hr Hnot) as (f' & k' & Hk).
      exists (Nat.max fuel f'), (S k'). simpl.
      rewrite (seq_switch_mono _ _ _ _ _ _ _ (Nat.le_max_l fuel f') F)
        by discriminate.
      simpl m_next.
      destruct (Z.eqb_spec (m_eh c1) SENTINEL) as [|_]; [contradiction|].
      simpl.
      apply (seq_retry_mono body f' _ (Nat.le_max_r fuel f') k' k'); auto.
  - rewrite F. reflexivity.
  - rewrite F. reflexivity.
Qed.

Lemma complete_falls_through (body : stmt St V E A R) (fuel : nat) :
  coz_body body ->
  forall k n ex (c : coroutine St P V E A) r,
    valid_eh body (m_eh c) -> entry_ok body c ->
    complete PH AH body fuel k (coz_retry PH AH body fuel n ex c) = r ->
    r <> Diverged ->
    exists f n', seq_retry PH AH body f n' ex c = r.
Proof.
  intros Hb. induction k as [|k IH]; intros n ex c r Hv Hentry Hc Hnd;
    pose proof (retry_falls_through body fuel Hb n ex c Hv Hentry) as F;
    pose proof (retry_lifecycle body fuel Hb n ex c Hv Hentry) as L;
    destruct (coz_retry PH AH body fuel n ex c) as [c1|e1 c1| |];
    simpl in Hc; try (exists fuel, n; congruence).
  - destruct (done c1); [exists fuel, n; congruence|congruence].
  - destruct (done c1) eqn:Hd; [exists fuel, n; congruence|].
    destruct L as [Hv1 [Hdone|Hsus]].
    + unfold done in Hd. rewrite Hdone, Z.eqb_refl in Hd. discriminate.
    + assert (Hentry1 : entry_ok body c1).
      { destruct Hsus as (k0 & ip & eh & Hin & Hip & _).
        right; left. exists k0, eh. now rewrite Hip. }
      unfold resume, invoke in Hc.
      destruct (IH fuel None c1 r Hv1 Hentry1 Hc Hnd) as (f & n' & Hs).
      exact (F f n' r Hs Hnd).
Qed.

(** C7.  For a body with no suspension point: the solver ends with
    [size_align{}], which selects the specialisation of [body] without
    [m_mem_tmp], so the frame takes no space; [start()] runs the body as
    the straight-line code it is; whenever [start()] comes back (by
    returning, or by throwing what [unhandled_exception] throws), the body
    has been run to its end: the last hook called is a return hook or
    [unhandled_exception], the finalizer ran after it, once, [done()] is
    true, and a later [resume()] returns without running anything; and
    when the body has no loop, [start()] does come back (or stops at a
    failed assertion) within one pass per guarded region plus one. *)
Theorem zero_suspension_points (body : stmt St V E A R) :
  coz_body body -> susp_points body = [] ->
  (frame_layout body = Some Layout.size_align_zero /\
   Layout.body_has_mem_tmp Layout.size_align_zero = false /\
   Layout.body_mem_tmp_bytes Layout.size_align_zero = 0%N) /\
  (forall fuel params p raw,
     start PH AH body fuel params (coroutine_ctor p raw)
     = seq_retry PH AH body fuel fuel None
         (start_entry params (coroutine_ctor p raw)) /\
     match start PH AH body fuel params (coroutine_ctor p raw) with
     | Returned c' | Threw _ c' =>
         done c' = true /\
         (forall fuel', (0 < fuel')%nat ->
                        resume PH AH body fuel' c' = Returned c') /\
         count_ev is_finalize (trace c') = 1%nat /\
         exists pre last,
           trace c' = pre ++ [last; EvDtorState; EvFinalize] /\
           count_ev is_exit pre = 0%nat /\
           completed_by PH body last c'
     | _ => True
     end) /\
  (loop_free body ->
   forall fuel params p raw,
     (length (try_labels body) < fuel)%nat ->
     start PH AH body fuel params (coroutine_ctor p raw) <> Diverged).
Proof.
  intros Hb Hns. split; [|split].
  - unfold frame_layout. rewrite (registrations_nil _ Hns).
    repeat split; reflexivity.
  - intros fuel params p raw. unfold start, invoke.
    pose proof (retry_completes body fuel Hb Hns fuel None
                  (start_entry params (coroutine_ctor p raw))) as Hc.
    pose proof (retry_completed body fuel Hb fuel None
                  (start_entry params (coroutine_ctor p raw))
                  (or_introl eq_refl) (or_introl eq_refl)) as Hlast.
    pose proof (retry_falls_through body fuel Hb fuel None
                  (start_entry params (coroutine_ctor p raw))
                  (or_introl eq_refl) (or_introl eq_refl)) as Hseq.
    assert (Hshape : forall c' : coroutine St P V E A,
               m_next c' = SENTINEL ->
               (exists pre last,
                  trace c' = pre ++ [last; EvDtorState; EvFinalize] /\
                  count_ev is_exit pre = 0%nat /\
                  completed_by PH body last c') ->
               done c' = true /\
               (forall fuel', (0 < fuel')%nat ->
                              resume PH AH body fuel' c' = Returned c') /\
               count_ev is_finalize (trace c') = 1%nat /\
               exists pre last,
                 trace c' = pre ++ [last; EvDtorState; EvFinalize] /\
                 count_ev is_exit pre = 0%nat /\
                 completed_by PH body last c').
    { intros c' Hs (pre & last & Htr & Hcnt & Hby).
      split; [now apply done_spec|].
      split; [intros fuel' Hf; unfold resume; now apply invoke_done|].
      split; [|exists pre, last; auto].
      rewrite Htr, count_ev_app.
      destruct (is_exit_finalize _ Hcnt) as [-> _].
      destruct last; simpl in Hby; try contradiction; reflexivity. }
    destruct (coz_retry PH AH body fuel fuel None
                (start_entry params (coroutine_ctor p raw)))
      as [c'|e c'| |]; try (split; [now rewrite Hseq|exact I]).
    + assert (Hs : m_next c' = SENTINEL)
        by (apply Hc; [now left|now left]).
      split; [|exact (Hshape c' Hs (Hlast Hs))].
      rewrite (proj2 (done_spec c') Hs) in Hseq. now rewrite Hseq.
    + assert (Hs : m_next c' = SENTINEL)
        by (apply Hc; [now left|now left]).
      split; [now rewrite Hseq|exact (Hshape c' Hs (Hlast Hs))].
  - intros Hlf fuel params p raw Hlen. unfold start, invoke.
    destruct fuel as [|n]; [lia|]. simpl coz_retry. unfold coz_switch.
    destruct (coz_dispatch PH AH body (S n) None
                (start_entry params (coroutine_ctor p raw)))
      as [o c1] eqn:Hd.
    unfold coz_dispatch in Hd. simpl in Hd.
    pose proof (run_eh_step _ _ _ _ _ Hns Hd) as Heh. simpl in Heh.
    assert (Hcatch : forall e' (c2 : coroutine St P V E A),
      m_eh c2 = SENTINEL \/ In (m_eh c2) (try_labels body) ->
      (if negb (m_next (set_next (m_eh c2) c2) =? SENTINEL)
       then coz_retry PH AH body (S n) n (Some e') (set_next (m_eh c2) c2)
       else coz_unhandled PH e' (set_next (m_eh c2) c2)) <> Diverged).
    { intros e' c2 Hc2. simpl m_next.
      destruct (Z.eqb_spec (m_eh c2) SENTINEL) as [Heq|Hne]; simpl.
      - unfold coz_unhandled.
        destruct (unhandled_exception PH e' _) as [q [x|]]; discriminate.
      - destruct Hc2 as [|Hin]; [contradiction|].
        destruct (in_split _ _ Hin) as (a & b & Hab).
        apply (retry_terminates body (S n) Hb Hlf Hns n a (m_eh c2) b);
          auto.
        rewrite Hab, length_app in Hlen. simpl in Hlen. lia. }
    destruct o; try discriminate.
    + unfold coz_end, implicit_return, call_return_void. simpl.
      destruct (return_void PH) as [rv|]; [|discriminate].
      destruct (rv (promise c1)) as [q|e']; [discriminate|].
      apply (Hcatch e' (emit EvReturnVoid (set_next SENTINEL c1))).
      exact Heh.
    + now apply Hcatch.
    + intros _. eapply loop_free_exec; eauto.
Qed.


(** X12.  Suspension is transparent.  A coroutine run to completion, by
    [start] and then [resume()] for as long as it is not done, ends in the
    state (state closure, promise, ordinals, scratch frame, record of hook
    calls) and with the result (return, or the error [unhandled_exception]
    throws) of one uninterrupted invocation of the same body in which
    every suspension point falls through to its resume label; this holds
    for every body, with loops, branches, guarded regions, yields and
    awaits, when nothing changes the instance between the calls. *)
Theorem suspension_is_transparent (body : stmt St V E A R) (fuel k : nat)
  (params : St) (p : P) (raw : St) (r : result St P V E A) :
  coz_body body ->
  complete PH AH body fuel k
           (start PH AH body fuel params (coroutine_ctor p raw)) = r ->
  r <> Diverged ->
  exists f n,
    seq_retry PH AH body f n None (start_entry params (coroutine_ctor p raw))
    = r.
Proof.
  intros Hb Hc Hnd. unfold start, invoke in Hc.
  apply (complete_falls_through body fuel Hb k fuel None _ r); auto.
  - now left.
  - now left.
Qed.

End EngineFacts.

(** ** The engine on the small coroutines *)

Module DemoFacts.
Import Demo.

Lemma guarded_body : coz_body guarded.
Proof.
  split; [|rewrite SENTINEL_value; simpl; lia].
  simpl. repeat split.
  intros e hd H. inversion H; subst. exact I.
Qed.

Lemma guarded_start :
  start task_hooks fixed_hooks guarded 1 5 fresh = Returned guarded_suspended.
Proof. reflexivity. Qed.

(** [thrower] has no handler: the error reaches [unhandled_exception],
    which rethrows it, and [finalize] has run once.  [guarded], resumed
    after its [COZ_YIELD], throws inside the region: the engine dispatches
    again at the handler. *)
Lemma exception_dispatch_witness :
  (exists c',
     coz_retry task_hooks fixed_hooks thrower 1 1 None (start_entry 0 fresh)
     = Threw 7 c' /\
     m_next c' = SENTINEL /\ finals (promise c') = 1%nat) /\
  coz_retry task_hooks fixed_hooks guarded 1 2 None guarded_suspended
  = coz_retry task_hooks fixed_hooks guarded 1 1 (Some 7)
              (set_next 1 guarded_raised).
Proof.
  split.
  - destruct (proj1 (exception_dispatch task_hooks fixed_hooks thrower 1 0
                      None (start_entry 0 fresh)
                      (mk_coroutine 0 SENTINEL (mk_task None 0) 0 None [EvBody])
                      7 eq_refl) eq_refl)
      as (c' & evs & Hr & Hn & Ht & Hev & Hf & Hu & Hp).
    exists c'. split; [exact Hr|]. split; [exact Hn|].
    rewrite Hp. reflexivity.
  - apply (proj1 (proj2 (exception_dispatch task_hooks fixed_hooks guarded 1 1
                           None guarded_suspended guarded_raised 7 eq_refl))
             1 SENTINEL (fun e => Some (Do (fun x => inl (x + e))))
             (Do (fun x => inl (x + 7))) guarded_body eq_refl).
    + simpl. now left.
    + reflexivity.
Defined.

(** [destroy()] on [guarded] suspended inside its region, and on a
    coroutine that was never started. *)
Lemma destroy_suspended_cleans_up_witness :
  (exists c' evs,
     destroy task_hooks fixed_hooks guarded 1 guarded_suspended = Returned c'
     /\ trace c' = trace guarded_suspended ++ evs
     /\ evs = [EvDtorTmp; EvDtorState; EvFinalize]
     /\ finals (promise c') = 1%nat
     /\ m_state c' = 5) /\
  destroy task_hooks fixed_hooks guarded 1 fresh = Aborted.
Proof.
  destruct (destroy_suspended_cleans_up task_hooks fixed_hooks guarded 1
              guarded_body (le_n 1)) as [Hs Hd].
  split.
  - destruct (Hs guarded_suspended KYield 2 3 (or_introl eq_refl) eq_refl)
      as (c' & evs & Hr & Ht & Hev & _ & _ & _ & _ & Hp & Hst & _).
    exists c', evs. split; [exact Hr|]. split; [exact Ht|].
    split; [exact Hev|]. split; [rewrite Hp; reflexivity|exact Hst].
  - apply Hd. reflexivity.
Defined.

(** [resume()] on a coroutine that is done. *)
Lemma resume_done_is_noop_witness :
  resume task_hooks fixed_hooks guarded 1 fresh = Returned fresh.
Proof.
  apply resume_done_is_noop; [exact guarded_body|exact (le_n 1)|reflexivity].
Defined.

Lemma straight_body : coz_body straight.
Proof. split; [simpl; tauto|rewrite SENTINEL_value; simpl; lia]. Qed.



Lemma chooser_body : coz_body chooser.
Proof.
  split; [|rewrite SENTINEL_value; simpl; lia].
  simpl. repeat split; auto.
  intros e hd H. inversion H. exact I.
Qed.


(** [straight] has no suspension point: [start] with [x = 5] runs both
    statements, falls off the end into [return_void] and the finalizer. *)
Lemma zero_suspension_points_witness :
  frame_layout straight = Some Layout.size_align_zero /\
  start task_hooks fixed_hooks straight 1 5 fresh
  = Returned (mk_coroutine SENTINEL SENTINEL (mk_task None 1) 8 None
                [EvBody; EvBody; EvReturnVoid; EvDtorState; EvFinalize]) /\
  (start task_hooks fixed_hooks straight 1 5 fresh
   = seq_retry task_hooks fixed_hooks straight 1 1 None
       (start_entry 5 fresh) /\
   match start task_hooks fixed_hooks straight 1 5 fresh with
   | Returned c' | Threw _ c' =>
       done c' = true /\
       (forall fuel', (0 < fuel')%nat ->
                      resume task_hooks fixed_hooks straight fuel' c'
                      = Returned c') /\
       count_ev is_finalize (trace c') = 1%nat /\
       exists pre last,
         trace c' = pre ++ [last; EvDtorState; EvFinalize] /\
         count_ev is_exit pre = 0%nat /\
         completed_by task_hooks straight last c'
   | _ => True
   end) /\
  start task_hooks fixed_hooks straight 1 5 fresh <> Diverged.
Proof.
  destruct (zero_suspension_points task_hooks fixed_hooks straight
              straight_body eq_refl) as ((Hl & _ & _) & Hdone & Hterm).
  split; [exact Hl|]. split; [reflexivity|]. split.
  - exact (Hdone 1%nat 5 (mk_task None 0) 0).
  - apply (Hterm (conj I I) 1%nat 5 (mk_task None 0) 0). exact (le_n 1).
Defined.

(** C2.  An error raised inside a guarded region does not always reach
    that region's handler.  In [nested] the inner region is left without
    an error, which leaves its ordinal 2 in [m_eh]; the [throw 7] that
    follows is raised inside the outer region 1 and outside the inner one,
    yet it leaves the body with [m_eh = 2].  The engine therefore runs the
    handler of the inner region first ([x] goes from 5 to 1005), the code
    after the inner region throws a second time, and only then the outer
    handler runs ([x = 1012], where the handler of region 1 alone gives
    12).  In [nested_return] the inner handler is [COZ_RETURN()]: the
    outer handler, whose clause matches, never runs, and the coroutine is
    finished with [finalize] called. *)
Theorem error_in_region_runs_stale_inner_handler :
  (exists c1,
     exec task_hooks fixed_hooks nested 1 Run (start_entry 5 fresh)
     = (Raise 7, c1) /\
     In (1, SENTINEL, fun e => Some (Do (fun x => inl (x + e))))
        (regions nested) /\
     m_eh c1 = 2) /\
  (exists c',
     start task_hooks fixed_hooks nested 3 5 fresh = Returned c' /\
     filter is_handler (trace c') = [EvHandler 2 7; EvHandler 1 7] /\
     m_state c' = 1012) /\
  (exists c',
     start task_hooks fixed_hooks nested_return 2 5 fresh = Returned c' /\
     filter is_handler (trace c') = [EvHandler 2 7] /\
     count_ev is_finalize (trace c') = 1%nat /\
     done c' = true /\ m_state c' = 5).
Proof.
  split; [|split].
  - eexists. split; [reflexivity|]. split; [|reflexivity].
    simpl. right. now left.
  - eexists. repeat split; reflexivity.
  - eexists. repeat split; reflexivity.
Qed.

(** C5.  [stale] leaves its guarded region without an error and then
    throws.  On entry the region installs its ordinal 1 over the sentinel;
    on the way out nothing puts the sentinel back, so [m_eh] is still 1
    after the region.  The later [throw 7] is therefore dispatched into the
    handler of the region already left: the handler runs ([x] goes from 5
    to 105), the code after the region runs a second time and throws
    again, and only then is the error unhandled. *)
Theorem try_exit_leaves_handler_installed :
  (exists c1,
     exec task_hooks fixed_hooks
          (COZ_TRY 1 SENTINEL Skip
                   (fun e => Some (Do (fun x => inl (x + 100)))))
          1 Run (start_entry 5 fresh) = (Next, c1) /\
     m_eh (start_entry 5 fresh) = SENTINEL /\ m_eh c1 = 1) /\
  exists c',
    start task_hooks fixed_hooks stale 2 5 fresh = Threw 7 c' /\
    trace c' = [EvBody; EvHandler 1 7; EvBody; EvBody;
                EvUnhandled 7; EvDtorState; EvFinalize] /\
    m_state c' = 105.
Proof.
  split.
  - eexists. split; [reflexivity|]. split; reflexivity.
  - eexists. split; [reflexivity|]. split; reflexivity.
Qed.

Lemma guarded_reachable :
  reachable task_hooks fixed_hooks guarded guarded_suspended.
Proof.
  apply reach_start with (fuel := 1%nat) (params := 5)
                         (p := mk_task None 0) (raw := 0).
  left. exact guarded_start.
Qed.

(** [guarded] after its first call waits at its [COZ_YIELD], inside the
    region. *)
Lemma states_between_calls_witness : quiescent guarded guarded_suspended.
Proof.
  exact (states_between_calls task_hooks fixed_hooks guarded
           guarded_suspended guarded_body guarded_reachable).
Defined.


(** [thrower] started through a constructor that throws on a negative
    parameter: with [-1] nothing runs and the instance is as it was; with
    5 the body is entered, and the call ends in the finalizer. *)
Lemma finalizer_runs_last_witness :
  start_emplace task_hooks fixed_hooks checked_state thrower 1 (-1) fresh
  = Threw 99 fresh /\
  start_emplace task_hooks fixed_hooks checked_state thrower 1 5 fresh
  = Threw 7 (mk_coroutine SENTINEL SENTINEL (mk_task None 1) 5 None
               [EvBody; EvUnhandled 7; EvDtorState; EvFinalize]) /\
  exits_once fresh
    (start_emplace task_hooks fixed_hooks checked_state thrower 1 5 fresh).
Proof.
  split.
  - exact (proj1 (finalizer_runs_last task_hooks fixed_hooks checked_state
                    thrower 1 (-1) fresh)).
  - split; [reflexivity|].
    exact (proj2 (proj1 (finalizer_runs_last task_hooks fixed_hooks
                           checked_state thrower 1 5 fresh))).
Defined.

(** ... and can be destroyed there: the point is the [COZ_YIELD] with
    ordinals 2 and 3, its temporary is destroyed and the frame is empty. *)
Lemma reachable_state_can_be_destroyed_witness :
  exists k eh,
    In (k, m_next guarded_suspended, eh) (susp_points guarded) /\
    (forall k' eh',
       In (k', m_next guarded_suspended, eh') (susp_points guarded) ->
       k' = k /\ eh' = eh) /\
    occupant_of k (m_mem_tmp guarded_suspended) /\
    exists c',
      destroy task_hooks fixed_hooks guarded 1 guarded_suspended
      = Returned c' /\
      trace c' = trace guarded_suspended
                   ++ match k with KYieldLite => [] | _ => [EvDtorTmp] end
                   ++ [EvDtorState; EvFinalize] /\
      m_mem_tmp c' = match k with
                     | KYieldLite => m_mem_tmp guarded_suspended
                     | _ => None
                     end /\
      m_next c' = eh /\ m_eh c' = m_eh guarded_suspended /\
      promise c' = finalize task_hooks (promise guarded_suspended) /\
      m_state c' = m_state guarded_suspended.
Proof.
  exact (reachable_state_can_be_destroyed task_hooks fixed_hooks guarded 1
           guarded_suspended guarded_body (le_n 1) guarded_reachable
           eq_refl).
Defined.

Lemma task_yield_returns : yield_value_returns task_hooks.
Proof. intros v p. eexists. reflexivity. Qed.

Lemma guarded_lifetime :
  lifetime task_hooks fixed_hooks checked_state guarded 1 guarded_suspended.
Proof.
  apply life_start with (fuel := 1%nat) (params := 5) (st := 5)
                        (c := fresh).
  - exact (life_ctor task_hooks fixed_hooks checked_state guarded
             (mk_task None 0) 0).
  - reflexivity.
  - reflexivity.
  - left. reflexivity.
Qed.

(** A new instance: done, not finalized, and a [start] that throws in the
    constructor of the state closure leaves it so.  [guarded] at its
    [COZ_YIELD]: not finalized yet, and finalized once by [destroy()]. *)
Lemma finalized_once_in_a_lifetime_witness :
  (done fresh = true /\
   count_ev is_finalize (trace fresh) = 0%nat /\
   start_emplace task_hooks fixed_hooks checked_state guarded 1 (-1) fresh
   = Threw 99 fresh) /\
  (done guarded_suspended = false /\
   count_ev is_finalize (trace guarded_suspended) = 0%nat /\
   forall fuel c',
     (0 < fuel)%nat ->
     destroy task_hooks fixed_hooks guarded fuel guarded_suspended
     = Returned c' ->
     count_ev is_finalize (trace c') = 1%nat).
Proof.
  destruct (finalized_once_in_a_lifetime task_hooks fixed_hooks
              checked_state guarded 0 fresh guarded_body
              (life_ctor task_hooks fixed_hooks checked_state guarded
                 (mk_task None 0) 0)) as (H0 & _ & _ & Ht).
  destruct (finalized_once_in_a_lifetime task_hooks fixed_hooks
              checked_state guarded 1 guarded_suspended guarded_body
              guarded_lifetime) as (H1 & _ & Hd & _).
  split.
  - split; [reflexivity|]. split; [exact H0|].
    exact (Ht 1%nat (-1) 99 eq_refl eq_refl).
  - split; [reflexivity|]. split; [exact H1|exact Hd].
Defined.

(** [guarded] at its [COZ_YIELD]: one temporary built, none destroyed, one
    alive. *)
Lemma temporaries_are_balanced_witness :
  balanced guarded_suspended /\
  (done guarded_suspended = true -> m_mem_tmp guarded_suspended = None) /\
  forall fuel c',
    (0 < fuel)%nat ->
    destroy task_hooks fixed_hooks guarded fuel guarded_suspended
    = Returned c' ->
    balanced c' /\ m_mem_tmp c' = None.
Proof.
  exact (temporaries_are_balanced task_hooks fixed_hooks guarded
           guarded_suspended guarded_body task_yield_returns
           guarded_reachable).
Defined.

(** [guarded] has one region and no loop: two passes are enough. *)
Lemma calls_come_back_witness :
  (forall params p raw,
     start task_hooks fixed_hooks guarded 2 params (coroutine_ctor p raw)
     <> Diverged) /\
  (forall c, reachable task_hooks fixed_hooks guarded c ->
     resume task_hooks fixed_hooks guarded 2 c <> Diverged /\
     destroy task_hooks fixed_hooks guarded 2 c <> Diverged).
Proof.
  apply (calls_come_back task_hooks fixed_hooks guarded 2 guarded_body).
  - simpl. split; [split; exact I|intros e; exact I].
  - simpl. lia.
Defined.

(** [guarded] started with [x = 5] and resumed once: it yields 5, throws
    7 inside the region, the handler adds 7, and the body ends; the
    uninterrupted run ends in the same state. *)
Lemma suspension_is_transparent_witness :
  exists f n,
    seq_retry task_hooks fixed_hooks guarded f n None (start_entry 5 fresh)
    = complete task_hooks fixed_hooks guarded 2 1
               (start task_hooks fixed_hooks guarded 2 5 fresh).
Proof.
  apply (suspension_is_transparent task_hooks fixed_hooks guarded 2 1 5
           (mk_task None 0) 0 _ guarded_body eq_refl).
  intros H. vm_compute in H. discriminate H.
Defined.

End DemoFacts.

(** ** The generator example *)

Module GeneratorFacts.
Import Generator.

Arguments int_wrap : simpl never.

Lemma int_wrap_small (z : Z) : INT_MIN <= z <= INT_MAX -> int_wrap z = z.
Proof.
  unfold int_wrap, INT_MIN, INT_MAX. intros H.
  rewrite Z.mod_small; lia.
Qed.

Lemma iota_cons (i : Z) (k : nat) : iota i (S k) = i :: iota (i + 1) k.
Proof.
  unfold iota. simpl. rewrite Z.add_0_r. f_equal.
  rewrite <- seq_shift, map_map. apply map_ext.
  intros a. lia.
Qed.

Lemma iota_length (i : Z) (k : nat) : length (iota i k) = k.
Proof. unfold iota. now rewrite length_map, length_seq. Qed.

Lemma iota_nth (i : Z) (k j : nat) :
  (j < k)%nat -> nth j (iota i k) 0 = i + Z.of_nat j.
Proof.
  intros Hj. unfold iota.
  rewrite (nth_indep _ 0 (i + Z.of_nat 0)) by now rewrite length_map, length_seq.
  rewrite (map_nth (fun k => i + Z.of_nat k)), seq_nth by exact Hj.
  reflexivity.
Qed.

(** [start]: the body runs to its first [COZ_YIELD], or to its end when
    the range is empty. *)
Lemma start_step (fin : promise_type -> promise_type) (fuel : nat)
  (i e : Z) (c : coro) :
  (0 < fuel)%nat ->
  exists c',
    start (generator_hooks fin) no_awaiters range fuel (mk_params i e) c
    = Returned c' /\
    if i =? e then m_next c' = SENTINEL else at_yield i e c'.
Proof.
  intros Hf. destruct c as [nx eh pr st tmp tr].
  destruct fuel as [|n]; [lia|].
  unfold start, invoke, start_entry. cbn [coz_retry].
  unfold coz_switch, coz_dispatch, range. cbn.
  destruct (Z.eqb_spec i e); cbn; eexists; split; try reflexivity.
  repeat split.
Qed.

(** [resume()] at a [COZ_YIELD]: the temporary is destroyed, [i] is
    incremented, and the body runs to its next [COZ_YIELD] or to its end. *)
Lemma resume_step (fin : promise_type -> promise_type) (fuel : nat)
  (i e : Z) (c : coro) :
  (0 < fuel)%nat -> INT_MIN <= i -> i < e -> e <= INT_MAX ->
  at_yield i e c ->
  exists c',
    resume (generator_hooks fin) no_awaiters range fuel c = Returned c' /\
    if i + 1 =? e then m_next c' = SENTINEL else at_yield (i + 1) e c'.
Proof.
  intros Hf Hlo Hlt Hhi (Hn & Hs & Hd).
  destruct c as [nx eh pr st tmp tr]. simpl in Hn, Hs, Hd. subst nx st.
  destruct fuel as [|n]; [lia|].
  unfold resume, invoke. cbn [coz_retry].
  unfold coz_switch, coz_dispatch, range. cbn.
  rewrite int_wrap_small by (unfold INT_MIN, INT_MAX in *; lia).
  destruct (Z.eqb_spec (i + 1) e); cbn; eexists; split; try reflexivity.
  repeat split.
Qed.

(** The loop over the iterator collects what is left of the range. *)
Lemma range_for_spec (fin : promise_type -> promise_type) (fuel : nat) :
  (0 < fuel)%nat ->
  forall k i e c out n,
    INT_MIN <= i -> e <= INT_MAX -> e - i = Z.of_nat (S k) ->
    at_yield i e c -> (S k < n)%nat ->
    exists c',
      range_for (generator_hooks fin) n fuel c out
      = Some (out ++ iota i (S k), c') /\ m_next c' = SENTINEL.
Proof.
  intros Hf. induction k as [|k IH]; intros i e c out n Hlo Hhi Hlen Hy Hn;
    (destruct n as [|n]; [lia|]);
    destruct (resume_step fin fuel i e c Hf Hlo ltac:(lia) Hhi Hy)
      as (c' & Hr & Hc');
    destruct Hy as (Hy1 & Hy2 & Hy3);
    simpl range_for; unfold done; rewrite Hy1, Hy3, Hr;
    change (1 =? SENTINEL) with false; cbv iota.
  - destruct (Z.eqb_spec (i + 1) e) as [_|Hne]; [|lia].
    destruct n as [|n]; [lia|]. simpl range_for. unfold done.
    rewrite Hc', Z.eqb_refl. exists c'. split; [|exact Hc'].
    unfold iota. simpl. now rewrite Z.add_0_r.
  - destruct (Z.eqb_spec (i + 1) e) as [Heq|_]; [lia|].
    destruct (IH (i + 1) e c' (out ++ [i]) n) as (c'' & Hrun & Hfin);
      try lia; try exact Hc'.
    exists c''. split; [|exact Hfin].
    rewrite Hrun, (iota_cons i (S k)), <- app_assoc. reflexivity.
Qed.

(** The sequential loop collects the same integers. *)
Lemma range_loop_spec :
  forall k i e out n,
    INT_MIN <= i -> e <= INT_MAX -> e - i = Z.of_nat k -> (k < n)%nat ->
    range_loop n i e out = Some (out ++ iota i k).
Proof.
  induction k as [|k IH]; intros i e out n Hlo Hhi Hlen Hn;
    (destruct n as [|n]; [lia|]); simpl range_loop.
  - destruct (Z.eqb_spec i e); [|lia]. simpl.
    unfold iota. simpl. now rewrite app_nil_r.
  - destruct (Z.eqb_spec i e); [lia|]. simpl.
    rewrite int_wrap_small by (unfold INT_MIN, INT_MAX in *; lia).
    rewrite (IH (i + 1) e) by lia.
    rewrite iota_cons, <- app_assoc. reflexivity.
Qed.

(** After the constructor and [k] calls of [resume()] the coroutine offers
    the [k]-th integer of the range, or is done when the range is used
    up. *)
Lemma after_resumes_spec (fuel : nat) (i e : Z) (raw : params) :
  (0 < fuel)%nat -> INT_MIN <= i -> i <= e -> e <= INT_MAX ->
  forall k, (k <= Z.to_nat (e - i))%nat ->
    exists c,
      after_resumes fuel (mk_params i e) raw k = Some c /\
      if (k =? Z.to_nat (e - i))%nat then m_next c = SENTINEL
      else at_yield (i + Z.of_nat k) e c.
Proof.
  intros Hf Hlo Hle Hhi. induction k as [|k IH]; intros Hk.
  - simpl after_resumes. unfold generator_impl_ctor.
    destruct (start_step (fun p => p) fuel i e
                (coroutine_ctor (mk_promise None) raw) Hf) as (c & Hs & Hc).
    unfold promise_type_hooks. rewrite Hs. exists c. split; [reflexivity|].
    destruct (Z.eqb_spec i e) as [Heq|Hne].
    + replace (Z.to_nat (e - i)) with 0%nat by lia. exact Hc.
    + destruct (Nat.eqb_spec 0 (Z.to_nat (e - i))); [lia|].
      now rewrite Z.add_0_r.
  - destruct IH as (c & Hc & Hst); [lia|].
    destruct (Nat.eqb_spec k (Z.to_nat (e - i))) as [|Hne]; [lia|].
    destruct (resume_step (fun p => p) fuel (i + Z.of_nat k) e c Hf
                ltac:(lia) ltac:(lia) Hhi Hst) as (c' & Hr & Hc').
    simpl after_resumes. rewrite Hc. unfold promise_type_hooks. rewrite Hr.
    exists c'. split; [reflexivity|].
    destruct (Nat.eqb_spec (S k) (Z.to_nat (e - i))) as [Heq|Hne'].
    + destruct (Z.eqb_spec (i + Z.of_nat k + 1) e); [exact Hc'|lia].
    + destruct (Z.eqb_spec (i + Z.of_nat k + 1) e); [lia|].
      replace (i + Z.of_nat (S k)) with (i + Z.of_nat k + 1) by lia.
      exact Hc'.
Qed.

(** C9.  For [i <= e], the loop over [range(i, e)] sees exactly the
    integers [i], ..., [e - 1], in increasing order ([e - i] of them), the
    same list the sequential loop collects; this holds with the generator
    of [example/generator.hpp], which starts the coroutine in its
    constructor, and with the revision that starts it in [begin()].  The
    coroutine is entered [e - i + 1] times, first by [start] and then by
    [resume()]: after each of the first [e - i] entries it is not done and
    offers the next integer, and after the last one, which follows the
    consumption of [e - 1], it is done. *)
Theorem range_yields_the_interval (i e : Z) (raw : params) (fuel n : nat) :
  INT_MIN <= i -> i <= e -> e <= INT_MAX ->
  (0 < fuel)%nat -> (Z.to_nat (e - i) + 1 < n)%nat ->
  let len := Z.to_nat (e - i) in
  (exists c, consume n fuel (mk_params i e) raw = Some (iota i len, c)
             /\ done c = true) /\
  (exists c, consume_lazy n fuel (mk_params i e) raw = Some (iota i len, c)
             /\ done c = true) /\
  range_loop n i e [] = Some (iota i len) /\
  length (iota i len) = len /\
  (forall j, (j < len)%nat -> nth j (iota i len) 0 = i + Z.of_nat j) /\
  (forall k, (k <= len)%nat ->
     exists c,
       after_resumes fuel (mk_params i e) raw k = Some c /\
       done c = (k =? len)%nat /\
       ((k < len)%nat -> m_data (promise c) = Some (i + Z.of_nat k))).
Proof.
  intros Hlo Hle Hhi Hf Hn len.
  assert (Hrun : forall fin c0,
    exists c,
      match start (generator_hooks fin) no_awaiters range fuel
                  (mk_params i e) c0 with
      | Returned c1 => range_for (generator_hooks fin) n fuel c1 []
      | _ => None
      end = Some (iota i len, c) /\ done c = true).
  { intros fin c0.
    destruct (start_step fin fuel i e c0 Hf) as (c1 & Hs & Hc1).
    rewrite Hs. destruct (Z.eqb_spec i e) as [Heq|Hne].
    - exists c1. replace len with 0%nat by (subst len; lia).
      destruct n as [|m]; [lia|]. simpl. unfold done.
      rewrite Hc1, Z.eqb_refl. split; reflexivity.
    - destruct len as [|k] eqn:Hlen; [subst len; lia|].
      destruct (range_for_spec fin fuel Hf k i e c1 [] n)
        as (c & Hc & Hfin); try lia; try exact Hc1.
      exists c. split; [exact Hc|]. now apply done_spec. }
  split; [apply (Hrun (fun p => p))|].
  split; [apply (Hrun (fun _ => mk_promise None))|].
  split; [apply (range_loop_spec len i e [] n); subst len; lia|].
  split; [apply iota_length|].
  split; [intros j Hj; now apply iota_nth|].
  intros k Hk.
  destruct (after_resumes_spec fuel i e raw Hf Hlo Hle Hhi k Hk)
    as (c & Hc & Hst).
  exists c. split; [exact Hc|]. fold len in Hst.
  destruct (Nat.eqb_spec k len) as [Heq|Hne].
  - split; [now apply done_spec|lia].
  - destruct Hst as (H1 & H2 & H3). split; [|intros _; exact H3].
    unfold done. now rewrite H1.
Qed.

(** [range(0, 3)]: the loop sees 0, 1, 2; the coroutine offers them after
    the first three entries ([start], [resume()], [resume()]) and is done
    after the fourth. *)
Lemma range_yields_the_interval_witness :
  (exists c, consume 5 1 (mk_params 0 3) (mk_params 0 0)
             = Some ([0; 1; 2], c) /\ done c = true) /\
  (forall k, (k <= 3)%nat ->
     exists c,
       after_resumes 1 (mk_params 0 3) (mk_params 0 0) k = Some c /\
       done c = (k =? 3)%nat /\
       ((k < 3)%nat -> m_data (promise c) = Some (0 + Z.of_nat k))).
Proof.
  pose proof (range_yields_the_interval 0 3 (mk_params 0 0) 1 5) as H.
  assert (H1 : INT_MIN <= 0) by (unfold INT_MIN; lia).
  assert (H2 : 0 <= 3) by lia.
  assert (H3 : 3 <= INT_MAX) by (unfold INT_MAX; lia).
  assert (H4 : (Z.to_nat (3 - 0) + 1 < 5)%nat) by (simpl; lia).
  destruct (H H1 H2 H3 (le_n 1) H4) as (Hc & _ & _ & _ & _ & Hk).
  split; [exact Hc|exact Hk].
Defined.

(** ** A generator with any body *)

Section AnyBody.

Context {St : Type}.
Variable fin : promise_type -> promise_type.


Lemma yields_of_app (l1 l2 : list (event Z exn)) :
  yields_of (l1 ++ l2) = yields_of l1 ++ yields_of l2.
Proof. apply flat_map_app. Qed.

Ltac solve_yields :=
  unfold one_yield; simpl; rewrite ?yields_of_app; simpl;
  rewrite ?app_nil_r; try reflexivity; try assumption.

Lemma one_yield_from (c0 c1 : coroutine St promise_type Z exn no_awaiter)
  (o : outcome exn) (c' : coroutine St promise_type Z exn no_awaiter) :
  yields_of (trace c1) = yields_of (trace c0) ->
  one_yield c1 o c' -> one_yield c0 o c'.
Proof. unfold one_yield. intros ->. auto. Qed.

Lemma exec_yields (s : stmt St Z exn no_awaiter unit) :
  forall fuel m (c : coroutine St promise_type Z exn no_awaiter) o c',
    exec (generator_hooks fin) no_awaiters s fuel m c = (o, c') ->
    one_yield c o c'.
Proof.
  induction s as [ | f | s1 s2 IH1 IH2 | cnd s1 s2 IH1 IH2 | cnd b IHb
                 | ip eh sa expr | ip eh expr | ip eh sa expr f | r
                 | h prev b cl IHb IHcl ] using stmt_induction;
    intros fuel m c0 o c' Hex; simpl in Hex.
  - split_run Hex; solve_yields.
  - split_run Hex; solve_yields.
  - destruct (exec (generator_hooks fin) no_awaiters s1 fuel m c0)
      as [o1 c1] eqn:H1.
    apply IH1 in H1.
    destruct o1; try (inversion Hex; subst; exact H1);
      (eapply one_yield_from; [exact H1|eapply IH2; eauto]).
  - destruct m as [|t ex].
    + apply (one_yield_from c0 (emit EvBody c0)); [solve_yields|].
      destruct (cnd (m_state c0)); [eapply IH1|eapply IH2]; eauto.
    + destruct (exec (generator_hooks fin) no_awaiters s1 fuel (Seek t ex) c0)
        as [o1 c1] eqn:H1.
      apply IH1 in H1.
      destruct o1; try (inversion Hex; subst; exact H1).
      eapply one_yield_from; [exact H1|eapply IH2; eauto].
  - assert (Hloop : forall c1 o c',
              yields_of (trace c1) = yields_of (trace c0) ->
              while_loop cnd (exec (generator_hooks fin) no_awaiters b fuel Run)
                         fuel c1 = (o, c') ->
              one_yield c0 o c').
    { intros c1 o1 c1' Hc1.
      apply (while_loop_ind
               (fun x => yields_of (trace x) = yields_of (trace c0))
               (fun o x => one_yield c0 o x)); auto.
      - intros x Hx. simpl. now rewrite yields_of_app, Hx, app_nil_r.
      - intros x o2 x2 Hx Hstep. apply IHb in Hstep.
        destruct o2; simpl;
          try (eapply one_yield_from; [exact Hx|exact Hstep]).
        unfold one_yield in Hstep. simpl in Hstep. congruence. }
    destruct m as [|t ex].
    + eapply Hloop; eauto.
    + destruct (exec (generator_hooks fin) no_awaiters b fuel (Seek t ex) c0)
        as [o1 c1] eqn:H1.
      apply IHb in H1.
      destruct o1; try (inversion Hex; subst; exact H1).
      eapply Hloop; [exact H1|exact Hex].
  - destruct m as [|t ex].
    + inversion Hex; subst. unfold one_yield. simpl.
      exists (expr (m_state c0)). rewrite !yields_of_app. simpl.
      now rewrite app_nil_r.
    + split_run Hex; solve_yields.
  - destruct m as [|t ex].
    + inversion Hex; subst. unfold one_yield. simpl.
      exists (expr (m_state c0)). rewrite !yields_of_app. simpl. now split.
    + split_run Hex; solve_yields.
  - destruct m as [|t ex].
    + destruct (expr (m_state c0)).
    + unfold_steps Hex.
      destruct (t =? ip).
      * destruct (m_mem_tmp c0) as [[v|a]|];
          [inversion Hex; subst; solve_yields|destruct a
          |inversion Hex; subst; solve_yields].
      * split_run Hex; solve_yields.
  - destruct m as [|t ex].
    + unfold_steps Hex. destruct r; simpl in Hex; split_run Hex; solve_yields.
    + inversion Hex; subst. solve_yields.
  - destruct m as [|t ex].
    + apply IHb in Hex. exact Hex.
    + destruct (exec (generator_hooks fin) no_awaiters b fuel (Seek t ex) c0)
        as [o1 c1] eqn:H1.
      apply IHb in H1.
      destruct o1; try (inversion Hex; subst; exact H1).
      unfold one_yield in H1. simpl in H1.
      destruct (t =? h); [|inversion Hex; subst; solve_yields].
      destruct ex as [err|]; [|inversion Hex; subst; solve_yields].
      destruct (cl err) as [hd|] eqn:Hcl; [|inversion Hex; subst; solve_yields].
      apply (IHcl _ _ Hcl) in Hex.
      eapply one_yield_from; [|exact Hex]. solve_yields.
Qed.

Lemma switch_yields (body : stmt St Z exn no_awaiter unit) (fuel : nat)
  (ex : option exn) (c : coroutine St promise_type Z exn no_awaiter)
  (o : outcome exn) (c1 : coroutine St promise_type Z exn no_awaiter) :
  coz_switch (generator_hooks fin) no_awaiters body fuel ex c = (o, c1) ->
  one_yield c o c1.
Proof.
  unfold coz_switch, coz_dispatch. intros Hsw.
  destruct (if m_next c =? 0
            then exec (generator_hooks fin) no_awaiters body fuel Run c
            else exec (generator_hooks fin) no_awaiters body fuel
                      (Seek (m_next c) ex) c) as [o0 c0] eqn:Hd.
  assert (Hy : one_yield c o0 c0)
    by (destruct (m_next c =? 0); eapply exec_yields; eauto).
  destruct o0; try (inversion Hsw; subst; exact Hy).
  - unfold coz_end, implicit_return, call_return_void in Hsw. simpl in Hsw.
    inversion Hsw; subst. unfold one_yield in *. simpl in *.
    rewrite !yields_of_app, Hy. simpl. now rewrite !app_nil_r.
  - inversion Hsw; subst. unfold one_yield in *. simpl in *.
    rewrite !yields_of_app, Hy. simpl. now rewrite !app_nil_r.
Qed.

(** A call that comes back leaves the coroutine waiting with the value it
    yielded on offer, or done with nothing yielded. *)
Lemma retry_yields (body : stmt St Z exn no_awaiter unit) (fuel : nat) :
  coz_body body ->
  forall n ex (c : coroutine St promise_type Z exn no_awaiter),
    valid_eh body (m_eh c) -> entry_ok body c ->
    match coz_retry (generator_hooks fin) no_awaiters body fuel n ex c with
    | Returned c' | Threw _ c' =>
        valid_eh body (m_eh c') /\
        ((suspended_at body c' /\
          exists v, yields_of (trace c') = yields_of (trace c) ++ [v] /\
                    m_data (promise c') = Some v) \/
         (m_next c' = SENTINEL /\ yields_of (trace c') = yields_of (trace c)))
    | _ => True
    end.
Proof.
  intros Hb. induction n as [|n IH]; intros ex c Hv Hentry; simpl;
    [exact I|].
  destruct (coz_switch (generator_hooks fin) no_awaiters body fuel ex c)
    as [o c1] eqn:Hsw.
  destruct (switch_lifecycle _ _ body fuel Hb _ _ _ _ Hv Hentry Hsw)
    as [Heh Hlife].
  pose proof (switch_yields _ _ _ _ _ _ Hsw) as Hy. unfold one_yield in Hy.
  destruct o as [| | | |err| |]; simpl in Hy; try contradiction;
    try exact I.
  - split; [exact Heh|]. left. now split.
  - split; [exact Heh|]. right. now split.
  - simpl m_next.
    destruct (Z.eqb_spec (m_eh c1) SENTINEL) as [Heq|Hne]; simpl.
    + split; [exact Heh|]. right. split; [exact Heq|].
      rewrite !yields_of_app, Hy. simpl. now rewrite !app_nil_r.
    + assert (Hentry2 : entry_ok body (set_next (m_eh c1) c1)).
      { right; right. simpl. destruct Heh; [contradiction|assumption]. }
      specialize (IH (Some err) (set_next (m_eh c1) c1) Heh Hentry2).
      simpl in IH. rewrite Hy in IH. exact IH.
Qed.

Lemma iterate_spec (body : stmt St Z exn no_awaiter unit) (fuel : nat) :
  coz_body body ->
  forall n (c : coroutine St promise_type Z exn no_awaiter) out l c',
    valid_eh body (m_eh c) -> offers body c out ->
    iterate (generator_hooks fin) body n fuel c out = Some (l, c') ->
    l = yields_of (trace c') /\ done c' = true.
Proof.
  intros Hb. induction n as [|n IH]; intros c out l c' Hv Hoff Hit;
    simpl in Hit; [discriminate|].
  destruct Hoff as [[Hdone Hy]|[Hsus (v & Hd & Hy)]].
  - unfold done in Hit. rewrite Hdone, Z.eqb_refl in Hit.
    inversion Hit; subst. split; [reflexivity|].
    unfold done. now rewrite Hdone, Z.eqb_refl.
  - assert (Hentry : entry_ok body c).
    { destruct Hsus as (k & ip & eh & Hin & Hip & _).
      right; left. exists k, eh. now rewrite Hip. }
    assert (Hnd : done c = false).
    { destruct Hsus as (k & ip & eh & Hin & Hip & _).
      destruct (susp_points_labels _ _ _ _ Hin) as [Hl _].
      apply (coz_body_labels _ _ Hb) in Hl.
      unfold done. rewrite Hip. destruct (Z.eqb_spec ip SENTINEL); [lia|].
      reflexivity. }
    rewrite Hnd, Hd in Hit.
    pose proof (retry_yields body fuel Hb fuel None c Hv Hentry) as Hr.
    unfold resume, invoke in Hit.
    destruct (coz_retry (generator_hooks fin) no_awaiters body fuel fuel
                        None c) as [c1|e1 c1| |]; try discriminate.
    destruct Hr as [Hv1 Hcases].
    apply (IH c1 (out ++ [v]) l c' Hv1); [|exact Hit].
    destruct Hcases as [[Hs1 (v1 & Hy1 & Hd1)]|[Hdone1 Hy1]].
    + right. split; [exact Hs1|]. exists v1. split; [exact Hd1|].
      now rewrite Hy1, Hy.
    + left. split; [exact Hdone1|]. now rewrite Hy1, Hy.
Qed.

(** X8.  The loop over a generator, whatever its body, collects the values the
    body hands to [yield_value], each once and in the order of the calls,
    and ends with the coroutine done. *)
Theorem generator_yields_what_the_body_yields
  (body : stmt St Z exn no_awaiter unit) (n fuel : nat)
  (ps raw : St) (p : promise_type)
  (c : coroutine St promise_type Z exn no_awaiter) (l : list Z)
  (c' : coroutine St promise_type Z exn no_awaiter) :
  coz_body body ->
  start (generator_hooks fin) no_awaiters body fuel ps (coroutine_ctor p raw)
  = Returned c ->
  iterate (generator_hooks fin) body n fuel c [] = Some (l, c') ->
  l = yields_of (trace c') /\ done c' = true.
Proof.
  intros Hb Hs Hit.
  pose proof (retry_yields body fuel Hb fuel None
                (start_entry ps (coroutine_ctor p raw))
                (or_introl eq_refl) (or_introl eq_refl)) as Hr.
  unfold start, invoke in Hs. rewrite Hs in Hr.
  destruct Hr as [Hv Hcases].
  apply (iterate_spec body fuel Hb n c [] l c' Hv); [|exact Hit].
  destruct Hcases as [[Hs1 (v1 & Hy1 & Hd1)]|[Hdone1 Hy1]].
  - right. split; [exact Hs1|]. exists v1. split; [exact Hd1|exact Hy1].
  - left. split; [exact Hdone1|exact Hy1].
Qed.

Lemma generator_yield_returns : yield_value_returns (generator_hooks fin).
Proof. intros v p. eexists. reflexivity. Qed.

(** X9.  The destructor of a generator at any point of its life, whether
    its constructor starts the coroutine ([example/generator.hpp]) or its
    [begin()] does, again once a loop has used it up (the other revision):
    it never trips the assertion of [destroy()]; afterwards [finalize] has
    run once for every time the body was started, so not at all for a
    generator dropped before its first [begin()]; the scratch frame is
    empty with every temporary destroyed once; and no value is yielded. *)
Theorem generator_dtor_releases {Params : Type}
  (state_ctor : Params -> St + exn)
  (body : stmt St Z exn no_awaiter unit)
  (fuel n : nat) (c : coroutine St promise_type Z exn no_awaiter) :
  coz_body body -> (0 < fuel)%nat ->
  lifetime (generator_hooks fin) no_awaiters state_ctor body n c ->
  exists c',
    generator_impl_dtor (generator_hooks fin) body fuel c = Returned c' /\
    (done c = true -> c' = c) /\
    count_ev is_finalize (trace c') = n /\
    count_ev is_ctor_tmp (trace c') = count_ev is_dtor_tmp (trace c') /\
    m_mem_tmp c' = None /\
    yields_of (trace c') = yields_of (trace c).
Proof.
  intros Hb Hf Hl.
  destruct (lifetime_settled _ _ state_ctor body n c Hb Hl) as [_ Hset].
  destruct (lifetime_tmp _ _ state_ctor body n c Hb generator_yield_returns
              Hl) as [_ [Hbal Htmp]].
  assert (Hlt : forall k ip eh, In (k, ip, eh) (susp_points body) ->
                                (ip =? SENTINEL) = false).
  { intros k ip eh Hin. destruct (susp_points_labels _ _ _ _ Hin) as [Hlab _].
    apply (coz_body_labels _ _ Hb) in Hlab.
    destruct (Z.eqb_spec ip SENTINEL); [lia|reflexivity]. }
  unfold generator_impl_dtor, done.
  destruct Hset as [[Hdone Hcnt]|[Hsus Hcnt]].
  - rewrite Hdone, Z.eqb_refl. simpl. exists c.
    destruct Htmp as [[_ Hnone]|(k & ip & eh & Hin & Hip & _)].
    + unfold balanced, live in Hbal. rewrite Hnone in Hbal.
      repeat split; auto. lia.
    + apply Hlt in Hin. rewrite <- Hip, Hdone, Z.eqb_refl in Hin.
      discriminate.
  - destruct Htmp as [[Hdone _]|(k & ip & eh & Hin & Hip & Hocc)].
    + destruct Hsus as (k & ip & eh & Hin & Hip & _).
      apply Hlt in Hin. rewrite <- Hip, Hdone, Z.eqb_refl in Hin.
      discriminate.
    + rewrite Hip, (Hlt _ _ _ Hin). simpl.
      rewrite (destroy_suspended_eq _ _ body fuel c k ip eh Hb Hf Hin Hip).
      eexists. split; [reflexivity|]. split; [discriminate|].
      unfold balanced, live, occupied, count_ev in *.
      destruct k; simpl in *;
        try (destruct (m_mem_tmp c) eqn:Hm; [|congruence]);
        rewrite ?Hocc in Hbal;
        rewrite ?filter_app, ?length_app, ?yields_of_app; simpl;
        rewrite ?app_nil_r; repeat split; try reflexivity;
        try assumption; try lia.
Qed.

End AnyBody.

Lemma range_body : coz_body range.
Proof. split; [simpl; tauto|rewrite SENTINEL_value; simpl; lia]. Qed.

Lemma first_of_three_started :
  generator_impl_ctor 1 (mk_params 0 3) (mk_params 0 0)
  = Returned first_of_three.
Proof. reflexivity. Qed.

(** [range(0, 3)]: the loop collects the three values of the trace. *)
Lemma generator_yields_what_the_body_yields_witness :
  exists c',
    iterate promise_type_hooks range 5 1 first_of_three [] 
    = Some ([0; 1; 2], c') /\
    [0; 1; 2] = yields_of (trace c') /\ done c' = true.
Proof.
  eexists. split; [vm_compute; reflexivity|].
  apply (generator_yields_what_the_body_yields (fun p => p) range 5 1
           (mk_params 0 3) (mk_params 0 0) (mk_promise None)
           first_of_three _ _ range_body first_of_three_started).
  vm_compute. reflexivity.
Defined.

Lemma first_of_three_lifetime :
  lifetime promise_type_hooks no_awaiters (fun ps : params => inl ps) range 1
           first_of_three.
Proof.
  apply life_start with (fuel := 1%nat) (params := mk_params 0 3)
                        (st := mk_params 0 3)
                        (c := coroutine_ctor (mk_promise None)
                                (mk_params 0 0)).
  - apply life_ctor.
  - reflexivity.
  - reflexivity.
  - left. reflexivity.
Qed.

(** [range(0, 3)] dropped after the constructor that starts it: one
    [finalize], the temporary of the [COZ_YIELD] destroyed.  The generator
    that starts in [begin()], dropped after its constructor: [destroy()]
    is not called and [finalize] has not run. *)
Lemma generator_dtor_releases_witness :
  (exists c',
     generator_impl_dtor promise_type_hooks range 1 first_of_three
     = Returned c' /\
     (done first_of_three = true -> c' = first_of_three) /\
     count_ev is_finalize (trace c') = 1%nat /\
     count_ev is_ctor_tmp (trace c') = count_ev is_dtor_tmp (trace c') /\
     m_mem_tmp c' = None /\
     yields_of (trace c') = yields_of (trace first_of_three)) /\
  (exists c',
     generator_impl_dtor generator_promise_hooks range 1
       (coroutine_ctor (mk_promise None) (mk_params 0 0))
     = Returned c' /\
     c' = coroutine_ctor (mk_promise None) (mk_params 0 0) /\
     count_ev is_finalize (trace c') = 0%nat).
Proof.
  split.
  - exact (generator_dtor_releases (fun p => p)
             (fun ps : params => inl ps) range 1 1 first_of_three
             range_body (le_n 1) first_of_three_lifetime).
  - destruct (generator_dtor_releases (fun _ => mk_promise None)
                (fun ps : params => inl ps) range 1 0
                (coroutine_ctor (mk_promise None) (mk_params 0 0))
                range_body (le_n 1)
                (life_ctor _ _ _ _ _ _))
      as (c' & Hd & Hsame & Hfin & _).
    exists c'. split; [exact Hd|]. split; [exact (Hsame eq_refl)|exact Hfin].
Defined.

(** X10.  [begin()] of the revision that starts the coroutine in [begin()], for
    [range(i, e)] with [i <= e]: on a coroutine that is done (a new one, or
    one a loop has used up) it starts the body with the parameters the
    generator keeps, so that a loop over the generator sees the whole
    range, again if it was seen before; on a coroutine that waits at its
    [COZ_YIELD] it resumes, so that the value on offer is passed over. *)
Theorem lazy_begin_restarts (i e : Z) (fuel n : nat) :
  INT_MIN <= i -> i <= e -> e <= INT_MAX ->
  (0 < fuel)%nat -> (Z.to_nat (e - i) + 1 < n)%nat ->
  (forall c, done c = true ->
     exists c1 c2,
       generator_impl_begin fuel (mk_params i e) c = Returned c1 /\
       range_for generator_promise_hooks n fuel c1 []
       = Some (iota i (Z.to_nat (e - i)), c2) /\
       done c2 = true) /\
  (forall j c, i <= j < e -> at_yield j e c ->
     exists c1,
       generator_impl_begin fuel (mk_params i e) c = Returned c1 /\
       if j + 1 =? e then done c1 = true else at_yield (j + 1) e c1).
Proof.
  intros Hlo Hle Hhi Hf Hn. split.
  - intros c Hd. unfold generator_impl_begin. rewrite Hd.
    destruct (start_step (fun _ => mk_promise None) fuel i e c Hf)
      as (c1 & Hs & Hc1).
    unfold generator_promise_hooks. rewrite Hs. exists c1.
    destruct (Z.eqb_spec i e) as [Heq|Hne].
    + exists c1. split; [reflexivity|].
      replace (Z.to_nat (e - i)) with 0%nat by lia.
      destruct n as [|m]; [lia|]. simpl. unfold done.
      rewrite Hc1, Z.eqb_refl. split; reflexivity.
    + destruct (Z.to_nat (e - i)) as [|k] eqn:Hlen; [lia|].
      destruct (range_for_spec (fun _ => mk_promise None) fuel Hf k i e c1
                  [] n) as (c2 & Hc2 & Hfin); try lia; try exact Hc1.
      exists c2. split; [reflexivity|]. split; [exact Hc2|].
      now apply done_spec.
  - intros j c Hj Hy. unfold generator_impl_begin.
    assert (Hnd : done c = false).
    { destruct Hy as (Hy1 & _). unfold done. now rewrite Hy1. }
    rewrite Hnd.
    destruct (resume_step (fun _ => mk_promise None) fuel j e c Hf
                ltac:(lia) ltac:(lia) Hhi Hy) as (c1 & Hr & Hc1).
    unfold generator_promise_hooks. rewrite Hr. exists c1.
    split; [reflexivity|].
    destruct (j + 1 =? e); [now apply done_spec|exact Hc1].
Qed.

(** [range(0, 3)] with the lazy header: [begin()] on a new generator, and
    [begin()] on one that offers 0. *)
Lemma lazy_begin_restarts_witness :
  (exists c1 c2,
     generator_impl_begin 1 (mk_params 0 3)
                          (coroutine_ctor (mk_promise None) (mk_params 0 0))
     = Returned c1 /\
     range_for generator_promise_hooks 5 1 c1 []
     = Some (iota 0 (Z.to_nat (3 - 0)), c2) /\
     done c2 = true) /\
  (exists c1,
     generator_impl_begin 1 (mk_params 0 3) first_of_three = Returned c1 /\
     at_yield 1 3 c1).
Proof.
  assert (H1 : INT_MIN <= 0) by (unfold INT_MIN; lia).
  assert (H2 : 0 <= 3) by lia.
  assert (H3 : 3 <= INT_MAX) by (unfold INT_MAX; lia).
  assert (H4 : (Z.to_nat (3 - 0) + 1 < 5)%nat) by (simpl; lia).
  destruct (lazy_begin_restarts 0 3 1 5 H1 H2 H3 (le_n 1) H4) as [Ha Hb].
  split.
  - exact (Ha (coroutine_ctor (mk_promise None) (mk_params 0 0)) eq_refl).
  - assert (Hj : 0 <= 0 < 3) by lia.
    destruct (Hb 0 first_of_three Hj (conj eq_refl (conj eq_refl eq_refl)))
      as (c1 & Hr & Hc1).
    exists c1. split; [exact Hr|exact Hc1].
Defined.

End GeneratorFacts.
